(** * RUTH: the live traffic-state index [GlobalView]

    A shallow embedding of [ruth/globalview.py]: the segment-indexed store of
    floating car data (FCD), its dirty-segment tracking, the speed
    aggregation and the level-of-service model, followed by the properties
    the specification states about them.

    Conventions of the embedding.
    - A Python [float] is an IEEE 754 binary64 number: Rocq's primitive
      [float], with the same round-to-nearest-even operations.  The one
      place where Python departs from IEEE, true division by zero raising
      [ZeroDivisionError], is written out in [py_truediv].
    - A [datetime] is an integer count of microseconds ([Z]), a [timedelta]
      likewise; vehicle ids are Python integers ([Z]).
    - The [defaultdict] of observation lists and the [dict] of current
      segments are finite maps ([gmap]), the set of modified segments is a
      [gset].  The two local dictionaries whose iteration order reaches the
      result through a floating-point sum ([speeds], [vehicles_ahead]) are
      insertion-ordered association lists.
    - Methods that mutate [self] take the index and return the new one.
    - Bounds on floating-point results are proved on binary64 itself, through
      the specification [SpecFloat] of the primitive operations. *)

From Stdlib Require Import ZArith Floats Uint63.
From stdpp Require Import gmap strings list fin_maps sorting.

Set Warnings "-inexact-float,-clear-no-such-hyp".
Set Default Proof Using "Type*".

(** ** Numbers *)

(** Python's [int] to [float] conversion, for the magnitudes that occur here
    (a list length, a lane count): below 2^63 in absolute value. *)
Definition float_of_Z (z : Z) : float :=
  if (z <? 0)%Z then PrimFloat.opp (PrimFloat.of_uint63 (Uint63.of_Z (- z)))
  else PrimFloat.of_uint63 (Uint63.of_Z z).

Definition float_of_nat (n : nat) : float := float_of_Z (Z.of_nat n).

(** [float("inf")]. *)
Definition float_inf : float := PrimFloat.infinity.

(** Python's [x / y] on floats: [ZeroDivisionError] (here [None]) when the
    divisor compares equal to zero, the IEEE quotient otherwise. *)
Definition py_truediv (x y : float) : option float :=
  if PrimFloat.eqb y 0%float then None else Some (PrimFloat.div x y).

(** The builtin [sum] over floats: a left fold of [+] from the integer [0].
    (CPython 3.12 and later compensate the rounding error of the partial
    sums; the two agree wherever the partial sums are exact, as they are in
    every evaluation of this file.) *)
Definition py_sum (xs : list float) : float :=
  foldl PrimFloat.add 0%float xs.

(** ** Records of the collaborating modules *)

(** Modelled from the spec: the segment of the graph model
    ([ruth/data/segment.py] is not among the sources); the index reads its
    [id], [length] in meters and [lanes] count. *)
Module Segment.
Record t (SegmentId : Type) : Type := mk {
  id : SegmentId;
  length : float;
  lanes : Z
}.
Arguments mk {SegmentId} _ _ _.
Arguments id {SegmentId} _.
Arguments length {SegmentId} _.
Arguments lanes {SegmentId} _.
End Segment.

(** Modelled from the spec: one FCD record ([ruth/simulator/simulation.py]
    is not among the sources), with the fields the index reads. *)
Module FCDRecord.
Record t (SegmentId : Type) : Type := mk {
  segment : Segment.t SegmentId;
  vehicle_id : Z;
  vehicle_type : string;
  start_offset : float;
  datetime : Z;
  speed : float
}.
Arguments mk {SegmentId} _ _ _ _ _ _.
Arguments segment {SegmentId} _.
Arguments vehicle_id {SegmentId} _.
Arguments vehicle_type {SegmentId} _.
Arguments start_offset {SegmentId} _.
Arguments datetime {SegmentId} _.
Arguments speed {SegmentId} _.
End FCDRecord.

(** Modelled from the spec: the parameters of a vehicle class
    ([ruth/vehicle_types.py] is not among the sources). *)
Module VehicleParams.
Record t : Type := mk {
  name : string;
  pcu : float;
  length_m : float;
  standstill_gap_m : float
}.
End VehicleParams.

(** Modelled from the spec: the vehicle-class table, a lookup by type name
    with a mandatory ["car"] entry as universal fallback.  The table is the
    ["car"] entry together with the finite map of the other classes. *)
Module VehicleClasses.
Record t : Type := mk {
  car : VehicleParams.t;
  others : gmap string VehicleParams.t
}.

(** [DEFAULT_VEHICLE_CLASSES.get(ty, DEFAULT_VEHICLE_CLASSES["car"])]. *)
Definition get (tbl : t) (ty : string) : VehicleParams.t :=
  if decide (ty = "car") then car tbl
  else default (car tbl) (others tbl !! ty).
End VehicleClasses.

(** ** Insertion-ordered dictionaries

    A Python [dict] iterates in the order of first insertion; assigning to a
    key that is present overwrites the value in place. *)
Module OrderedDict.
Section ordered_dict.
Context {V : Type}.

Fixpoint set (k : Z) (v : V) (d : list (Z * V)) : list (Z * V) :=
  match d with
  | [] => [(k, v)]
  | (k', v') :: d' =>
      if decide (k' = k) then (k, v) :: d' else (k', v') :: set k v d'
  end.

Fixpoint get (k : Z) (d : list (Z * V)) : option V :=
  match d with
  | [] => None
  | (k', v') :: d' => if decide (k' = k) then Some v' else get k d'
  end.

(** [k in d]. *)
Definition mem (k : Z) (d : list (Z * V)) : bool := bool_decide (is_Some (get k d)).

Definition keys (d : list (Z * V)) : list Z := d.*1.
Definition values (d : list (Z * V)) : list V := d.*2.
End ordered_dict.
End OrderedDict.

(** ** [list.sort(key=...)]: the stable ascending sort

    Python's sort is stable; the result of a stable sort is determined by
    the input, so the insertion sort below stands for it. *)
Section stable_sort.
Context {A : Type} (key : A → Z).

Fixpoint sort_insert (x : A) (l : list A) : list A :=
  match l with
  | [] => [x]
  | y :: l' => if (key x <=? key y)%Z then x :: y :: l' else y :: sort_insert x l'
  end.

Definition list_sort (l : list A) : list A := foldr sort_insert [] l.
End stable_sort.

(** ** The index *)
Section global_view.
Context {SegmentId : Type} `{Countable SegmentId}.

Abbreviation FCD := (FCDRecord.t SegmentId).
Abbreviation segment_id_of fcd := (Segment.id (FCDRecord.segment fcd)).

Record GlobalView : Type := mkGlobalView {
  fcd_by_segment : gmap SegmentId (list FCD);
  car_to_segment : gmap Z SegmentId;
  modified_segments : gset SegmentId
}.

(** [GlobalView.__init__]. *)
Definition init : GlobalView :=
  {| fcd_by_segment := ∅; car_to_segment := ∅; modified_segments := ∅ |}.

Definition with_fcd_by_segment (m : gmap SegmentId (list FCD)) (gv : GlobalView) : GlobalView :=
  {| fcd_by_segment := m;
     car_to_segment := car_to_segment gv;
     modified_segments := modified_segments gv |}.

Definition with_car_to_segment (m : gmap Z SegmentId) (gv : GlobalView) : GlobalView :=
  {| fcd_by_segment := fcd_by_segment gv;
     car_to_segment := m;
     modified_segments := modified_segments gv |}.

Definition with_modified_segments (s : gset SegmentId) (gv : GlobalView) : GlobalView :=
  {| fcd_by_segment := fcd_by_segment gv;
     car_to_segment := car_to_segment gv;
     modified_segments := s |}.

(** [self.fcd_by_segment[segment_id]] on the [defaultdict(list)]: a missing
    key is first bound to a fresh empty list. *)
Definition fcd_by_segment_getitem (segment_id : SegmentId) (gv : GlobalView)
  : list FCD * GlobalView :=
  match fcd_by_segment gv !! segment_id with
  | Some fcds => (fcds, gv)
  | None => ([], with_fcd_by_segment (<[segment_id := []]> (fcd_by_segment gv)) gv)
  end.

(** [self.fcd_by_segment.get(segment_id, [])]: no key is created. *)
Definition observations (gv : GlobalView) (segment_id : SegmentId) : list FCD :=
  default [] (fcd_by_segment gv !! segment_id).

(** [GlobalView.add]. *)
Definition add (fcd : FCD) (gv : GlobalView) : GlobalView :=
  let segment_id := segment_id_of fcd in
  let '(fcds, gv) := fcd_by_segment_getitem segment_id gv in
  let gv := with_fcd_by_segment (<[segment_id := fcds ++ [fcd]]> (fcd_by_segment gv)) gv in
  let gv := with_modified_segments (modified_segments gv ∪ {[segment_id]}) gv in
  match car_to_segment gv !! FCDRecord.vehicle_id fcd with
  | Some old_segment =>
      if decide (old_segment ≠ segment_id) then
        let gv := with_modified_segments (modified_segments gv ∪ {[old_segment]}) gv in
        with_car_to_segment (<[FCDRecord.vehicle_id fcd := segment_id]> (car_to_segment gv)) gv
      else gv
  | None =>
      with_car_to_segment (<[FCDRecord.vehicle_id fcd := segment_id]> (car_to_segment gv)) gv
  end.

(** One turn of the loop of [load_ahead]. *)
Definition load_ahead_step (classes : VehicleClasses.t) (datetime tolerance : Z)
    (vehicle_id : Z) (vehicle_offset_m : float)
    (vehicles_ahead : list (Z * VehicleParams.t)) (fcd : FCD)
  : list (Z * VehicleParams.t) :=
  if bool_decide (datetime - tolerance ≤ FCDRecord.datetime fcd)%Z
     && bool_decide (FCDRecord.datetime fcd ≤ datetime + tolerance)%Z then
    if bool_decide (FCDRecord.vehicle_id fcd ≠ vehicle_id)
       && PrimFloat.ltb vehicle_offset_m (FCDRecord.start_offset fcd) then
      if negb (OrderedDict.mem (FCDRecord.vehicle_id fcd) vehicles_ahead) then
        let vehicle_params := VehicleClasses.get classes (FCDRecord.vehicle_type fcd) in
        OrderedDict.set (FCDRecord.vehicle_id fcd) vehicle_params vehicles_ahead
      else vehicles_ahead
    else vehicles_ahead
  else vehicles_ahead.

(** [GlobalView.load_ahead]; the defaults of the source are [tolerance=None],
    [vehicle_id=-1], [vehicle_offset_m=0]. *)
Definition load_ahead (classes : VehicleClasses.t) (gv : GlobalView)
    (datetime : Z) (segment_id : SegmentId) (tolerance : option Z)
    (vehicle_id : Z) (vehicle_offset_m : float)
  : float * float * list (Z * VehicleParams.t) :=
  let tolerance := default 0%Z tolerance in
  let vehicles_ahead :=
    foldl (load_ahead_step classes datetime tolerance vehicle_id vehicle_offset_m)
          [] (observations gv segment_id) in
  let total_pcu := py_sum (VehicleParams.pcu <$> OrderedDict.values vehicles_ahead) in
  let total_occupied_length :=
    py_sum ((λ p, PrimFloat.add (VehicleParams.length_m p) (VehicleParams.standstill_gap_m p))
              <$> OrderedDict.values vehicles_ahead) in
  (total_pcu, total_occupied_length, vehicles_ahead).

(** The constants of [level_of_service_in_front_of_vehicle]. *)
Definition mile : float := 1609.344%float.
Definition ending_length : float := 200%float.
Definition ranges : list ((float * float) * (float * float)) :=
  [ ((0, 12), (0.0, 0.2));
    ((12, 20), (0.2, 0.4));
    ((20, 30), (0.4, 0.6));
    ((30, 42), (0.6, 0.8));
    ((42, 67), (0.8, 1.0)) ]%float.

(** Lines 80-87: the density of vehicles per mile, rescaled by PCU. *)
Definition n_vehicles_per_mile (sum_pcu segment_length vehicle_offset_m : float)
    (segment_lanes : Z) : option float :=
  let rest_segment_length := PrimFloat.sub segment_length vehicle_offset_m in
  if PrimFloat.ltb rest_segment_length ending_length then
    py_truediv (PrimFloat.mul sum_pcu mile) ending_length
  else
    py_truediv (PrimFloat.mul sum_pcu mile)
               (PrimFloat.mul rest_segment_length (float_of_Z segment_lanes)).

(** Lines 89-95: the scan of the table, leaving [los] at [float("inf")] when
    no band matches. *)
Fixpoint los_lookup (table : list ((float * float) * (float * float)))
    (n_vehicles_per_mile : float) : option float :=
  match table with
  | [] => Some float_inf
  | ((low, high), (m, n)) :: table' =>
      if PrimFloat.ltb n_vehicles_per_mile high then
        let d := PrimFloat.sub high low in
        q ← py_truediv (PrimFloat.mul (PrimFloat.sub n_vehicles_per_mile low) 0.2%float) d;
        Some (PrimFloat.add m q)
      else los_lookup table' n_vehicles_per_mile
  end.

(** Line 98: [los if los == float("inf") else 1.0 - los]. *)
Definition reverse_los (los : float) : float :=
  if PrimFloat.eqb los float_inf then los else PrimFloat.sub 1.0%float los.

(** [GlobalView.level_of_service_in_front_of_vehicle]; [None] stands for a
    raised [ZeroDivisionError].  The diagnostic [print] of the jam branch
    writes to standard output only and is left out. *)
Definition level_of_service_in_front_of_vehicle (classes : VehicleClasses.t)
    (gv : GlobalView) (datetime : Z) (segment : Segment.t SegmentId)
    (vehicle_id : Z) (vehicle_offset_m : float) (tolerance : option Z)
    (limit_vehicle_count : bool) : option float :=
  let '(sum_pcu, sum_occupied_length, vehicles_ahead) :=
    load_ahead classes gv datetime (Segment.id segment) tolerance vehicle_id vehicle_offset_m in
  let available_length := PrimFloat.sub (Segment.length segment) vehicle_offset_m in
  if limit_vehicle_count
     && PrimFloat.eqb vehicle_offset_m 0.0%float
     && PrimFloat.leb 10.0%float (Segment.length segment)
     && PrimFloat.ltb available_length sum_occupied_length
  then Some float_inf
  else
    n ← n_vehicles_per_mile sum_pcu (Segment.length segment) vehicle_offset_m
                             (Segment.lanes segment);
    los ← los_lookup ranges n;
    Some (reverse_los los).

(** [GlobalView.level_of_service_in_time_at_segment]. *)
Definition level_of_service_in_time_at_segment (classes : VehicleClasses.t)
    (gv : GlobalView) (datetime : Z) (segment : Segment.t SegmentId) : option float :=
  level_of_service_in_front_of_vehicle classes gv datetime segment (-1) 0%float None false.

(** [GlobalView.get_segment_speed]; the value is [None] for Python's [None]. *)
Definition get_segment_speed (segment_id : SegmentId) (gv : GlobalView)
  : option float * GlobalView :=
  let '(fcds, gv) := fcd_by_segment_getitem segment_id gv in
  let by_segment := list_sort FCDRecord.datetime fcds in
  let speeds :=
    foldl (λ speeds fcd, OrderedDict.set (FCDRecord.vehicle_id fcd) (FCDRecord.speed fcd) speeds)
          [] by_segment in
  let speeds := OrderedDict.values speeds in
  if decide (length speeds = 0) then (None, gv)
  else (Some (PrimFloat.div (py_sum speeds) (float_of_nat (length speeds))), gv).

(** The loop of [take_segment_speeds] (lines 108-110): one call of
    [get_segment_speed] per modified segment, collected in [speeds]. *)
Definition take_segment_speeds_loop (gv : GlobalView)
  : gmap SegmentId (option float) * GlobalView :=
  set_fold (λ segment_id '(speeds, gv),
              let '(v, gv) := get_segment_speed segment_id gv in
              (<[segment_id := v]> speeds, gv))
           (∅, gv) (modified_segments gv).

(** [GlobalView.take_segment_speeds]: the loop, then
    [self.modified_segments.clear()]. *)
Definition take_segment_speeds (gv : GlobalView)
  : gmap SegmentId (option float) * GlobalView :=
  let '(speeds, gv) := take_segment_speeds_loop gv in
  (speeds, with_modified_segments ∅ gv).

(** [GlobalView.drop_old]. *)
Definition drop_old (dt_threshold : Z) (gv : GlobalView) : GlobalView :=
  map_fold (λ segment_id old_fcds gv,
              let '(fcds, gv) := fcd_by_segment_getitem segment_id gv in
              let new_fcds := filter (λ fcd, (dt_threshold ≤ FCDRecord.datetime fcd)%Z) fcds in
              if decide (length new_fcds ≠ length old_fcds) then
                let gv := with_fcd_by_segment (<[segment_id := new_fcds]> (fcd_by_segment gv)) gv in
                with_modified_segments (modified_segments gv ∪ {[segment_id]}) gv
              else gv)
           gv (fcd_by_segment gv).

(** ** The vocabulary of the specification *)

(** The distinct elements of a list, in the order of their first occurrence. *)
Fixpoint first_occurrences (l : list Z) : list Z :=
  match l with
  | [] => []
  | x :: l' => x :: filter (λ y, y ≠ x) (first_occurrences l')
  end.

(** The speed of the last observation of vehicle [v] in [fcds]. *)
Definition last_speed_of (v : Z) (fcds : list FCD) : option float :=
  FCDRecord.speed <$> last (filter (λ fcd, FCDRecord.vehicle_id fcd = v) fcds).

(** The per-vehicle latest speeds of a sequence of observations, one per
    distinct vehicle. *)
Definition latest_speeds (fcds : list FCD) : list float :=
  omap (λ v, last_speed_of v fcds) (first_occurrences (FCDRecord.vehicle_id <$> fcds)).

(** The arithmetic mean, as [sum(xs) / len(xs)]. *)
Definition mean (xs : list float) : float :=
  PrimFloat.div (py_sum xs) (float_of_nat (length xs)).

(** An observation lies in the window [[time - tolerance, time + tolerance]]. *)
Definition in_window (time tolerance : Z) (fcd : FCD) : Prop :=
  (time - tolerance ≤ FCDRecord.datetime fcd ≤ time + tolerance)%Z.

(** An observation counts toward the load ahead of [vehicle_id] at
    [vehicle_offset_m] (lines 44-45): in the window, of another vehicle,
    strictly further along the segment. *)
Definition counts_ahead (time tolerance vehicle_id : Z) (vehicle_offset_m : float)
    (fcd : FCD) : Prop :=
  in_window time tolerance fcd
  ∧ FCDRecord.vehicle_id fcd ≠ vehicle_id
  ∧ PrimFloat.ltb vehicle_offset_m (FCDRecord.start_offset fcd) = true.

#[global] Instance counts_ahead_dec time tolerance vehicle_id vehicle_offset_m fcd :
  Decision (counts_ahead time tolerance vehicle_id vehicle_offset_m fcd).
Proof. unfold counts_ahead, in_window. apply _. Defined.

(** The calls a driver makes on the index between two drains. *)
Inductive call : Type :=
  | CallAdd (fcd : FCD)
  | CallDropOld (dt_threshold : Z)
  | CallGetSegmentSpeed (segment_id : SegmentId).

Definition run_call (gv : GlobalView) (c : call) : GlobalView :=
  match c with
  | CallAdd fcd => add fcd gv
  | CallDropOld dt_threshold => drop_old dt_threshold gv
  | CallGetSegmentSpeed segment_id => (get_segment_speed segment_id gv).2
  end.

Definition run_calls (gv : GlobalView) (cs : list call) : GlobalView :=
  foldl run_call gv cs.

(** Call [c], made in state [gv], touches segment [s]: an [add] on [s], an
    [add] of a vehicle whose recorded segment is [s], or a [drop_old] that
    changes the observation count of [s]. *)
Definition touches (c : call) (gv : GlobalView) (s : SegmentId) : Prop :=
  match c with
  | CallAdd fcd =>
      s = segment_id_of fcd ∨ car_to_segment gv !! FCDRecord.vehicle_id fcd = Some s
  | CallDropOld dt_threshold =>
      length (filter (λ fcd, (dt_threshold ≤ FCDRecord.datetime fcd)%Z) (observations gv s))
      ≠ length (observations gv s)
  | CallGetSegmentSpeed _ => False
  end.

End global_view.

Arguments GlobalView SegmentId {_ _}.

(** The states of the index a driver can bring about: the fresh index,
    and what the four mutating methods make of a state.  ([load_ahead] and
    the level-of-service methods leave the index as it is.) *)
Inductive reachable {SegmentId : Type} `{Countable SegmentId}
  : GlobalView SegmentId → Prop :=
  | reachable_init : reachable init
  | reachable_add fcd gv : reachable gv → reachable (add fcd gv)
  | reachable_drop_old dt_threshold gv : reachable gv → reachable (drop_old dt_threshold gv)
  | reachable_get_segment_speed segment_id gv :
      reachable gv → reachable (get_segment_speed segment_id gv).2
  | reachable_take_segment_speeds gv :
      reachable gv → reachable (take_segment_speeds gv).2.

(** ** Binary64 numbers as scaled integers

    The vocabulary of the rounding arguments: the value of a binary64
    number as an integer, the canonical position of a mantissa, and the
    checks on constants that bound one arithmetic operation. *)
Section binary64_values.
Local Open Scope Z_scope.

(** A shifted mantissa that lost a non-zero bit. *)
Definition inexact (mrs : shr_record) : bool := shr_r mrs || shr_s mrs.

(** A binary64 number [m * 2^e] is compared through the integer
    [m * 2^(e + 5000)]; every exponent that occurs is above [-5000]. *)
Definition scaled (m e : Z) : Z := m * 2 ^ (e + 5000).

(** A mantissa and exponent in canonical position: at most 53 digits, no
    exponent below the least one, and 53 digits above the least exponent. *)
Definition positioned (m e : Z) : Prop :=
  0 ≤ m < 2 ^ 53 ∧ -1074 ≤ e ∧ (-1074 < e → 2 ^ 52 ≤ m).

(** A number, not a NaN, of sign [s]. *)
Definition has_sign (s : bool) (x : spec_float) : Prop :=
  match x with
  | S754_nan => False
  | S754_zero s' | S754_infinity s' | S754_finite s' _ _ => s' = s
  end.

(** A zero or a positive finite number, within the bounds of binary64. *)
Definition finite_nonneg (x : spec_float) : Prop :=
  match x with
  | S754_zero _ => True
  | S754_finite false m e => bounded prec emax m e = true
  | _ => False
  end.

(** The scaled value of a zero or a positive finite number. *)
Definition sval (x : spec_float) : Z :=
  match x with
  | S754_finite false m e => scaled (Zpos m) e
  | _ => 0
  end.

(** Not a NaN and not negative: a zero, a positive finite number or
    [+infinity]. *)
Definition sf_nonneg (x : spec_float) : Prop := SFleb (S754_zero false) x = true.

End binary64_values.

(** A positive finite number; a zero or a positive finite number; the
    mantissa and the exponent of a finite number. *)
Definition sf_pos (x : spec_float) : bool :=
  match x with S754_finite false _ _ => true | _ => false end.

Definition sf_fin (x : spec_float) : bool :=
  match x with S754_zero _ | S754_finite false _ _ => true | _ => false end.

Definition sf_mant (x : spec_float) : Z :=
  match x with S754_finite _ m _ => Zpos m | _ => 0%Z end.

Definition sf_expo (x : spec_float) : Z :=
  match x with S754_finite _ _ e => e | _ => 0%Z end.

(** [x] lies between [0] and [G]. *)
Definition within (x G : float) : Prop :=
  PrimFloat.leb 0 x = true ∧ PrimFloat.leb x G = true.

(** The exact product of [G] and [c] is at most [G']. *)
Definition mul_fits (G c G' : float) : bool :=
  let g := Prim2SF G in let k := Prim2SF c in let g' := Prim2SF G' in
  sf_pos g && sf_pos k && sf_pos g'
  && (scaled (sf_mant g * sf_mant k) (sf_expo g + sf_expo k) <=? sval g')%Z.

(** The exact quotient of [G] by [c] is at most [G']. *)
Definition div_fits (G c G' : float) : bool :=
  let g := Prim2SF G in let k := Prim2SF c in let g' := Prim2SF G' in
  sf_pos g && sf_pos k && sf_pos g'
  && (sval g <=? scaled (sf_mant g' * sf_mant k) (sf_expo g' + sf_expo k))%Z.

(** The exact sum of [m] and [G] is at most [G']. *)
Definition add_fits (m G G' : float) : bool :=
  let k := Prim2SF m in let g := Prim2SF G in let g' := Prim2SF G' in
  sf_fin k && sf_pos g && sf_pos g' && (sval k + sval g <=? sval g')%Z.

(** The exact difference of [P] and [low] is at most [G']. *)
Definition sub_fits (low P G' : float) : bool :=
  let k := Prim2SF low in let p := Prim2SF P in let g' := Prim2SF G' in
  sf_fin k && sf_pos p && sf_pos g' && (sval p - sval k <=? sval g')%Z.

(** [P] is the binary64 number just below [high], in the same binade. *)
Definition pred_of (high P : float) : bool :=
  let h := Prim2SF high in let p := Prim2SF P in
  sf_pos h && sf_pos p && (1 <? sf_mant h)%Z
  && (sf_mant p =? sf_mant h - 1)%Z && (sf_expo p =? sf_expo h)%Z.

(** The bounds of the intermediate results of one band of the table: of
    [d - low], of its product with [0.2] and of the quotient by the width. *)
Definition band_bounds (low high : float) : float * float * float * float :=
  let D := PrimFloat.sub high low in
  let P := PrimFloat.next_down high in
  let Ga := PrimFloat.sub P low in
  let Gb0 := PrimFloat.mul Ga 0.2%float in
  let Gb := if mul_fits Ga 0.2%float Gb0 then Gb0 else PrimFloat.next_up Gb0 in
  let Gq0 := PrimFloat.div Gb D in
  let Gq := if div_fits Gb D Gq0 then Gq0 else PrimFloat.next_up Gq0 in
  (P, Ga, Gb, Gq).

(** All the checks of one band: its intermediate bounds hold and lead to a
    raw level of at most 1; its upper end is a positive number and its
    width is not zero. *)
Definition band_fits (band : (float * float) * (float * float)) : bool :=
  let '((low, high), (m, _)) := band in
  let '(P, Ga, Gb, Gq) := band_bounds low high in
  pred_of high P && sub_fits low P Ga && mul_fits Ga 0.2%float Gb
  && div_fits Gb (PrimFloat.sub high low) Gq && add_fits m Gq 1%float
  && sf_pos (Prim2SF high) && negb (PrimFloat.eqb (PrimFloat.sub high low) 0%float).

(** The bands of a table follow one another from [lo] upwards and each of
    them fits. *)
Fixpoint chained (lo : float) (table : list ((float * float) * (float * float))) : bool :=
  match table with
  | [] => true
  | ((low, high), mn) :: table' =>
      PrimFloat.leb low lo && band_fits ((low, high), mn) && chained high table'
  end.

(** A NaN, or a number that is not negative. *)
Definition nonneg_or_nan (d : float) : Prop :=
  Prim2SF d = S754_nan ∨ PrimFloat.leb 0 d = true.

(** All the checks of one band toward its own upper raw level: as
    [band_fits], with the raw level bounded by [n] rather than by 1. *)
Definition band_raw_fits (band : (float * float) * (float * float)) : bool :=
  let '((low, high), (m, n)) := band in
  let '(P, Ga, Gb, Gq) := band_bounds low high in
  pred_of high P && sub_fits low P Ga && mul_fits Ga 0.2%float Gb
  && div_fits Gb (PrimFloat.sub high low) Gq && add_fits m Gq n
  && sf_fin (Prim2SF m).

(** The rows of a table rise: each band starts where the one before it
    ends, its raw levels start where those before it end, and its checks
    hold. *)
Fixpoint rising (n0 lo : float) (table : list ((float * float) * (float * float))) : bool :=
  match table with
  | [] => PrimFloat.leb n0 infinity
  | ((low, high), (m, n)) :: table' =>
      PrimFloat.leb low lo && PrimFloat.leb n0 m && PrimFloat.leb m n
      && band_raw_fits ((low, high), (m, n))
      && sf_pos (Prim2SF high)
      && negb (PrimFloat.eqb (PrimFloat.sub high low) 0%float)
      && rising n high table'
  end.

(** The parameters of a vehicle class count for no negative load: neither
    the PCU value nor the occupied length is negative or a NaN. *)
Definition nonneg_params (p : VehicleParams.t) : Prop :=
  PrimFloat.leb 0 (VehicleParams.pcu p) = true
  ∧ PrimFloat.leb 0 (PrimFloat.add (VehicleParams.length_m p)
                                    (VehicleParams.standstill_gap_m p)) = true.

(** ** Rounding on codes

    The rounding of [SpecFloat] reads three things off an exact value: the
    mantissa below it, the round bit and the sticky bit.  Packed into one
    integer they order the exact values, and rounding is monotone on them. *)
Section rounding_code_definitions.
Local Open Scope Z_scope.

(** The place of an exact value between two mantissas, as one integer:
    four times the mantissa below it, plus 0 when the value is that
    mantissa, 1 below the half, 2 at the half, 3 above it. *)
Definition code (mrs : shr_record) : Z :=
  4 * shr_m mrs + (if shr_r mrs then 2 else 0) + (if shr_s mrs then 1 else 0).

(** The code of the value [A / B]. *)
Definition place (A B : Z) : Z :=
  2 * ((2 * A) / B) + (if (2 * A) mod B =? 0 then 0 else 1).

(** The code after one more shift. *)
Definition halve (c : Z) : Z :=
  2 * (c / 4) + (if c mod 4 =? 0 then 0 else 1).

(** Rounding to nearest, ties to even, on a code. *)
Definition round_code (c : Z) : Z :=
  if c mod 4 =? 3 then c / 4 + 1
  else if c mod 4 =? 2 then (if Z.even (c / 4) then c / 4 else c / 4 + 1)
  else c / 4.

(** The last step of [binary_round_aux]: the rounded mantissa [m2] at the
    exponent [e1] is brought back to 53 digits and packed, or overflows. *)
Definition pack (m2 e1 : Z) : spec_float :=
  let '(mrs'', e'') := shr_fexp prec emax m2 e1 loc_Exact in
  match shr_m mrs'' with
  | Z0 => S754_zero false
  | Zpos m => if e'' <=? emax - prec then S754_finite false m e'' else S754_infinity false
  | Zneg _ => S754_nan
  end.

End rounding_code_definitions.

(** ** Concrete indexes

    Segment ids are integers here.  The class table is the one of the
    specification's scenario (a car of PCU 1, 5 m long, with a 2 m gap),
    extended with a truck. *)
Module Examples.

Definition car_params : VehicleParams.t :=
  {| VehicleParams.name := "car"; VehicleParams.pcu := 1;
     VehicleParams.length_m := 5; VehicleParams.standstill_gap_m := 2 |}.

Definition truck_params : VehicleParams.t :=
  {| VehicleParams.name := "truck"; VehicleParams.pcu := 2;
     VehicleParams.length_m := 12; VehicleParams.standstill_gap_m := 3 |}.

Definition classes : VehicleClasses.t :=
  {| VehicleClasses.car := car_params;
     VehicleClasses.others := {[ "truck" := truck_params ]} |}.

(** A car seen on [segment] at [start_offset] meters, at time [datetime]. *)
Definition car_at (segment : Segment.t Z) (vehicle_id : Z) (start_offset : float)
    (datetime : Z) (speed : float) : FCDRecord.t Z :=
  FCDRecord.mk segment vehicle_id "car" start_offset datetime speed.

Definition add_all (fcds : list (FCDRecord.t Z)) (gv : GlobalView Z) : GlobalView Z :=
  foldl (λ gv fcd, add fcd gv) gv fcds.

(** Vehicles [1..n] on [segment], ten meters apart from offset 10, at time 0. *)
Definition queue (segment : Segment.t Z) (n : nat) : list (FCDRecord.t Z) :=
  (λ i, car_at segment (Z.of_nat i) (float_of_nat (10 * i)) 0 30) <$> seq 1 n.

(** One vehicle seen twice on segment 7, at 10 km/h and then at 20 km/h. *)
Definition road7 : Segment.t Z := Segment.mk 7%Z 500 2.
Definition seen_slow : FCDRecord.t Z := car_at road7 1 0 100 10.
Definition seen_fast : FCDRecord.t Z := car_at road7 1 40 200 20.
Definition gv_one_vehicle : GlobalView Z := add_all [seen_slow; seen_fast] init.
Definition gv_one_vehicle_reversed : GlobalView Z := add_all [seen_fast; seen_slow] init.

(** Two vehicles, the first moving from segment 7 to segment 8. *)
Definition road8 : Segment.t Z := Segment.mk 8%Z 300 1.
Definition gv_moving : GlobalView Z :=
  add_all [car_at road7 1 0 100 10; car_at road7 2 5 100 12; car_at road8 1 0 160 15] init.

(** A 10 m segment with two cars ahead of its start. *)
Definition short_road : Segment.t Z := Segment.mk 3%Z 10 1.
Definition gv_short : GlobalView Z :=
  add_all [car_at short_road 1 3 0 5; car_at short_road 2 6 0 5] init.

(** One truck ahead of the start of the 10 m segment. *)
Definition gv_truck : GlobalView Z :=
  add_all [FCDRecord.mk short_road 1%Z "truck" 3%float 0%Z 5%float] init.

(** Twelve cars on one lane of 1609.344 m: twelve vehicles per mile. *)
Definition mile_road : Segment.t Z := Segment.mk 6%Z 1609.344 1.
Definition gv_mile : GlobalView Z := add_all (queue mile_road 12) init.

(** One car standing at the very start of segment 7, at time 1000. *)
Definition gv_at_start : GlobalView Z := add_all [car_at road7 1 0 1000 30] init.

(** The scenario of the specification: 500 m, two lanes, twenty cars ahead. *)
Definition gv_scenario : GlobalView Z := add_all (queue road7 20) init.

(** Ten cars on one lane of 240.20059701492542 m. *)
Definition edge_road : Segment.t Z := Segment.mk 5%Z 0x1.e066b4a6e58f5p+7 1.
Definition gv_edge : GlobalView Z := add_all (queue edge_road 10) init.

End Examples.

(** * Properties *)

(** ** The stable sort: a permutation, ascending, order of equal keys kept *)

Section stable_sort_properties.
Context {A : Type} (key : A → Z).

Abbreviation key_le := (λ a b : A, (key a ≤ key b)%Z).

Lemma sort_insert_perm x l : sort_insert key x l ≡ₚ x :: l.
Proof.
  induction l as [|y l IH]; simpl; [done|].
  destruct (key x <=? key y)%Z; [done|].
  rewrite IH. apply Permutation_swap.
Qed.

Lemma list_sort_perm l : list_sort key l ≡ₚ l.
Proof.
  induction l as [|x l IH]; simpl; [done|].
  by rewrite sort_insert_perm, IH.
Qed.

Lemma sort_insert_sorted x l :
  StronglySorted key_le l → StronglySorted key_le (sort_insert key x l).
Proof.
  induction 1 as [|y l Hl IH Hy]; simpl.
  - repeat constructor.
  - destruct (Z.leb_spec (key x) (key y)) as [Hle|Hgt].
    + constructor; [by constructor|].
      constructor; [done|].
      eapply Forall_impl; [exact Hy|]. simpl. intros; lia.
    + constructor; [done|].
      rewrite sort_insert_perm. constructor; [lia|done].
Qed.

Lemma list_sort_sorted l : StronglySorted key_le (list_sort key l).
Proof.
  induction l as [|x l IH]; simpl; [constructor|].
  by apply sort_insert_sorted.
Qed.

Lemma sort_insert_stable t x l :
  filter (λ a, key a = t) (sort_insert key x l) = filter (λ a, key a = t) (x :: l).
Proof.
  induction l as [|y l IH]; simpl; [done|].
  destruct (Z.leb_spec (key x) (key y)) as [Hle|Hgt]; [done|].
  rewrite (filter_cons _ y), IH, !filter_cons.
  repeat case_decide; try done; lia.
Qed.

Lemma list_sort_stable t l :
  filter (λ a, key a = t) (list_sort key l) = filter (λ a, key a = t) l.
Proof.
  induction l as [|x l IH]; simpl; [done|].
  by rewrite sort_insert_stable, !filter_cons, IH.
Qed.

Lemma list_sort_nil_inv l : list_sort key l = [] → l = [].
Proof.
  intros Hs. apply Permutation_nil_r. rewrite <- Hs. by rewrite list_sort_perm.
Qed.

End stable_sort_properties.

(** ** Insertion-ordered dictionaries *)

Section ordered_dict_properties.
Context {V : Type}.
Implicit Types (d : list (Z * V)) (k : Z) (v : V).

Lemma dict_get_set k k' v d :
  OrderedDict.get k' (OrderedDict.set k v d)
  = if decide (k = k') then Some v else OrderedDict.get k' d.
Proof.
  induction d as [|[k0 v0] d IH]; csimpl.
  - repeat case_decide; congruence.
  - destruct (decide (k0 = k)) as [->|Hne]; csimpl.
    + repeat case_decide; congruence.
    + rewrite IH. repeat case_decide; congruence.
Qed.

Lemma dict_get_Some_keys k d :
  is_Some (OrderedDict.get k d) ↔ k ∈ OrderedDict.keys d.
Proof.
  unfold OrderedDict.keys.
  induction d as [|[k0 v0] d IH]; csimpl.
  - split; [by intros [? ?]|by intros ?%elem_of_nil].
  - rewrite elem_of_cons. case_decide as Hk; [subst; naive_solver|].
    rewrite IH. naive_solver.
Qed.

Lemma dict_mem_keys k d :
  OrderedDict.mem k d = bool_decide (k ∈ OrderedDict.keys d).
Proof. unfold OrderedDict.mem. apply bool_decide_ext, dict_get_Some_keys. Qed.

Lemma dict_keys_set k v d :
  OrderedDict.keys (OrderedDict.set k v d)
  = if decide (k ∈ OrderedDict.keys d) then OrderedDict.keys d
    else OrderedDict.keys d ++ [k].
Proof.
  unfold OrderedDict.keys.
  induction d as [|[k0 v0] d IH]; csimpl.
  - done.
  - destruct (decide (k0 = k)) as [->|Hne]; csimpl.
    + rewrite decide_True; [done|]. apply elem_of_cons; by left.
    + rewrite IH. destruct (decide (k ∈ d.*1)) as [Hin|Hnin].
      * rewrite decide_True; [done|]. apply elem_of_cons; by right.
      * rewrite decide_False; [done|]. rewrite elem_of_cons. naive_solver.
Qed.

Lemma dict_values_keys d :
  NoDup (OrderedDict.keys d) →
  OrderedDict.values d = omap (λ k, OrderedDict.get k d) (OrderedDict.keys d).
Proof.
  unfold OrderedDict.keys, OrderedDict.values.
  induction d as [|[k0 v0] d IH]; csimpl; [done|].
  intros [Hk0 Hnd]%NoDup_cons.
  rewrite decide_True by done. f_equal.
  rewrite IH by done.
  apply list_omap_ext. apply Forall_Forall2_diag, Forall_forall.
  intros k Hk. rewrite decide_False; [done|]. by intros ->.
Qed.

(** The dictionary built by assigning the pairs of [kvs], in order, onto [d]. *)
Lemma dict_fold_keys {B} (kf : B → Z) (vf : B → V) (l : list B) d :
  OrderedDict.keys (foldl (λ d b, OrderedDict.set (kf b) (vf b) d) d l)
  = OrderedDict.keys d
    ++ filter (λ k, k ∉ OrderedDict.keys d) (first_occurrences (kf <$> l)).
Proof.
  revert d. induction l as [|b l IH]; intros d; csimpl.
  - by rewrite app_nil_r.
  - rewrite IH, dict_keys_set, filter_cons, list_filter_filter.
    destruct (decide (kf b ∈ OrderedDict.keys d)) as [Hin|Hnin].
    + rewrite decide_False by naive_solver. f_equal.
      apply list_filter_iff. intros k. split; [|naive_solver].
      intros Hk. split; [done|]. by intros ->.
    + rewrite decide_True by done. rewrite <- app_assoc. csimpl. do 2 f_equal.
      apply list_filter_iff. intros k. rewrite elem_of_app, list_elem_of_singleton.
      naive_solver.
Qed.

Lemma dict_fold_get {B} (kf : B → Z) (vf : B → V) (l : list B) d k :
  OrderedDict.get k (foldl (λ d b, OrderedDict.set (kf b) (vf b) d) d l)
  = match last (filter (λ b, kf b = k) l) with
    | Some b => Some (vf b)
    | None => OrderedDict.get k d
    end.
Proof.
  revert d. induction l as [|b l IH]; intros d; csimpl; [done|].
  rewrite IH, filter_cons, dict_get_set.
  destruct (decide (kf b = k)) as [Hk|Hk].
  - rewrite last_cons. by destruct (last (filter _ l)).
  - done.
Qed.

Lemma first_occurrences_NoDup (l : list Z) : NoDup (first_occurrences l).
Proof.
  induction l as [|x l IH]; csimpl; [constructor|].
  apply NoDup_cons. split.
  - rewrite list_elem_of_filter. naive_solver.
  - by apply NoDup_filter.
Qed.

Lemma first_occurrences_elem_of (l : list Z) x : x ∈ first_occurrences l ↔ x ∈ l.
Proof.
  induction l as [|y l IH]; csimpl; [done|].
  rewrite !elem_of_cons, list_elem_of_filter, IH.
  destruct (decide (x = y)); naive_solver.
Qed.

Lemma dict_fold_values {B} (kf : B → Z) (vf : B → V) (l : list B) :
  OrderedDict.values (foldl (λ d b, OrderedDict.set (kf b) (vf b) d) [] l)
  = omap (λ k, vf <$> last (filter (λ b, kf b = k) l)) (first_occurrences (kf <$> l)).
Proof.
  assert (OrderedDict.keys (foldl (λ d b, OrderedDict.set (kf b) (vf b) d) [] l)
          = first_occurrences (kf <$> l)) as Hkeys.
  { rewrite dict_fold_keys. csimpl.
    induction (first_occurrences (kf <$> l)) as [|x xs IHxs]; [done|].
    rewrite filter_cons_True by apply not_elem_of_nil. by f_equal. }
  rewrite dict_values_keys by (rewrite Hkeys; apply first_occurrences_NoDup).
  rewrite Hkeys. apply list_omap_ext, Forall_Forall2_diag, Forall_forall.
  intros k _. rewrite dict_fold_get. csimpl.
  by destruct (last _).
Qed.

End ordered_dict_properties.

Section ordered_dict_first.
Context {V : Type}.
Implicit Types (d : list (Z * V)) (k : Z) (v : V).

(** Assigning only to absent keys: the first pair of each key stays. *)
Lemma dict_fold_first_keys {B} (kf : B → Z) (vf : B → V) (l : list B) d :
  OrderedDict.keys
    (foldl (λ d b, if negb (OrderedDict.mem (kf b) d)
                   then OrderedDict.set (kf b) (vf b) d else d) d l)
  = OrderedDict.keys d
    ++ filter (λ k, k ∉ OrderedDict.keys d) (first_occurrences (kf <$> l)).
Proof.
  revert d. induction l as [|b l IH]; intros d; csimpl.
  - by rewrite app_nil_r.
  - rewrite IH, dict_mem_keys, filter_cons, list_filter_filter.
    destruct (decide (kf b ∈ OrderedDict.keys d)) as [Hin|Hnin].
    + rewrite bool_decide_eq_true_2 by done. simpl.
      rewrite decide_False by naive_solver. f_equal.
      apply list_filter_iff. intros k. split; [|naive_solver].
      intros Hk. split; [done|]. by intros ->.
    + rewrite bool_decide_eq_false_2 by done. simpl.
      rewrite dict_keys_set, decide_False by done.
      rewrite decide_True by done. rewrite <- app_assoc. simpl. do 2 f_equal.
      apply list_filter_iff. intros k. rewrite elem_of_app, list_elem_of_singleton.
      naive_solver.
Qed.

Lemma dict_fold_first_get {B} (kf : B → Z) (vf : B → V) (l : list B) d k :
  OrderedDict.get k
    (foldl (λ d b, if negb (OrderedDict.mem (kf b) d)
                   then OrderedDict.set (kf b) (vf b) d else d) d l)
  = match OrderedDict.get k d with
    | Some v => Some v
    | None => vf <$> head (filter (λ b, kf b = k) l)
    end.
Proof.
  revert d. induction l as [|b l IH]; intros d; csimpl.
  - by destruct (OrderedDict.get k d).
  - rewrite IH, filter_cons. unfold OrderedDict.mem.
    destruct (decide (kf b = k)) as [<-|Hk].
    + destruct (OrderedDict.get (kf b) d) as [v|] eqn:Hget.
      * rewrite bool_decide_eq_true_2 by done. simpl. by rewrite Hget.
      * rewrite bool_decide_eq_false_2 by (by intros [? ?]). simpl.
        by rewrite dict_get_set, decide_True.
    + destruct (negb _); [|done].
      by rewrite dict_get_set, decide_False.
Qed.

Lemma foldl_ext {A B} (f g : A → B → A) (a : A) (l : list B) :
  (∀ a b, f a b = g a b) → foldl f a l = foldl g a l.
Proof.
  intros Hfg. revert a. induction l as [|b l IH]; intros a; simpl; [done|].
  by rewrite Hfg, IH.
Qed.

Lemma foldl_filter {A B} (Q : B → Prop) `{!∀ b, Decision (Q b)}
    (g : A → B → A) (a : A) (l : list B) :
  foldl (λ a b, if bool_decide (Q b) then g a b else a) a l = foldl g a (filter Q l).
Proof.
  revert a. induction l as [|b l IH]; intros a; [done|].
  simpl. destruct (decide (Q b)) as [HQ|HQ].
  - rewrite bool_decide_eq_true_2, filter_cons_True by done. apply IH.
  - rewrite bool_decide_eq_false_2, filter_cons_False by done. apply IH.
Qed.

End ordered_dict_first.

(** ** The order of binary64 numbers *)

Section float_order.

Local Ltac cmp_cases :=
  repeat match goal with
  | |- context [(?a ?= ?b)%Z] => destruct (Z.compare_spec a b)
  | |- context [Pos.compare_cont Eq ?a ?b] =>
      change (Pos.compare_cont Eq a b) with (Pos.compare a b);
      destruct (Pos.compare_spec a b)
  end; simpl; try congruence; try lia.

Lemma SFltb_SFleb_trans x y z :
  SFltb x y = true → SFleb y z = true → SFltb x z = true.
Proof.
  unfold SFltb, SFleb.
  destruct x as [sx|sx| |sx mx ex], y as [sy|sy| |sy my ey], z as [sz|sz| |sz mz ez];
    simpl; try (repeat match goal with b : bool |- _ => destruct b end; simpl; congruence).
  destruct sx, sy, sz; simpl; try congruence; cmp_cases.
Qed.

Lemma SFltb_asym x y : SFltb x y = true → SFleb y x = false.
Proof.
  unfold SFltb, SFleb.
  destruct x as [sx|sx| |sx mx ex], y as [sy|sy| |sy my ey];
    simpl; try (repeat match goal with b : bool |- _ => destruct b end; simpl; congruence).
  destruct sx, sy; simpl; try congruence; cmp_cases.
Qed.

Lemma float_ltb_leb_trans (x y z : float) :
  PrimFloat.ltb x y = true → PrimFloat.leb y z = true → PrimFloat.ltb x z = true.
Proof. rewrite !FloatAxioms.ltb_spec, FloatAxioms.leb_spec. apply SFltb_SFleb_trans. Qed.

Lemma float_ltb_asym (x y : float) :
  PrimFloat.ltb x y = true → PrimFloat.leb y x = false.
Proof. rewrite FloatAxioms.ltb_spec, FloatAxioms.leb_spec. apply SFltb_asym. Qed.

(** [c' <= c <= d] leaves no room for [d < c']. *)
Lemma float_not_ltb (c' c d : float) :
  PrimFloat.leb c' c = true → PrimFloat.leb c d = true → PrimFloat.ltb d c' = false.
Proof.
  intros Hc Hd. destruct (PrimFloat.ltb d c') eqn:Hlt; [|done].
  pose proof (float_ltb_leb_trans _ _ _ Hlt Hc) as Hlt'.
  apply float_ltb_asym in Hlt'. congruence.
Qed.

Lemma SFleb_trans x y z :
  SFleb x y = true → SFleb y z = true → SFleb x z = true.
Proof.
  unfold SFleb.
  destruct x as [sx|sx| |sx mx ex], y as [sy|sy| |sy my ey], z as [sz|sz| |sz mz ez];
    simpl; try (repeat match goal with b : bool |- _ => destruct b end; simpl; congruence).
  destruct sx, sy, sz; simpl; try congruence; cmp_cases.
Qed.

Lemma float_leb_trans (x y z : float) :
  PrimFloat.leb x y = true → PrimFloat.leb y z = true → PrimFloat.leb x z = true.
Proof. rewrite !FloatAxioms.leb_spec. apply SFleb_trans. Qed.

End float_order.

(** ** Rounding to binary64

    The operations of [SpecFloat] round to nearest, ties to even.  Rounding
    never crosses a binary64 number: a result that is exactly at most [g]
    rounds to at most [g].  This gives upper bounds of products, quotients,
    sums and differences from upper bounds of their operands. *)

Section binary64_rounding.
Local Open Scope Z_scope.

Lemma digits2_pos_bounds (p : positive) :
  2 ^ (Zpos (digits2_pos p) - 1) ≤ Zpos p < 2 ^ Zpos (digits2_pos p).
Proof.
  induction p as [p IH|p IH|]; simpl digits2_pos.
  - rewrite Pos2Z.inj_succ, Z.pow_succ_r by lia.
    replace (Z.succ (Zpos (digits2_pos p)) - 1) with (Z.succ (Zpos (digits2_pos p) - 1)) by lia.
    rewrite Z.pow_succ_r by lia. lia.
  - rewrite Pos2Z.inj_succ, Z.pow_succ_r by lia.
    replace (Z.succ (Zpos (digits2_pos p)) - 1) with (Z.succ (Zpos (digits2_pos p) - 1)) by lia.
    rewrite Z.pow_succ_r by lia. lia.
  - simpl. lia.
Qed.

Lemma Zdigits2_bounds (m : Z) :
  0 < m → 0 < Zdigits2 m ∧ 2 ^ (Zdigits2 m - 1) ≤ m < 2 ^ Zdigits2 m.
Proof.
  destruct m as [|p|p]; try lia. intros _. simpl.
  split; [lia|]. apply digits2_pos_bounds.
Qed.

Lemma Zdigits2_nonneg (m : Z) : 0 ≤ m → 0 ≤ Zdigits2 m.
Proof. destruct m; simpl; lia. Qed.

(** The number of digits is determined by the power-of-two bracket. *)
Lemma Zdigits2_unique (m d : Z) :
  0 < d → 2 ^ (d - 1) ≤ m < 2 ^ d → Zdigits2 m = d.
Proof.
  intros Hd Hm.
  assert (0 < m) as Hpos by (pose proof (Z.pow_pos_nonneg 2 (d - 1)); lia).
  destruct (Zdigits2_bounds m Hpos) as [Hd' Hm'].
  destruct (Z.lt_trichotomy (Zdigits2 m) d) as [Hlt|[Heq|Hgt]]; [|done|].
  - assert (2 ^ Zdigits2 m ≤ 2 ^ (d - 1)) by (apply Z.pow_le_mono_r; lia). lia.
  - assert (2 ^ d ≤ 2 ^ (Zdigits2 m - 1)) by (apply Z.pow_le_mono_r; lia). lia.
Qed.

Lemma shr_1_spec (mrs : shr_record) :
  0 ≤ shr_m mrs →
  shr_m (shr_1 mrs) = shr_m mrs / 2
  ∧ (inexact (shr_1 mrs) = true → inexact mrs = true ∨ shr_m (shr_1 mrs) * 2 < shr_m mrs).
Proof.
  destruct mrs as [m r s]. unfold inexact. simpl. intros Hm.
  destruct m as [|[p|p|]|p]; simpl; try lia.
  - split; [done|]. destruct r, s; simpl; auto.
  - split; [|right; lia].
    rewrite Pos2Z.inj_xI. apply (Z.div_unique _ _ _ 1); lia.
  - split.
    + rewrite Pos2Z.inj_xO. apply (Z.div_unique _ _ _ 0); lia.
    + destruct r, s; simpl; auto; discriminate.
  - split; [done|]. right; lia.
Qed.

Lemma iter_shr_1_spec (p : positive) (mrs : shr_record) :
  0 ≤ shr_m mrs →
  shr_m (SpecFloat.iter_pos shr_1 p mrs) = shr_m mrs / 2 ^ Zpos p
  ∧ (inexact (SpecFloat.iter_pos shr_1 p mrs) = true →
     inexact mrs = true ∨ shr_m (SpecFloat.iter_pos shr_1 p mrs) * 2 ^ Zpos p < shr_m mrs).
Proof.
  revert mrs. induction p as [p IH|p IH|]; intros mrs Hm; simpl SpecFloat.iter_pos.
  - destruct (shr_1_spec mrs Hm) as [H1 H1'].
    assert (0 ≤ shr_m (shr_1 mrs)) as Hm1 by (rewrite H1; apply Z.div_pos; lia).
    destruct (IH _ Hm1) as [H2 H2'].
    assert (0 ≤ shr_m (SpecFloat.iter_pos shr_1 p (shr_1 mrs))) as Hm2
      by (rewrite H2; apply Z.div_pos; [lia|apply Z.pow_pos_nonneg; lia]).
    destruct (IH _ Hm2) as [H3 H3'].
    assert (0 < 2 ^ Zpos p) as Hpow by (apply Z.pow_pos_nonneg; lia).
    assert (2 ^ Zpos p~1 = 2 * 2 ^ Zpos p * 2 ^ Zpos p) as Hexp.
    { rewrite Pos2Z.inj_xI.
      replace (2 * Zpos p + 1) with (1 + Zpos p + Zpos p) by lia.
      rewrite !Z.pow_add_r by lia. reflexivity. }
    split.
    + rewrite H3, H2, H1, Hexp, !Z.div_div by lia. f_equal. lia.
    + intros Hin. rewrite Hexp.
      pose proof (Z.mul_div_le (shr_m mrs) 2 ltac:(lia)).
      pose proof (Z.mul_div_le (shr_m (shr_1 mrs)) (2 ^ Zpos p) Hpow).
      pose proof (Z.mul_div_le (shr_m (SpecFloat.iter_pos shr_1 p (shr_1 mrs))) (2 ^ Zpos p) Hpow).
      rewrite <- H1 in *. rewrite <- H2 in *. rewrite <- H3 in *.
      destruct (H3' Hin) as [Hin2|Hlt]; [destruct (H2' Hin2) as [Hin1|Hlt];
        [destruct (H1' Hin1) as [Hin0|Hlt]; [by left|]|]|]; right; nia.
  - destruct (IH _ Hm) as [H2 H2'].
    assert (0 < 2 ^ Zpos p) as Hpow by (apply Z.pow_pos_nonneg; lia).
    assert (0 ≤ shr_m (SpecFloat.iter_pos shr_1 p mrs)) as Hm2
      by (rewrite H2; apply Z.div_pos; lia).
    destruct (IH _ Hm2) as [H3 H3'].
    assert (2 ^ Zpos p~0 = 2 ^ Zpos p * 2 ^ Zpos p) as Hexp.
    { rewrite (Pos2Z.inj_xO p). replace (2 * Zpos p) with (Zpos p + Zpos p) by lia.
      apply Z.pow_add_r; lia. }
    split.
    + rewrite H3, H2, Hexp, !Z.div_div by lia. done.
    + intros Hin. rewrite Hexp.
      pose proof (Z.mul_div_le (shr_m mrs) (2 ^ Zpos p) Hpow).
      pose proof (Z.mul_div_le (shr_m (SpecFloat.iter_pos shr_1 p mrs)) (2 ^ Zpos p) Hpow).
      rewrite <- H2 in *. rewrite <- H3 in *.
      destruct (H3' Hin) as [Hin2|Hlt]; [destruct (H2' Hin2) as [Hin1|Hlt];
        [by left|]|]; right; nia.
  - destruct (shr_1_spec mrs Hm) as [H1 H1'].
    change (2 ^ 1) with 2. split; [done|]. done.
Qed.

Lemma shr_spec (mrs : shr_record) (e n : Z) :
  0 ≤ shr_m mrs →
  (shr mrs e n).2 = e + Z.max n 0
  ∧ shr_m (shr mrs e n).1 = shr_m mrs / 2 ^ Z.max n 0
  ∧ (inexact (shr mrs e n).1 = true →
     inexact mrs = true ∨ shr_m (shr mrs e n).1 * 2 ^ Z.max n 0 < shr_m mrs).
Proof.
  intros Hm. destruct n as [|p|p]; simpl.
  - rewrite Z.div_1_r. split_and!; [lia|done|auto].
  - destruct (iter_shr_1_spec p mrs Hm) as [H1 H2].
    replace (Z.max (Zpos p) 0) with (Zpos p) by lia. done.
  - rewrite Z.div_1_r. split_and!; [lia|done|auto].
Qed.

Lemma fexp64_eq (x : Z) : fexp prec emax x = Z.max (x - 53) (-1074).
Proof. reflexivity. Qed.

Lemma inexact_record_of_loc (m : Z) (l : location) :
  shr_m (shr_record_of_loc m l) = m
  ∧ (inexact (shr_record_of_loc m l) = true → l ≠ loc_Exact).
Proof. destruct l as [|[]]; simpl; split; done. Qed.

Lemma pow2_split (a b : Z) : 0 ≤ a → 0 ≤ b → 2 ^ (a + b) = 2 ^ a * 2 ^ b.
Proof. intros. apply Z.pow_add_r; lia. Qed.

(** The first stage of [binary_round_aux]: truncation to the target exponent. *)
Lemma round_stage1 (m e : Z) (l : location) :
  0 ≤ m →
  e ≤ fexp prec emax (Zdigits2 m + e) →
  let mrs1 := (shr_fexp prec emax m e l).1 in
  let e1 := (shr_fexp prec emax m e l).2 in
  e1 = fexp prec emax (Zdigits2 m + e)
  ∧ 0 ≤ shr_m mrs1
  ∧ shr_m mrs1 * 2 ^ (e1 - e) ≤ m
  ∧ (inexact mrs1 = true → l ≠ loc_Exact ∨ shr_m mrs1 * 2 ^ (e1 - e) < m)
  ∧ shr_m mrs1 < 2 ^ 53
  ∧ (-1074 < e1 → 2 ^ 52 ≤ shr_m mrs1)
  ∧ -1074 ≤ e1.
Proof.
  intros Hm Hpre mrs1 e1. subst mrs1 e1. unfold shr_fexp.
  rewrite fexp64_eq in *.
  set (d := Zdigits2 m) in *.
  set (n := Z.max (d + e - 53) (-1074) - e) in *.
  destruct (inexact_record_of_loc m l) as [Hrm Hrl].
  destruct (shr_spec (shr_record_of_loc m l) e n ltac:(lia)) as (He & Hm1 & Hin).
  rewrite Hrm in *. replace (Z.max n 0) with n in * by lia.
  assert (0 ≤ n) as Hn by lia.
  assert (0 < 2 ^ n) as Hpow by (apply Z.pow_pos_nonneg; lia).
  rewrite He. replace (e + n - e) with n by lia.
  pose proof (Z.mul_div_le m (2 ^ n) Hpow) as Hfloor. rewrite <- Hm1 in Hfloor.
  assert (0 ≤ shr_m (shr (shr_record_of_loc m l) e n).1) as Hm1pos
    by (rewrite Hm1; apply Z.div_pos; lia).
  split_and!; try lia.
  - intros Hi. destruct (Hin Hi) as [?|?]; [left; auto|right; lia].
  - rewrite Hm1. destruct (Z.eq_dec m 0) as [->|Hm0].
    { rewrite Z.div_0_l by lia. done. }
    destruct (Zdigits2_bounds m ltac:(lia)) as [Hd Hdm]. fold d in Hd, Hdm.
    apply Z.div_lt_upper_bound; [lia|].
    destruct (Z.le_gt_cases n d) as [Hnd|Hnd].
    + assert (2 ^ d = 2 ^ n * 2 ^ (d - n)) as Hsplit
        by (rewrite <- pow2_split by lia; f_equal; lia).
      assert (2 ^ (d - n) ≤ 2 ^ 53) by (apply Z.pow_le_mono_r; lia).
      nia.
    + assert (2 ^ d ≤ 2 ^ n) by (apply Z.pow_le_mono_r; lia).
      assert (0 < 2 ^ 53) by done. nia.
  - intros He1. rewrite Hm1.
    destruct (Z.eq_dec m 0) as [->|Hm0].
    { subst d. simpl in *. lia. }
    destruct (Zdigits2_bounds m ltac:(lia)) as [Hd Hdm]. fold d in Hd, Hdm.
    assert (n = d - 53) as Hnd by lia.
    apply Z.div_le_lower_bound; [lia|].
    assert (2 ^ (d - 1) = 2 ^ n * 2 ^ 52) as Hsplit
      by (rewrite <- pow2_split by lia; f_equal; lia).
    lia.
Qed.

Lemma round_stage2 (m1 : Z) (mrs1 : shr_record) :
  let m2 := round_nearest_even m1 (loc_of_shr_record mrs1) in
  m2 = m1 ∨ (m2 = m1 + 1 ∧ inexact mrs1 = true).
Proof.
  destruct mrs1 as [m [] []]; unfold inexact; simpl; auto.
  destruct (Z.even m1); auto.
Qed.

(** The last stage: the carry of the rounding is renormalised. *)
Lemma round_stage3 (m2 e1 : Z) :
  0 ≤ m2 ≤ 2 ^ 53 →
  -1074 ≤ e1 →
  (-1074 < e1 → 2 ^ 52 ≤ m2) →
  let mrs3 := (shr_fexp prec emax m2 e1 loc_Exact).1 in
  let e3 := (shr_fexp prec emax m2 e1 loc_Exact).2 in
  (m2 = 0 ∧ shr_m mrs3 = 0)
  ∨ (0 < shr_m mrs3 < 2 ^ 53
     ∧ shr_m mrs3 * 2 ^ (e3 - e1) = m2
     ∧ e1 ≤ e3
     ∧ -1074 ≤ e3
     ∧ (-1074 < e3 → 2 ^ 52 ≤ shr_m mrs3)).
Proof.
  intros Hm2 He1 Hnorm mrs3 e3. subst mrs3 e3. unfold shr_fexp.
  rewrite fexp64_eq.
  destruct (shr_spec (shr_record_of_loc m2 loc_Exact) e1
              (Z.max (Zdigits2 m2 + e1 - 53) (-1074) - e1) ltac:(simpl; lia))
    as (He & Hm3 & _).
  simpl shr_m in Hm3 at 2. rewrite He, Hm3. clear He Hm3.
  destruct (Z.eq_dec m2 0) as [->|Hm0].
  { left. simpl. rewrite Z.div_0_l; [done|].
    apply Z.pow_nonzero; lia. }
  right.
  destruct (Zdigits2_bounds m2 ltac:(lia)) as [Hd Hdm].
  set (d := Zdigits2 m2) in *.
  destruct (Z.eq_dec m2 (2 ^ 53)) as [Hcarry|Hnc].
  - assert (d = 54) as Hd54.
    { subst d. apply Zdigits2_unique; [lia|]. rewrite Hcarry.
      replace (54 - 1) with 53 by lia. split; [lia|].
      apply Z.pow_lt_mono_r; lia. }
    rewrite Hd54.
    replace (Z.max (Z.max (54 + e1 - 53) (-1074) - e1) 0) with 1 by lia.
    rewrite Hcarry. change (2 ^ 53 / 2 ^ 1) with (2 ^ 52).
    replace (e1 + 1 - e1) with 1 by lia.
    split_and!; try lia; try done.
  - assert (d ≤ 53) as Hd53.
    { destruct (Z.le_gt_cases d 53) as [?|Hgt]; [done|].
      assert (2 ^ 53 ≤ 2 ^ (d - 1)) by (apply Z.pow_le_mono_r; lia). lia. }
    replace (Z.max (Z.max (d + e1 - 53) (-1074) - e1) 0) with 0 by lia.
    rewrite Z.div_1_r. replace (e1 + 0 - e1) with 0 by lia.
    change (2 ^ 0) with 1.
    split_and!; try lia.
Qed.

Lemma scaled_shift (m e n : Z) :
  -5000 ≤ e → 0 ≤ n → scaled m (e + n) = scaled (m * 2 ^ n) e.
Proof.
  intros He Hn. unfold scaled.
  replace (e + n + 5000) with (e + 5000 + n) by lia.
  rewrite pow2_split by lia. lia.
Qed.

Lemma scaled_le (a b e : Z) : -5000 ≤ e → scaled a e ≤ scaled b e ↔ a ≤ b.
Proof.
  intros He. unfold scaled.
  assert (0 < 2 ^ (e + 5000)) by (apply Z.pow_pos_nonneg; lia). nia.
Qed.

Lemma scaled_lt (a b e : Z) : -5000 ≤ e → scaled a e < scaled b e ↔ a < b.
Proof.
  intros He. unfold scaled.
  assert (0 < 2 ^ (e + 5000)) by (apply Z.pow_pos_nonneg; lia). nia.
Qed.

Lemma canonical_positioned (m : positive) (e : Z) :
  canonical_mantissa prec emax m e = true → positioned (Zpos m) e.
Proof.
  unfold canonical_mantissa. rewrite fexp64_eq. intros Hc%Z.eqb_eq.
  pose proof (digits2_pos_bounds m) as [Hlo Hhi].
  set (d := Zpos (digits2_pos m)) in *.
  assert (0 < d) by (subst d; lia).
  unfold positioned. split_and!; try lia.
  - assert (2 ^ d ≤ 2 ^ 53) by (apply Z.pow_le_mono_r; lia). lia.
  - intros He. assert (d = 53) as Hd by lia.
    rewrite Hd in Hlo. done.
Qed.

(** Between a positioned number and its successor on its own grid lies no
    canonical number. *)
Lemma grid_successor (m1 e1 : Z) (mg : positive) (eg : Z) :
  positioned m1 e1 →
  positioned (Zpos mg) eg →
  scaled m1 e1 < scaled (Zpos mg) eg →
  scaled (m1 + 1) e1 ≤ scaled (Zpos mg) eg.
Proof.
  intros (Hm1 & He1 & Hn1) (Hmg & Heg & Hng) Hlt.
  destruct (Z.le_gt_cases e1 eg) as [Hle|Hgt].
  - replace eg with (e1 + (eg - e1)) in * by lia.
    rewrite scaled_shift in * by lia.
    apply scaled_lt in Hlt; [|lia]. apply scaled_le; lia.
  - exfalso.
    replace e1 with (eg + (e1 - eg)) in Hlt by lia.
    rewrite scaled_shift in Hlt by lia.
    apply scaled_lt in Hlt; [|lia].
    assert (2 ≤ 2 ^ (e1 - eg)).
    { change 2 with (2 ^ 1) at 1. apply Z.pow_le_mono_r; lia. }
    specialize (Hn1 ltac:(lia)).
    change (2 ^ 53) with (2 ^ 52 * 2) in Hmg. nia.
Qed.

(** On positioned numbers the order of the values is the lexicographic
    order of exponent and mantissa, the order [SFcompare] computes. *)
Lemma positioned_le_lex (a ea b eb : Z) :
  positioned a ea → positioned b eb → 0 < a →
  scaled a ea ≤ scaled b eb →
  ea < eb ∨ (ea = eb ∧ a ≤ b).
Proof.
  intros (Ha & Hea & Hna) (Hb & Heb & Hnb) Hapos Hle.
  destruct (Z.lt_trichotomy ea eb) as [?|[->|Hgt]]; [by left| |].
  - right. split; [done|]. apply scaled_le in Hle; [done|lia].
  - exfalso.
    replace ea with (eb + (ea - eb)) in Hle by lia.
    rewrite scaled_shift in Hle by lia.
    apply scaled_le in Hle; [|lia].
    assert (2 ≤ 2 ^ (ea - eb)).
    { change 2 with (2 ^ 1) at 1. apply Z.pow_le_mono_r; lia. }
    specialize (Hna ltac:(lia)).
    change (2 ^ 53) with (2 ^ 52 * 2) in Hb. nia.
Qed.

Lemma positioned_lex_le (a ea b eb : Z) :
  positioned a ea → positioned b eb →
  ea < eb ∨ (ea = eb ∧ a ≤ b) →
  scaled a ea ≤ scaled b eb.
Proof.
  intros (Ha & Hea & Hna) (Hb & Heb & Hnb) [Hlt|[-> Hle]].
  - replace eb with (ea + (eb - ea)) by lia.
    rewrite scaled_shift by lia. apply scaled_le; [lia|].
    assert (2 ≤ 2 ^ (eb - ea)).
    { change 2 with (2 ^ 1) at 1. apply Z.pow_le_mono_r; lia. }
    specialize (Hnb ltac:(lia)).
    change (2 ^ 53) with (2 ^ 52 * 2) in Ha. nia.
  - apply scaled_le; lia.
Qed.

(** ** Rounding does not cross a binary64 number

    [binary_round_aux] applied to a value that is at most the canonical
    number [g] returns a number that is at most [g]. *)
Lemma binary_round_aux_upper (m e : Z) (l : location) (mg : positive) (eg : Z) :
  0 ≤ m →
  -5000 ≤ e →
  e ≤ fexp prec emax (Zdigits2 m + e) →
  bounded prec emax mg eg = true →
  scaled m e ≤ scaled (Zpos mg) eg →
  (l ≠ loc_Exact → scaled m e < scaled (Zpos mg) eg) →
  SFleb (binary_round_aux prec emax false m e l) (S754_finite false mg eg) = true.
Proof.
  intros Hm He Hpre Hg Hle Hlt.
  apply andb_prop in Hg as [Hcan Hemax]. apply Z.leb_le in Hemax.
  pose proof (canonical_positioned _ _ Hcan) as Hpg.
  unfold binary_round_aux.
  destruct (round_stage1 m e l Hm Hpre) as (He1 & Hm1 & Hfloor & Hin1 & Hub1 & Hn1 & Hlo1).
  destruct (shr_fexp prec emax m e l) as [mrs1 e1]. simpl in He1, Hm1, Hfloor, Hin1, Hub1, Hn1, Hlo1.
  set (m1 := shr_m mrs1) in *.
  assert (e ≤ e1) as Hee1 by lia.
  assert (scaled m1 e1 ≤ scaled m e) as Hv1.
  { replace e1 with (e + (e1 - e)) at 1 by lia.
    rewrite scaled_shift by lia. apply scaled_le; lia. }
  assert (inexact mrs1 = true → scaled m1 e1 < scaled (Zpos mg) eg) as Hv1'.
  { intros Hi. destruct (Hin1 Hi) as [Hl|Hstrict].
    - specialize (Hlt Hl). lia.
    - assert (scaled m1 e1 < scaled m e); [|lia].
      replace e1 with (e + (e1 - e)) at 1 by lia.
      rewrite scaled_shift by lia. apply scaled_lt; lia. }
  pose proof (round_stage2 m1 mrs1) as Hm2.
  set (m2 := round_nearest_even m1 (loc_of_shr_record mrs1)) in *.
  assert (scaled m2 e1 ≤ scaled (Zpos mg) eg ∧ m1 ≤ m2 ≤ m1 + 1) as [Hv2 Hm12].
  { destruct Hm2 as [->|[-> Hi]]; [split; lia|]. split; [|lia].
    apply grid_successor; [done|done|by apply Hv1']. }
  destruct (round_stage3 m2 e1 ltac:(lia) Hlo1 ltac:(intros; specialize (Hn1 ltac:(done)); lia))
    as [[Hz Hz3]|(Hm3 & Hval3 & He3 & Hlo3 & Hn3)].
  - destruct (shr_fexp prec emax m2 e1 loc_Exact) as [mrs3 e3]. simpl in Hz3.
    rewrite Hz3. reflexivity.
  - destruct (shr_fexp prec emax m2 e1 loc_Exact) as [mrs3 e3].
    simpl in Hm3, Hval3, He3, Hlo3, Hn3.
    destruct (shr_m mrs3) as [|m3|m3] eqn:Hm3eq; try lia.
    assert (scaled (Zpos m3) e3 ≤ scaled (Zpos mg) eg) as Hv3.
    { replace e3 with (e1 + (e3 - e1)) by lia.
      rewrite scaled_shift by lia. by rewrite Hval3. }
    assert (positioned (Zpos m3) e3) as Hp3 by (unfold positioned; split_and!; [lia..|done]).
    destruct (positioned_le_lex (Zpos m3) e3 (Zpos mg) eg) as [Hlex|[-> Hlex]];
      [done|done|lia|done| |].
    + change (emax - prec) with 971 in *.
      rewrite (proj2 (Z.leb_le e3 971)) by lia.
      unfold SFleb, SFcompare. by rewrite (proj2 (Z.compare_lt_iff e3 eg)).
    + rewrite (proj2 (Z.leb_le eg (emax - prec))) by done.
      unfold SFleb, SFcompare. rewrite Z.compare_refl.
      change (Pos.compare_cont Eq m3 mg) with (Pos.compare m3 mg).
      destruct (Pos.compare_spec m3 mg); try done. lia.
Qed.

Lemma binary_round_aux_sign (s : bool) (m e : Z) (l : location) :
  0 ≤ m → has_sign s (binary_round_aux prec emax s m e l).
Proof.
  intros Hm. unfold binary_round_aux, shr_fexp.
  destruct (inexact_record_of_loc m l) as [Hrm _].
  destruct (shr_spec (shr_record_of_loc m l) e
              (fexp prec emax (Zdigits2 m + e) - e) ltac:(lia)) as (_ & Hm1 & _).
  destruct (shr (shr_record_of_loc m l) e _) as [mrs1 e1]. simpl in Hm1.
  rewrite Hrm in Hm1.
  assert (0 ≤ shr_m mrs1) as Hm1pos.
  { rewrite Hm1. apply Z.div_pos; [lia|]. apply Z.pow_pos_nonneg; lia. }
  pose proof (round_stage2 (shr_m mrs1) mrs1) as Hm2.
  set (m2 := round_nearest_even (shr_m mrs1) (loc_of_shr_record mrs1)) in *.
  assert (0 ≤ m2) as Hm2pos by (destruct Hm2 as [->|[-> _]]; lia).
  destruct (shr_spec (shr_record_of_loc m2 loc_Exact) e1
              (fexp prec emax (Zdigits2 m2 + e1) - e1) ltac:(simpl; lia)) as (_ & Hm3 & _).
  destruct (shr (shr_record_of_loc m2 loc_Exact) e1 _) as [mrs3 e3]. simpl in Hm3.
  assert (0 ≤ shr_m mrs3) as Hm3pos.
  { rewrite Hm3. apply Z.div_pos; [lia|]. apply Z.pow_pos_nonneg; lia. }
  destruct (shr_m mrs3); try lia; simpl; [done|].
  by destruct (_ <=? _).
Qed.

(** ** Non-negative numbers below a bound *)

Lemma pow2_cross (a b c d : Z) :
  0 ≤ a → 0 ≤ b → 0 ≤ c → 0 ≤ d → a + b = c + d → 2 ^ a * 2 ^ b = 2 ^ c * 2 ^ d.
Proof. intros. rewrite <- !pow2_split by lia. f_equal. lia. Qed.

Lemma pow2_pos (a : Z) : 0 ≤ a → 0 < 2 ^ a.
Proof. intros. apply Z.pow_pos_nonneg; lia. Qed.

Lemma bounded_positioned (m : positive) (e : Z) :
  bounded prec emax m e = true → positioned (Zpos m) e ∧ e ≤ 971.
Proof.
  intros [Hc He]%andb_prop. split; [by apply canonical_positioned|].
  apply Z.leb_le in He. exact He.
Qed.

Lemma SFleb_finite_lex (mx : positive) (ex : Z) (mg : positive) (eg : Z) :
  SFleb (S754_finite false mx ex) (S754_finite false mg eg) = true ↔
  ex < eg ∨ (ex = eg ∧ Zpos mx ≤ Zpos mg).
Proof.
  unfold SFleb, SFcompare.
  change (Pos.compare_cont Eq mx mg) with (Pos.compare mx mg).
  destruct (Z.compare_spec ex eg); [destruct (Pos.compare_spec mx mg)|..];
    split; intros; try done; try lia.
Qed.

Lemma SFltb_finite_lex (mx : positive) (ex : Z) (mg : positive) (eg : Z) :
  SFltb (S754_finite false mx ex) (S754_finite false mg eg) = true ↔
  ex < eg ∨ (ex = eg ∧ Zpos mx < Zpos mg).
Proof.
  unfold SFltb, SFcompare.
  change (Pos.compare_cont Eq mx mg) with (Pos.compare mx mg).
  destruct (Z.compare_spec ex eg); [destruct (Pos.compare_spec mx mg)|..];
    split; intros; try done; try lia.
Qed.

(** A valid number between zero and a finite bound is a zero or a positive
    finite number whose value is at most that of the bound. *)
Lemma between_cases (x : spec_float) (mg : positive) (eg : Z) :
  valid_binary x = true →
  bounded prec emax mg eg = true →
  SFleb (S754_zero false) x = true →
  SFleb x (S754_finite false mg eg) = true →
  (∃ s, x = S754_zero s)
  ∨ (∃ mx ex, x = S754_finite false mx ex
              ∧ bounded prec emax mx ex = true
              ∧ scaled (Zpos mx) ex ≤ scaled (Zpos mg) eg).
Proof.
  intros Hv Hg H0 Hle. destruct x as [s|s| |s mx ex]; simpl in *.
  - left. by exists s.
  - destruct s; done.
  - done.
  - destruct s; [done|]. right. exists mx, ex. split_and!; [done..|].
    apply SFleb_finite_lex in Hle.
    destruct (bounded_positioned _ _ Hv), (bounded_positioned _ _ Hg).
    by apply positioned_lex_le.
Qed.

Lemma SFleb_zero_finite (s : bool) (mg : positive) (eg : Z) :
  SFleb (S754_zero s) (S754_finite false mg eg) = true.
Proof. reflexivity. Qed.

Lemma has_sign_nonneg (x : spec_float) :
  has_sign false x → SFleb (S754_zero false) x = true.
Proof. destruct x as [s|s| |s m e]; simpl; try done; by intros ->. Qed.

Lemma Zdigits2_lower (m k : Z) : 0 ≤ k → 2 ^ k ≤ m → k < Zdigits2 m.
Proof.
  intros Hk Hm.
  assert (0 < m) as Hpos by (pose proof (pow2_pos k Hk); lia).
  destruct (Zdigits2_bounds m Hpos) as [Hd Hdm].
  destruct (Z.lt_ge_cases k (Zdigits2 m)) as [?|Hge]; [done|].
  assert (2 ^ Zdigits2 m ≤ 2 ^ k) by (apply Z.pow_le_mono_r; lia). lia.
Qed.

Lemma positioned_digits (m : positive) (e : Z) :
  positioned (Zpos m) e → e = -1074 ∨ 2 ^ 52 ≤ Zpos m.
Proof. intros (_ & He & Hn). destruct (Z.eq_dec e (-1074)); [by left|right; apply Hn; lia]. Qed.

(** *** Multiplication *)

Lemma SFmul_finite_pre (mx : positive) (ex : Z) (mc : positive) (ec : Z) :
  positioned (Zpos mx) ex → positioned (Zpos mc) ec →
  ex + ec ≤ fexp prec emax (Zdigits2 (Zpos (mx * mc)) + (ex + ec)).
Proof.
  intros Hx Hc. rewrite fexp64_eq.
  pose proof Hx as (_ & Hex & _). pose proof Hc as (_ & Hec & _).
  destruct (positioned_digits _ _ Hx) as [->|Hnx];
    destruct (positioned_digits _ _ Hc) as [->|Hnc]; try lia.
  - assert (52 < Zdigits2 (Zpos (mx * mc))); [|lia].
    apply Zdigits2_lower; [lia|]. rewrite Pos2Z.inj_mul. nia.
  - assert (52 < Zdigits2 (Zpos (mx * mc))); [|lia].
    apply Zdigits2_lower; [lia|]. rewrite Pos2Z.inj_mul. nia.
  - assert (104 < Zdigits2 (Zpos (mx * mc))); [|lia].
    apply Zdigits2_lower; [lia|]. rewrite Pos2Z.inj_mul.
    change (2 ^ 104) with (2 ^ 52 * 2 ^ 52). nia.
Qed.

Lemma scaled_mul_mono (mx ex mg eg mc ec : Z) :
  -1074 ≤ ex → -1074 ≤ eg → -2000 ≤ ec → 0 ≤ mc →
  scaled mx ex ≤ scaled mg eg →
  scaled (mx * mc) (ex + ec) ≤ scaled (mg * mc) (eg + ec).
Proof.
  unfold scaled. intros Hex Heg Hec Hmc Hle.
  pose proof (pow2_cross (ex + 5000) (eg + ec + 5000) (ex + ec + 5000) (eg + 5000)
                ltac:(lia) ltac:(lia) ltac:(lia) ltac:(lia) ltac:(lia)) as Hcross.
  pose proof (pow2_pos (ex + 5000) ltac:(lia)).
  pose proof (pow2_pos (eg + 5000) ltac:(lia)).
  pose proof (pow2_pos (ex + ec + 5000) ltac:(lia)).
  pose proof (pow2_pos (eg + ec + 5000) ltac:(lia)).
  set (P := 2 ^ (ex + 5000)) in *. set (Q := 2 ^ (eg + 5000)) in *.
  set (P' := 2 ^ (ex + ec + 5000)) in *. set (Q' := 2 ^ (eg + ec + 5000)) in *.
  assert (mx * P' ≤ mg * Q'); [|nia].
  assert (mx * P' * Q ≤ mg * Q' * Q); [|nia].
  assert (mx * P' * Q = mx * P * Q') as ->
    by (rewrite <- !Z.mul_assoc; f_equal; lia).
  assert (mx * P * Q' ≤ mg * Q * Q') by (apply Z.mul_le_mono_nonneg_r; lia).
  lia.
Qed.

(** The product of a number in [[0, g]] with a positive constant [c] is in
    [[0, g']] as soon as [g * c <= g']. *)
Lemma SFmul_upper (x : spec_float) (mc : positive) (ec : Z)
    (mg : positive) (eg : Z) (mg' : positive) (eg' : Z) :
  valid_binary x = true →
  bounded prec emax mc ec = true →
  bounded prec emax mg eg = true →
  bounded prec emax mg' eg' = true →
  SFleb (S754_zero false) x = true →
  SFleb x (S754_finite false mg eg) = true →
  scaled (Zpos mg * Zpos mc) (eg + ec) ≤ scaled (Zpos mg') eg' →
  SFleb (S754_zero false) (SFmul prec emax x (S754_finite false mc ec)) = true
  ∧ SFleb (SFmul prec emax x (S754_finite false mc ec)) (S754_finite false mg' eg') = true.
Proof.
  intros Hv Hc Hg Hg' H0 Hle Hcheck.
  destruct (between_cases x mg eg Hv Hg H0 Hle) as [[s ->]|(mx & ex & -> & Hx & Hval)].
  - simpl. by destruct s.
  - simpl.
    destruct (bounded_positioned _ _ Hx) as [Hpx _].
    destruct (bounded_positioned _ _ Hc) as [Hpc _].
    destruct (bounded_positioned _ _ Hg) as [Hpg _].
    pose proof Hpx as (_ & Hex & _). pose proof Hpc as (_ & Hec & _).
    pose proof Hpg as (_ & Heg & _).
    split.
    + apply has_sign_nonneg, binary_round_aux_sign. lia.
    + apply binary_round_aux_upper; [lia|lia|by apply SFmul_finite_pre|done| |done].
      rewrite Pos2Z.inj_mul.
      etrans; [|exact Hcheck]. apply scaled_mul_mono; lia.
Qed.

(** *** Division *)

Lemma new_location_exact (nb_steps k : Z) :
  new_location nb_steps k ≠ loc_Exact → k ≠ 0.
Proof.
  intros Hl ->. apply Hl. unfold new_location, new_location_even, new_location_odd.
  by destruct (Z.even nb_steps).
Qed.

Lemma SFdiv_core_spec (mx : positive) (ex : Z) (mc : positive) (ec : Z) :
  positioned (Zpos mx) ex → positioned (Zpos mc) ec → ex ≤ 971 → ec ≤ 971 →
  let q := (SFdiv_core_binary prec emax (Zpos mx) ex (Zpos mc) ec).1.1 in
  let e' := (SFdiv_core_binary prec emax (Zpos mx) ex (Zpos mc) ec).1.2 in
  let l := (SFdiv_core_binary prec emax (Zpos mx) ex (Zpos mc) ec).2 in
  ∃ s r,
    0 ≤ s ∧ e' + s = ex - ec
    ∧ Zpos mx * 2 ^ s = q * Zpos mc + r
    ∧ 0 ≤ r
    ∧ (l ≠ loc_Exact → 0 < r)
    ∧ 0 ≤ q
    ∧ e' ≤ fexp prec emax (Zdigits2 q + e')
    ∧ -5000 ≤ e'.
Proof.
  intros Hx Hc Hexmax Hecmax q e' l. subst q e' l. unfold SFdiv_core_binary.
  rewrite fexp64_eq.
  set (d1 := Zdigits2 (Zpos mx)). set (d2 := Zdigits2 (Zpos mc)).
  set (e' := Z.min (Z.max (d1 + ex - (d2 + ec) - 53) (-1074)) (ex - ec)).
  set (s := ex - ec - e').
  assert (0 ≤ s) as Hs by lia.
  set (m' := match s with Z0 => Zpos mx | Zpos _ => Z.shiftl (Zpos mx) s | Zneg _ => 0 end).
  assert (m' = Zpos mx * 2 ^ s) as Hm'.
  { subst m'. destruct s as [|p|p] eqn:Hseq; [simpl; lia| |lia].
    by rewrite Z.shiftl_mul_pow2 by lia. }
  pose proof (Z_div_mod m' (Zpos mc) ltac:(lia)) as Hdiv.
  destruct (Z.div_eucl m' (Zpos mc)) as [q r]. simpl.
  destruct Hdiv as [Hqr Hr].
  pose proof Hx as (_ & Hex & _). pose proof Hc as (_ & Hec & _).
  destruct (Zdigits2_bounds (Zpos mx) ltac:(lia)) as [Hd1 Hd1m]. fold d1 in Hd1, Hd1m.
  destruct (Zdigits2_bounds (Zpos mc) ltac:(lia)) as [Hd2 Hd2m]. fold d2 in Hd2, Hd2m.
  assert (0 < 2 ^ s) as Hps by (apply pow2_pos; lia).
  assert (0 ≤ q) as Hq by nia.
  exists s, r. split_and!; try lia.
  - intros Hl%new_location_exact. lia.
  - rewrite fexp64_eq.
    destruct (Z.le_gt_cases e' (-1074)) as [?|Hgt]; [lia|].
    assert (e' ≤ d1 + ex - (d2 + ec) - 53) as He' by lia.
    set (k := d1 - 1 + s - d2).
    assert (52 ≤ k) as Hk by lia.
    assert (2 ^ k ≤ q) as Hqk.
    { assert (2 ^ k * Zpos mc ≤ m').
      { rewrite Hm'.
        assert (2 ^ (d1 - 1) * 2 ^ s = 2 ^ k * 2 ^ d2) as Hsplit
          by (apply pow2_cross; lia).
        assert (0 < 2 ^ k) by (apply pow2_pos; lia).
        nia. }
      assert (0 < 2 ^ k) by (apply pow2_pos; lia).
      nia. }
    pose proof (Zdigits2_lower q k ltac:(lia) Hqk). lia.
Qed.

Lemma SFdiv_upper (x : spec_float) (mc : positive) (ec : Z)
    (mg : positive) (eg : Z) (mg' : positive) (eg' : Z) :
  valid_binary x = true →
  bounded prec emax mc ec = true →
  bounded prec emax mg eg = true →
  bounded prec emax mg' eg' = true →
  SFleb (S754_zero false) x = true →
  SFleb x (S754_finite false mg eg) = true →
  scaled (Zpos mg) eg ≤ scaled (Zpos mg' * Zpos mc) (eg' + ec) →
  SFleb (S754_zero false) (SFdiv prec emax x (S754_finite false mc ec)) = true
  ∧ SFleb (SFdiv prec emax x (S754_finite false mc ec)) (S754_finite false mg' eg') = true.
Proof.
  intros Hv Hc Hg Hg' H0 Hle Hcheck.
  destruct (between_cases x mg eg Hv Hg H0 Hle) as [[s ->]|(mx & ex & -> & Hx & Hval)].
  - simpl. by destruct s.
  - simpl.
    destruct (bounded_positioned _ _ Hx) as [Hpx Hexmax].
    destruct (bounded_positioned _ _ Hc) as [Hpc Hecmax].
    destruct (bounded_positioned _ _ Hg) as [Hpg _].
    destruct (bounded_positioned _ _ Hg') as [Hpg' _].
    pose proof Hpx as (_ & Hex & _). pose proof Hpc as (_ & Hec & _).
    pose proof Hpg as (_ & Heg & _). pose proof Hpg' as (_ & Heg' & _).
    destruct (SFdiv_core_spec mx ex mc ec Hpx Hpc Hexmax Hecmax)
      as (s & r & Hs & Hes & Hqr & Hr & Hl & Hq & Hpre & Hlo).
    destruct (SFdiv_core_binary prec emax (Zpos mx) ex (Zpos mc) ec) as [[q e'] l].
    simpl in Hes, Hqr, Hl, Hq, Hpre, Hlo.
    split.
    + by apply has_sign_nonneg, binary_round_aux_sign.
    + assert (scaled (Zpos mx) ex ≤ scaled (Zpos mg' * Zpos mc) (eg' + ec)) as Hchain by lia.
      unfold scaled in Hchain |- *.
      pose proof (pow2_cross (ex - ec + 5000) (eg' + ec + 5000) (ex + 5000) (eg' + 5000)
                    ltac:(lia) ltac:(lia) ltac:(lia) ltac:(lia) ltac:(lia)) as Hcross.
      pose proof (pow2_cross (e' + 5000) s (ex - ec + 5000) 0
                    ltac:(lia) ltac:(lia) ltac:(lia) ltac:(lia) ltac:(lia)) as Hes'.
      change (2 ^ 0) with 1 in Hes'. rewrite Z.mul_1_r in Hes'.
      pose proof (pow2_pos (ex - ec + 5000) ltac:(lia)).
      pose proof (pow2_pos (eg' + ec + 5000) ltac:(lia)).
      pose proof (pow2_pos (ex + 5000) ltac:(lia)).
      pose proof (pow2_pos (eg' + 5000) ltac:(lia)).
      pose proof (pow2_pos (e' + 5000) ltac:(lia)).
      pose proof (pow2_pos s ltac:(lia)).
      set (A := 2 ^ (ex - ec + 5000)) in *. set (B := 2 ^ (ex + 5000)) in *.
      set (C := 2 ^ (eg' + ec + 5000)) in *. set (D := 2 ^ (eg' + 5000)) in *.
      set (E := 2 ^ (e' + 5000)) in *. set (S := 2 ^ s) in *.
      assert (q * Zpos mc * E + r * E = Zpos mx * A) as Hexact.
      { rewrite <- Hes'. nia. }
      assert (Zpos mx * A * C = Zpos mx * B * D) as Hbridge.
      { rewrite <- !Z.mul_assoc. f_equal. lia. }
      assert (Zpos mx * B * D ≤ Zpos mg' * Zpos mc * C * D) as Hup
        by (apply Z.mul_le_mono_nonneg_r; lia).
      assert (q * E * (Zpos mc * C) + r * E * C ≤ Zpos mg' * D * (Zpos mc * C)) as Hfinal.
      { replace (q * E * (Zpos mc * C) + r * E * C)
          with ((q * Zpos mc * E + r * E) * C) by ring.
        rewrite Hexact, Hbridge. lia. }
      assert (0 < Zpos mc * C) as Hpos by nia.
      assert (0 ≤ r * E * C) as Hrpos by nia.
      apply binary_round_aux_upper; [done|done|done|done| |].
      * unfold scaled. fold E D. nia.
      * intros Hne. specialize (Hl Hne). unfold scaled. fold E D.
        assert (0 < r * E * C) by nia. nia.
Qed.

(** *** Addition and subtraction *)

Lemma scaled_pos (m e : Z) : 0 < m → -5000 ≤ e → 0 < scaled m e.
Proof. intros. unfold scaled. pose proof (pow2_pos (e + 5000) ltac:(lia)). nia. Qed.

Lemma sval_nonneg (x : spec_float) : finite_nonneg x → 0 ≤ sval x.
Proof.
  destruct x as [s|s| |[] m e]; simpl; try done.
  intros [(_ & He & _) _]%bounded_positioned.
  pose proof (scaled_pos (Zpos m) e ltac:(lia) ltac:(lia)). lia.
Qed.

Lemma between_sval (x : spec_float) (mg : positive) (eg : Z) :
  valid_binary x = true →
  bounded prec emax mg eg = true →
  SFleb (S754_zero false) x = true →
  SFleb x (S754_finite false mg eg) = true →
  finite_nonneg x ∧ sval x ≤ scaled (Zpos mg) eg.
Proof.
  intros Hv Hg H0 Hle.
  destruct (between_cases x mg eg Hv Hg H0 Hle) as [[s ->]|(mx & ex & -> & Hx & Hval)].
  - split; [done|]. simpl.
    destruct (bounded_positioned _ _ Hg) as [(_ & He & _) _].
    pose proof (scaled_pos (Zpos mg) eg ltac:(lia) ltac:(lia)). lia.
  - done.
Qed.

Lemma sval_le_SFleb (x : spec_float) (mg : positive) (eg : Z) :
  finite_nonneg x →
  bounded prec emax mg eg = true →
  sval x ≤ scaled (Zpos mg) eg →
  SFleb (S754_zero false) x = true ∧ SFleb x (S754_finite false mg eg) = true.
Proof.
  destruct x as [s|s| |[] m e]; simpl; try done.
  intros Hx Hg Hle. split; [done|].
  destruct (bounded_positioned _ _ Hx) as [Hpx _].
  destruct (bounded_positioned _ _ Hg) as [Hpg _].
  apply SFleb_finite_lex. apply positioned_le_lex; [done|done|lia|done].
Qed.

Lemma SFleb_sval (y x : spec_float) :
  finite_nonneg x → finite_nonneg y → SFleb y x = true → sval y ≤ sval x.
Proof.
  intros Hx Hy Hle. pose proof (sval_nonneg x Hx).
  destruct y as [sy|sy| |[] my ey]; simpl in *; try done.
  destruct x as [sx|sx| |[] mx ex]; simpl in *; try done.
  destruct (bounded_positioned _ _ Hx) as [Hpx _].
  destruct (bounded_positioned _ _ Hy) as [Hpy _].
  apply positioned_lex_le; [done|done|]. by apply SFleb_finite_lex.
Qed.

Lemma pos_iter_xO (m d : positive) : Zpos (Pos.iter xO m d) = Zpos m * 2 ^ Zpos d.
Proof.
  induction d as [|d IH] using Pos.peano_ind.
  - simpl. lia.
  - rewrite Pos.iter_succ, Pos2Z.inj_xO, IH, Pos2Z.inj_succ, Z.pow_succ_r by lia. lia.
Qed.

Lemma shl_align_spec (mx : positive) (ex ez : Z) :
  (shl_align mx ex ez).2 = Z.min ex ez
  ∧ Zpos (shl_align mx ex ez).1 = Zpos mx * 2 ^ (ex - Z.min ex ez).
Proof.
  unfold shl_align. destruct (ez - ex) as [|d|d] eqn:Hd; simpl.
  - replace (Z.min ex ez) with ex by lia. rewrite Z.sub_diag. simpl. lia.
  - replace (Z.min ex ez) with ex by lia. rewrite Z.sub_diag. simpl. lia.
  - replace (Z.min ex ez) with ez by lia. rewrite pos_iter_xO.
    split; [done|]. do 2 f_equal. lia.
Qed.

Lemma Zdigits2_shift (m k : Z) : 0 < m → 0 ≤ k → Zdigits2 (m * 2 ^ k) = Zdigits2 m + k.
Proof.
  intros Hm Hk. destruct (Zdigits2_bounds m Hm) as [Hd Hdm].
  apply Zdigits2_unique; [lia|].
  replace (Zdigits2 m + k - 1) with (Zdigits2 m - 1 + k) by lia.
  rewrite !pow2_split by lia.
  pose proof (pow2_pos k Hk). nia.
Qed.

Lemma binary_round_upper (mx : positive) (ex : Z) (mg : positive) (eg : Z) :
  -5000 ≤ ex →
  bounded prec emax mg eg = true →
  scaled (Zpos mx) ex ≤ scaled (Zpos mg) eg →
  SFleb (S754_zero false) (binary_round prec emax false mx ex) = true
  ∧ SFleb (binary_round prec emax false mx ex) (S754_finite false mg eg) = true.
Proof.
  intros Hex Hg Hle. unfold binary_round.
  destruct (shl_align_spec mx ex (fexp prec emax (Zpos (digits2_pos mx) + ex))) as [He Hm].
  destruct (shl_align mx ex _) as [mz ez]. simpl in He, Hm.
  rewrite fexp64_eq in *.
  set (dx := Zpos (digits2_pos mx)) in *.
  assert (-5000 ≤ ez ∧ ez ≤ ex) as [Hez Hezx] by lia.
  split.
  - apply has_sign_nonneg, binary_round_aux_sign. lia.
  - apply binary_round_aux_upper; [lia|done| |done| |done].
    + rewrite Hm, Zdigits2_shift by lia. rewrite fexp64_eq.
      change (Zdigits2 (Zpos mx)) with dx. lia.
    + rewrite Hm. rewrite <- scaled_shift by lia.
      replace (ez + (ex - Z.min ex (Z.max (dx + ex - 53) (-1074)))) with ex by lia. done.
Qed.

Lemma binary_normalize_upper (m e : Z) (mg : positive) (eg : Z) :
  0 ≤ m → -5000 ≤ e →
  bounded prec emax mg eg = true →
  scaled m e ≤ scaled (Zpos mg) eg →
  SFleb (S754_zero false) (binary_normalize prec emax m e false) = true
  ∧ SFleb (binary_normalize prec emax m e false) (S754_finite false mg eg) = true.
Proof.
  intros Hm He Hg Hle. destruct m as [|p|p]; simpl; [done| |lia].
  by apply binary_round_upper.
Qed.

Lemma aligned_scaled (mx : positive) (ex ey : Z) :
  -5000 ≤ ex → -5000 ≤ ey →
  scaled (Zpos (shl_align mx ex (Z.min ex ey)).1) (Z.min ex ey) = scaled (Zpos mx) ex.
Proof.
  intros Hex Hey. destruct (shl_align_spec mx ex (Z.min ex ey)) as [_ ->].
  replace (Z.min ex (Z.min ex ey)) with (Z.min ex ey) by lia.
  rewrite <- scaled_shift by lia. f_equal. lia.
Qed.

Lemma scaled_add (a b e : Z) : scaled (a + b) e = scaled a e + scaled b e.
Proof. unfold scaled. lia. Qed.

Lemma scaled_sub (a b e : Z) : scaled (a - b) e = scaled a e - scaled b e.
Proof. unfold scaled. lia. Qed.

Lemma finite_nonneg_exponent (m : positive) (e : Z) :
  bounded prec emax m e = true → -5000 ≤ e.
Proof. intros [(_ & He & _) _]%bounded_positioned. lia. Qed.

Lemma SFadd_upper (x y : spec_float) (mg : positive) (eg : Z) :
  finite_nonneg x → finite_nonneg y →
  bounded prec emax mg eg = true →
  sval x + sval y ≤ scaled (Zpos mg) eg →
  SFleb (S754_zero false) (SFadd prec emax x y) = true
  ∧ SFleb (SFadd prec emax x y) (S754_finite false mg eg) = true.
Proof.
  intros Hx Hy Hg Hle.
  pose proof (sval_nonneg x Hx). pose proof (sval_nonneg y Hy).
  destruct x as [sx|sx| |[] mx ex]; try done;
    destruct y as [sy|sy| |[] my ey]; try done.
  - simpl. by destruct sx, sy.
  - apply (sval_le_SFleb (S754_finite false my ey)); [done|done|simpl in *; lia].
  - apply (sval_le_SFleb (S754_finite false mx ex)); [done|done|simpl in *; lia].
  - simpl in Hx, Hy, Hle. unfold SFadd, cond_Zopp. cbv zeta.
    pose proof (finite_nonneg_exponent _ _ Hx). pose proof (finite_nonneg_exponent _ _ Hy).
    apply binary_normalize_upper; [lia|lia|done|].
    rewrite scaled_add, aligned_scaled by lia.
    rewrite (Z.min_comm ex ey), aligned_scaled by lia. done.
Qed.

Lemma SFsub_upper (x y : spec_float) (mg : positive) (eg : Z) :
  finite_nonneg x → finite_nonneg y →
  bounded prec emax mg eg = true →
  sval y ≤ sval x →
  sval x - sval y ≤ scaled (Zpos mg) eg →
  SFleb (S754_zero false) (SFsub prec emax x y) = true
  ∧ SFleb (SFsub prec emax x y) (S754_finite false mg eg) = true.
Proof.
  intros Hx Hy Hg Hyx Hle.
  pose proof (sval_nonneg x Hx). pose proof (sval_nonneg y Hy).
  destruct x as [sx|sx| |[] mx ex]; try done;
    destruct y as [sy|sy| |[] my ey]; try done.
  - simpl. by destruct sx, sy.
  - simpl in Hy, Hyx. pose proof (finite_nonneg_exponent _ _ Hy).
    pose proof (scaled_pos (Zpos my) ey ltac:(lia) ltac:(lia)). lia.
  - apply (sval_le_SFleb (S754_finite false mx ex)); [done|done|simpl in *; lia].
  - simpl in Hx, Hy, Hyx, Hle. unfold SFsub, cond_Zopp. cbv zeta.
    pose proof (finite_nonneg_exponent _ _ Hx). pose proof (finite_nonneg_exponent _ _ Hy).
    assert (scaled (Zpos (shl_align mx ex (Z.min ex ey)).1
                    - Zpos (shl_align my ey (Z.min ex ey)).1) (Z.min ex ey)
            = scaled (Zpos mx) ex - scaled (Zpos my) ey) as Hval.
    { rewrite scaled_sub, aligned_scaled by lia.
      rewrite (Z.min_comm ex ey), aligned_scaled by lia. done. }
    apply binary_normalize_upper; [|lia|done|lia].
    assert (0 ≤ scaled (Zpos (shl_align mx ex (Z.min ex ey)).1
                        - Zpos (shl_align my ey (Z.min ex ey)).1) (Z.min ex ey)) as Hnn by lia.
    unfold scaled in Hnn.
    pose proof (pow2_pos (Z.min ex ey + 5000) ltac:(lia)). nia.
Qed.

(** *** Signs, without a bound *)

Lemma sf_nonneg_cases (x : spec_float) :
  sf_nonneg x ↔
  match x with
  | S754_zero _ => True
  | S754_finite s _ _ | S754_infinity s => s = false
  | S754_nan => False
  end.
Proof. unfold sf_nonneg. destruct x as [s|[]| |[] m e]; simpl; split; done. Qed.

Lemma binary_round_sign (mx : positive) (ex : Z) :
  has_sign false (binary_round prec emax false mx ex).
Proof.
  unfold binary_round. destruct (shl_align mx ex _) as [mz ez].
  apply binary_round_aux_sign. lia.
Qed.

Lemma SFadd_nonneg (x y : spec_float) :
  sf_nonneg x → sf_nonneg y → sf_nonneg (SFadd prec emax x y).
Proof.
  rewrite !sf_nonneg_cases.
  destruct x as [sx|sx| |sx mx ex], y as [sy|sy| |sy my ey]; simpl; try done;
    try (intros -> ->; done); try (by destruct sx, sy).
  intros -> ->. simpl.
  apply sf_nonneg_cases, has_sign_nonneg, binary_round_sign.
Qed.

Lemma SFmul_nonneg_finite (x : spec_float) (mc : positive) (ec : Z) :
  sf_nonneg x → sf_nonneg (SFmul prec emax x (S754_finite false mc ec)).
Proof.
  rewrite !sf_nonneg_cases.
  destruct x as [sx|sx| |sx mx ex]; simpl; try done; try (intros ->; done).
  intros ->. simpl. apply sf_nonneg_cases, has_sign_nonneg, binary_round_aux_sign. lia.
Qed.

(** A product or quotient of non-negative numbers is non-negative or a NaN. *)
Lemma SFmul_nonneg_or_nan (x y : spec_float) :
  sf_nonneg x → sf_nonneg y →
  SFmul prec emax x y = S754_nan ∨ sf_nonneg (SFmul prec emax x y).
Proof.
  rewrite !sf_nonneg_cases.
  destruct x as [sx|sx| |sx mx ex], y as [sy|sy| |sy my ey]; simpl; try done;
    try (intros; subst; by right); try (by left); try (intros; right; by destruct sx, sy).
  intros -> ->. right. simpl.
  apply sf_nonneg_cases, has_sign_nonneg, binary_round_aux_sign. lia.
Qed.

Lemma SFdiv_core_nonneg (mx : positive) (ex : Z) (my : positive) (ey : Z) :
  0 ≤ (SFdiv_core_binary prec emax (Zpos mx) ex (Zpos my) ey).1.1.
Proof.
  unfold SFdiv_core_binary.
  set (s := ex - ey - _).
  set (m' := match s with Z0 => Zpos mx | Zpos _ => Z.shiftl (Zpos mx) s | Zneg _ => 0 end).
  assert (0 ≤ m') as Hm'.
  { subst m'. destruct s; [lia| |lia]. apply Z.shiftl_nonneg. lia. }
  pose proof (Z_div_mod m' (Zpos my) ltac:(lia)) as Hdiv.
  destruct (Z.div_eucl m' (Zpos my)) as [q r]. simpl.
  destruct Hdiv as [Hqr Hr]. nia.
Qed.

Lemma SFdiv_nonneg_or_nan (x y : spec_float) :
  sf_nonneg x →
  match y with
  | S754_nan => True
  | S754_finite s _ _ | S754_infinity s => s = false
  | S754_zero _ => False
  end →
  SFdiv prec emax x y = S754_nan ∨ sf_nonneg (SFdiv prec emax x y).
Proof.
  rewrite !sf_nonneg_cases.
  destruct x as [sx|sx| |sx mx ex], y as [sy|sy| |sy my ey]; simpl; try done;
    try (intros; subst; by right); try (by left).
  intros -> ->. right. simpl.
  pose proof (SFdiv_core_nonneg mx ex my ey) as Hq.
  destruct (SFdiv_core_binary prec emax (Zpos mx) ex (Zpos my) ey) as [[q e'] l].
  apply sf_nonneg_cases, has_sign_nonneg, binary_round_aux_sign. exact Hq.
Qed.

(** The order is total away from NaN. *)
Lemma SFltb_false_SFleb (x y : spec_float) :
  x ≠ S754_nan → y ≠ S754_nan → SFltb x y = false → SFleb y x = true.
Proof.
  unfold SFltb, SFleb. intros Hx Hy.
  destruct x as [sx|sx| |sx mx ex], y as [sy|sy| |sy my ey]; simpl; try done;
    try (by repeat match goal with b : bool |- _ => destruct b end).
  destruct sx, sy; simpl; try done.
  - rewrite (Z.compare_antisym ey ex).
    change (Pos.compare_cont Eq mx my) with (Pos.compare mx my).
    change (Pos.compare_cont Eq my mx) with (Pos.compare my mx).
    rewrite (Pos.compare_antisym mx my).
    destruct (ey ?= ex); simpl; try done. by destruct (mx ?= my)%positive.
  - rewrite (Z.compare_antisym ey ex).
    change (Pos.compare_cont Eq mx my) with (Pos.compare mx my).
    change (Pos.compare_cont Eq my mx) with (Pos.compare my mx).
    rewrite (Pos.compare_antisym mx my).
    destruct (ey ?= ex); simpl; try done. by destruct (mx ?= my)%positive.
Qed.

Lemma SFltb_nan_l (y : spec_float) : SFltb S754_nan y = false.
Proof. reflexivity. Qed.

(** Strictly below a number means at most its predecessor in the mantissa. *)
Lemma SFltb_pred (x : spec_float) (mh : positive) (eh : Z) :
  1 < Zpos mh →
  SFltb x (S754_finite false mh eh) = true →
  SFleb x (S754_finite false (Pos.pred mh) eh) = true.
Proof.
  intros Hmh. destruct x as [sx|sx| |sx mx ex]; try done.
  - by destruct sx.
  - destruct sx; [done|]. intros Hlt%SFltb_finite_lex. apply SFleb_finite_lex.
    rewrite Pos2Z.inj_pred by lia. lia.
Qed.

Lemma SFeqb_infinity (x : spec_float) (mg : positive) (eg : Z) :
  SFleb x (S754_finite false mg eg) = true → SFeqb x (S754_infinity false) = false.
Proof. destruct x as [sx|[]| |sx mx ex]; simpl; try done; by destruct sx. Qed.

End binary64_rounding.

(** ** Intervals of primitive floats *)

Section binary64_intervals.

Lemma sf_pos_inv (c : float) :
  sf_pos (Prim2SF c) = true →
  ∃ m e, Prim2SF c = S754_finite false m e ∧ bounded prec emax m e = true.
Proof.
  pose proof (Prim2SF_valid c) as Hv.
  destruct (Prim2SF c) as [s|s| |[] m e]; try done. intros _. by exists m, e.
Qed.

Lemma sf_fin_inv (c : float) :
  sf_fin (Prim2SF c) = true → finite_nonneg (Prim2SF c).
Proof.
  pose proof (Prim2SF_valid c) as Hv.
  by destruct (Prim2SF c) as [s|s| |[] m e].
Qed.

Lemma prim_zero : Prim2SF 0 = S754_zero false.
Proof. reflexivity. Qed.

Lemma within_SF (x G : float) :
  within x G ↔
  SFleb (S754_zero false) (Prim2SF x) = true ∧ SFleb (Prim2SF x) (Prim2SF G) = true.
Proof. unfold within. by rewrite !FloatAxioms.leb_spec, prim_zero. Qed.

Lemma float_mul_within (x c G G' : float) :
  mul_fits G c G' = true → within x G → within (x * c) G'.
Proof.
  unfold mul_fits. cbv zeta. rewrite !andb_true_iff, Z.leb_le.
  intros [[[(mg & eg & Hg & Hbg)%sf_pos_inv (mc & ec & Hc & Hbc)%sf_pos_inv]
            (mg' & eg' & Hg' & Hbg')%sf_pos_inv] Hfit].
  rewrite !within_SF, FloatAxioms.mul_spec, Hg, Hc, Hg' in *.
  intros [H0 Hle]. simpl in Hfit.
  by apply (SFmul_upper _ mc ec mg eg mg' eg'); [apply Prim2SF_valid|..].
Qed.

Lemma float_div_within (x c G G' : float) :
  div_fits G c G' = true → within x G → within (x / c) G'.
Proof.
  unfold div_fits. cbv zeta. rewrite !andb_true_iff, Z.leb_le.
  intros [[[(mg & eg & Hg & Hbg)%sf_pos_inv (mc & ec & Hc & Hbc)%sf_pos_inv]
            (mg' & eg' & Hg' & Hbg')%sf_pos_inv] Hfit].
  rewrite !within_SF, FloatAxioms.div_spec, Hg, Hc, Hg' in *.
  intros [H0 Hle]. simpl in Hfit.
  by apply (SFdiv_upper _ mc ec mg eg mg' eg'); [apply Prim2SF_valid|..].
Qed.

Lemma float_add_within (m q G G' : float) :
  add_fits m G G' = true → within q G → within (m + q) G'.
Proof.
  unfold add_fits. cbv zeta. rewrite !andb_true_iff, Z.leb_le.
  intros [[[Hm%sf_fin_inv (mg & eg & Hg & Hbg)%sf_pos_inv]
            (mg' & eg' & Hg' & Hbg')%sf_pos_inv] Hfit].
  rewrite !within_SF, FloatAxioms.add_spec, Hg, Hg' in *.
  intros [H0 Hle]. simpl in Hfit.
  destruct (between_sval (Prim2SF q) mg eg) as [Hq Hqle];
    [apply Prim2SF_valid|done..|].
  apply SFadd_upper; [done..|lia].
Qed.

(** A number between two non-negative finite ones is one itself. *)
Lemma between_finite_nonneg (x low : spec_float) (mp : positive) (ep : Z) :
  valid_binary x = true →
  finite_nonneg low →
  SFleb low x = true →
  SFleb x (S754_finite false mp ep) = true →
  finite_nonneg x.
Proof.
  intros Hv Hlow H1 H2.
  destruct x as [s|[]| |[] m e], low as [sl|sl| |[] ml el]; simpl in *; done.
Qed.

Lemma float_sub_within (d low P G' : float) :
  sub_fits low P G' = true →
  PrimFloat.leb low d = true → PrimFloat.leb d P = true →
  within (d - low) G'.
Proof.
  unfold sub_fits. cbv zeta. rewrite !andb_true_iff, Z.leb_le.
  intros [[[Hlow%sf_fin_inv (mp & ep & Hp & Hbp)%sf_pos_inv]
            (mg' & eg' & Hg' & Hbg')%sf_pos_inv] Hfit].
  rewrite within_SF, !FloatAxioms.leb_spec, FloatAxioms.sub_spec, Hp, Hg' in *.
  intros H1 H2. simpl in Hfit.
  assert (finite_nonneg (Prim2SF d)) as Hd
    by (eapply between_finite_nonneg; [apply Prim2SF_valid|done..]).
  pose proof (SFleb_sval _ _ Hd Hlow H1) as Hld.
  pose proof (SFleb_sval (Prim2SF d) (S754_finite false mp ep) Hbp Hd H2) as Hdp.
  simpl in Hdp. apply SFsub_upper; [done..|lia].
Qed.

(** The reversal [c - y] of a number of [[0, c]] stays in [[0, c]]. *)
Lemma float_rsub_within (c y : float) :
  sf_pos (Prim2SF c) = true → within y c → within (c - y) c.
Proof.
  intros (mc & ec & Hc & Hbc)%sf_pos_inv.
  rewrite !within_SF, FloatAxioms.sub_spec, Hc. intros [H0 Hle].
  destruct (between_sval (Prim2SF y) mc ec) as [Hy Hyle];
    [apply Prim2SF_valid|done..|].
  pose proof (sval_nonneg _ Hy).
  apply SFsub_upper; [done..|simpl; lia].
Qed.

Lemma float_ltb_pred (d high P : float) :
  pred_of high P = true → PrimFloat.ltb d high = true → PrimFloat.leb d P = true.
Proof.
  unfold pred_of. cbv zeta. rewrite !andb_true_iff, Z.ltb_lt, !Z.eqb_eq.
  intros [[[[(mh & eh & Hh & _)%sf_pos_inv (mp & ep & Hp & _)%sf_pos_inv] H1] Hm] He].
  rewrite FloatAxioms.ltb_spec, FloatAxioms.leb_spec, Hh, Hp in *. simpl in *.
  intros Hlt%SFltb_pred; [|done].
  replace mp with (Pos.pred mh) by lia. by subst ep.
Qed.

Lemma within_not_infinity (x G : float) :
  sf_pos (Prim2SF G) = true → within x G → PrimFloat.eqb x infinity = false.
Proof.
  intros (mg & eg & Hg & _)%sf_pos_inv. rewrite within_SF, Hg. intros [_ Hle].
  rewrite FloatAxioms.eqb_spec. by apply SFeqb_infinity in Hle.
Qed.

(** One band of the table: from [low <= d < high] to a raw value in [[0, 1]],
    through bounds [Ga], [Gb], [Gq] of the three intermediate results. *)
Lemma band_within (low high m D P Ga Gb Gq d : float) :
  pred_of high P = true →
  sub_fits low P Ga = true →
  mul_fits Ga 0.2 Gb = true →
  div_fits Gb D Gq = true →
  add_fits m Gq 1 = true →
  PrimFloat.leb low d = true → PrimFloat.ltb d high = true →
  within (m + (d - low) * 0.2 / D) 1.
Proof.
  intros HP Ha Hb Hq Hr Hlow Hhigh.
  apply (float_add_within _ _ Gq); [done|].
  apply (float_div_within _ _ Gb); [done|].
  apply (float_mul_within _ _ Ga); [done|].
  apply (float_sub_within _ _ P); [done..|].
  by apply (float_ltb_pred _ high).
Qed.

End binary64_intervals.

(** ** The index *)

Section index_properties.
Context {SegmentId : Type} `{Countable SegmentId}.
Implicit Types (gv : GlobalView SegmentId) (fcd : FCDRecord.t SegmentId).
Implicit Types (s segment_id : SegmentId).

(** ** Reading the [defaultdict] *)

Lemma getitem_fst segment_id gv :
  (fcd_by_segment_getitem segment_id gv).1 = observations gv segment_id.
Proof.
  unfold fcd_by_segment_getitem, observations.
  by destruct (fcd_by_segment gv !! segment_id).
Qed.

Lemma getitem_snd_map segment_id gv :
  fcd_by_segment (fcd_by_segment_getitem segment_id gv).2
  = match fcd_by_segment gv !! segment_id with
    | Some _ => fcd_by_segment gv
    | None => <[segment_id := []]> (fcd_by_segment gv)
    end.
Proof.
  unfold fcd_by_segment_getitem. by destruct (fcd_by_segment gv !! segment_id).
Qed.

Lemma getitem_snd_lookup segment_id gv :
  fcd_by_segment (fcd_by_segment_getitem segment_id gv).2 !! segment_id
  = Some (observations gv segment_id).
Proof.
  rewrite getitem_snd_map. unfold observations.
  destruct (fcd_by_segment gv !! segment_id) eqn:E; simpl; [done|].
  by rewrite lookup_insert_eq.
Qed.

Lemma getitem_snd_observations segment_id gv s :
  observations (fcd_by_segment_getitem segment_id gv).2 s = observations gv s.
Proof.
  unfold observations. rewrite getitem_snd_map.
  destruct (fcd_by_segment gv !! segment_id) eqn:E; [done|].
  destruct (decide (segment_id = s)) as [->|Hne].
  - by rewrite lookup_insert_eq, E.
  - by rewrite lookup_insert_ne.
Qed.

Lemma getitem_snd_car segment_id gv :
  car_to_segment (fcd_by_segment_getitem segment_id gv).2 = car_to_segment gv.
Proof.
  unfold fcd_by_segment_getitem. by destruct (fcd_by_segment gv !! segment_id).
Qed.

Lemma getitem_snd_modified segment_id gv :
  modified_segments (fcd_by_segment_getitem segment_id gv).2 = modified_segments gv.
Proof.
  unfold fcd_by_segment_getitem. by destruct (fcd_by_segment gv !! segment_id).
Qed.

Lemma getitem_eta segment_id gv :
  fcd_by_segment_getitem segment_id gv
  = (observations gv segment_id, (fcd_by_segment_getitem segment_id gv).2).
Proof. rewrite <- getitem_fst. by destruct (fcd_by_segment_getitem _ _). Qed.

(** ** Ingestion *)

Lemma add_observations fcd gv s :
  observations (add fcd gv) s
  = if decide (s = Segment.id (FCDRecord.segment fcd))
    then observations gv s ++ [fcd] else observations gv s.
Proof.
  unfold add. rewrite getitem_eta.
  set (gv1 := (fcd_by_segment_getitem _ gv).2).
  assert (∀ gv2 : GlobalView SegmentId,
    fcd_by_segment gv2
    = <[Segment.id (FCDRecord.segment fcd) :=
          observations gv (Segment.id (FCDRecord.segment fcd)) ++ [fcd]]> (fcd_by_segment gv1) →
    observations gv2 s
    = if decide (s = Segment.id (FCDRecord.segment fcd))
      then observations gv s ++ [fcd] else observations gv s) as Hobs.
  { intros gv2 Hgv2. unfold observations at 1. rewrite Hgv2.
    destruct (decide (s = _)) as [->|Hne].
    - by rewrite lookup_insert_eq.
    - rewrite lookup_insert_ne by done.
      apply (getitem_snd_observations _ gv s). }
  cbn zeta. simpl.
  destruct (car_to_segment gv1 !! FCDRecord.vehicle_id fcd) as [old|];
    [destruct (decide (old ≠ _))|]; by apply Hobs.
Qed.

Lemma add_car_to_segment fcd gv :
  car_to_segment (add fcd gv)
  = <[FCDRecord.vehicle_id fcd := Segment.id (FCDRecord.segment fcd)]> (car_to_segment gv).
Proof.
  unfold add. rewrite getitem_eta. cbn zeta. simpl.
  rewrite getitem_snd_car.
  destruct (car_to_segment gv !! FCDRecord.vehicle_id fcd) as [old|] eqn:E; simpl.
  - destruct (decide (old ≠ _)) as [Hne|Heq]; simpl; rewrite ?getitem_snd_car; [done|].
    apply dec_stable in Heq. subst old. by rewrite insert_id.
  - by rewrite ?getitem_snd_car.
Qed.

Lemma add_modified_segments fcd gv :
  modified_segments (add fcd gv)
  = modified_segments gv ∪ {[Segment.id (FCDRecord.segment fcd)]}
    ∪ match car_to_segment gv !! FCDRecord.vehicle_id fcd with
      | Some old_segment => {[old_segment]}
      | None => ∅
      end.
Proof.
  unfold add. rewrite getitem_eta. cbn zeta. simpl.
  rewrite getitem_snd_car.
  destruct (car_to_segment gv !! FCDRecord.vehicle_id fcd) as [old|] eqn:E; simpl.
  - destruct (decide (old ≠ _)) as [Hne|Heq]; simpl; rewrite getitem_snd_modified.
    + done.
    + apply dec_stable in Heq. subst old. set_solver.
  - rewrite getitem_snd_modified. set_solver.
Qed.

(** C3.  [add] appends the record to the observation sequence of its
    segment and to no other; it marks that segment modified; when the
    vehicle was recorded on a different segment, that previous segment is
    marked modified too and the vehicle is moved to the new segment; when
    the vehicle was not recorded, it is recorded; when it was recorded on
    the same segment, nothing else changes. *)
Theorem add_contract fcd gv :
  let segment_id := Segment.id (FCDRecord.segment fcd) in
  let vehicle_id := FCDRecord.vehicle_id fcd in
  observations (add fcd gv) segment_id = observations gv segment_id ++ [fcd]
  ∧ (∀ s, s ≠ segment_id → observations (add fcd gv) s = observations gv s)
  ∧ segment_id ∈ modified_segments (add fcd gv)
  ∧ (∀ old_segment,
       car_to_segment gv !! vehicle_id = Some old_segment →
       old_segment ≠ segment_id →
       modified_segments (add fcd gv) = modified_segments gv ∪ {[segment_id; old_segment]}
       ∧ car_to_segment (add fcd gv) = <[vehicle_id := segment_id]> (car_to_segment gv))
  ∧ (car_to_segment gv !! vehicle_id = None →
       modified_segments (add fcd gv) = modified_segments gv ∪ {[segment_id]}
       ∧ car_to_segment (add fcd gv) = <[vehicle_id := segment_id]> (car_to_segment gv))
  ∧ (car_to_segment gv !! vehicle_id = Some segment_id →
       modified_segments (add fcd gv) = modified_segments gv ∪ {[segment_id]}
       ∧ car_to_segment (add fcd gv) = car_to_segment gv)
  ∧ car_to_segment (add fcd gv) !! vehicle_id = Some segment_id
  ∧ (∀ v, v ≠ vehicle_id → car_to_segment (add fcd gv) !! v = car_to_segment gv !! v).
Proof.
  intros segment_id vehicle_id. subst segment_id vehicle_id.
  split_and!.
  - rewrite add_observations. by rewrite decide_True.
  - intros s Hne. rewrite add_observations. by rewrite decide_False.
  - rewrite add_modified_segments. set_solver.
  - intros old_segment Hold Hne. split.
    + rewrite add_modified_segments, Hold. set_solver.
    + apply add_car_to_segment.
  - intros Hnone. split.
    + rewrite add_modified_segments, Hnone. set_solver.
    + apply add_car_to_segment.
  - intros Hsame. split.
    + rewrite add_modified_segments, Hsame. set_solver.
    + rewrite add_car_to_segment. by apply insert_id.
  - rewrite add_car_to_segment. apply lookup_insert_eq.
  - intros v Hne. rewrite add_car_to_segment. by rewrite lookup_insert_ne.
Qed.

(** ** Aggregation *)

Lemma latest_speeds_nil_inv (fcds : list (FCDRecord.t SegmentId)) :
  latest_speeds fcds = [] → fcds = [].
Proof.
  destruct fcds as [|fcd fcds]; [done|].
  unfold latest_speeds, last_speed_of. csimpl.
  rewrite filter_cons_True by done. rewrite last_cons.
  by destruct (last _).
Qed.

Lemma latest_speeds_length (fcds : list (FCDRecord.t SegmentId)) :
  length (latest_speeds fcds)
  = length (first_occurrences (FCDRecord.vehicle_id <$> fcds)).
Proof.
  unfold latest_speeds.
  assert (Forall (λ v, v ∈ FCDRecord.vehicle_id <$> fcds)
                 (first_occurrences (FCDRecord.vehicle_id <$> fcds))) as Hall.
  { apply Forall_forall. intros v. by rewrite first_occurrences_elem_of. }
  induction Hall as [|v vs Hv _ IH]; csimpl; [done|].
  apply list_elem_of_fmap in Hv as (fcd & -> & Hfcd).
  unfold last_speed_of at 1.
  destruct (last (filter _ fcds)) as [fcd'|] eqn:Hlast; csimpl.
  - by rewrite IH.
  - apply last_None in Hlast.
    assert (fcd ∈ filter (λ fcd0 : FCDRecord.t SegmentId,
              FCDRecord.vehicle_id fcd0 = FCDRecord.vehicle_id fcd) fcds) as Hin
      by by apply list_elem_of_filter.
    rewrite Hlast in Hin. by apply elem_of_nil in Hin.
Qed.

Lemma get_segment_speed_snd segment_id gv :
  (get_segment_speed segment_id gv).2 = (fcd_by_segment_getitem segment_id gv).2.
Proof.
  unfold get_segment_speed. rewrite getitem_eta. cbn zeta.
  by case_decide.
Qed.

Lemma get_segment_speed_fst segment_id gv :
  (get_segment_speed segment_id gv).1
  = match observations gv segment_id with
    | [] => None
    | _ :: _ =>
        Some (mean (latest_speeds (list_sort FCDRecord.datetime (observations gv segment_id))))
    end.
Proof.
  unfold get_segment_speed. rewrite getitem_eta. cbn zeta.
  rewrite (dict_fold_values FCDRecord.vehicle_id FCDRecord.speed).
  fold (latest_speeds (list_sort FCDRecord.datetime (observations gv segment_id))).
  destruct (observations gv segment_id) as [|fcd fcds] eqn:Hobs.
  - done.
  - case_decide as Hlen; [|done].
    apply nil_length_inv, latest_speeds_nil_inv, list_sort_nil_inv in Hlen. done.
Qed.

Lemma get_segment_speed_fst_ext segment_id gv gv' :
  observations gv' segment_id = observations gv segment_id →
  (get_segment_speed segment_id gv').1 = (get_segment_speed segment_id gv).1.
Proof. intros Hobs. by rewrite !get_segment_speed_fst, Hobs. Qed.

(** ** Retention *)

Lemma filter_length_eq {A} (P : A → Prop) `{!∀ x, Decision (P x)} (l : list A) :
  length (filter P l) = length l → filter P l = l.
Proof.
  induction l as [|x l IH]; [done|].
  rewrite filter_cons. case_decide; simpl.
  - intros [=]. f_equal. by apply IH.
  - pose proof (length_filter P l). lia.
Qed.

Lemma drop_old_spec dt_threshold gv :
  (∀ s, fcd_by_segment (drop_old dt_threshold gv) !! s
        = filter (λ fcd, (dt_threshold ≤ FCDRecord.datetime fcd)%Z) <$> fcd_by_segment gv !! s)
  ∧ car_to_segment (drop_old dt_threshold gv) = car_to_segment gv
  ∧ (∀ s, s ∈ modified_segments (drop_old dt_threshold gv) ↔
          s ∈ modified_segments gv
          ∨ ∃ fcds, fcd_by_segment gv !! s = Some fcds
                    ∧ length (filter (λ fcd, (dt_threshold ≤ FCDRecord.datetime fcd)%Z) fcds)
                      ≠ length fcds).
Proof.
  unfold drop_old.
  set (keep := filter (λ fcd : FCDRecord.t SegmentId, (dt_threshold ≤ FCDRecord.datetime fcd)%Z)).
  set (M := fcd_by_segment gv).
  set (body := λ (segment_id : SegmentId) (old_fcds : list (FCDRecord.t SegmentId)) gv0, _).
  pose (P := λ (r : GlobalView SegmentId) (m : gmap SegmentId (list (FCDRecord.t SegmentId))),
    m ⊆ M →
    (∀ s, fcd_by_segment r !! s
          = match m !! s with Some _ => keep <$> M !! s | None => M !! s end)
    ∧ car_to_segment r = car_to_segment gv
    ∧ (∀ s, s ∈ modified_segments r ↔
            s ∈ modified_segments gv
            ∨ ∃ fcds, m !! s = Some fcds ∧ length (keep fcds) ≠ length fcds)).
  assert (P (map_fold body gv M) M) as HP.
  { apply (map_fold_weak_ind P); subst P; simpl.
    - intros _. split_and!; [done|done|].
      intros s. setoid_rewrite lookup_empty. naive_solver.
    - intros i x m r Hi IH Hsub.
      assert (M !! i = Some x) as HMi.
      { eapply lookup_weaken; [|exact Hsub]. apply lookup_insert_eq. }
      assert (m ⊆ M) as Hsub'.
      { etrans; [|exact Hsub]. by apply insert_subseteq. }
      destruct (IH Hsub') as (IHmap & IHcar & IHmod).
      assert (fcd_by_segment r !! i = Some x) as Hri by by rewrite IHmap, Hi.
      subst body. cbn beta. unfold fcd_by_segment_getitem. rewrite Hri. cbn zeta.
      fold keep.
      destruct (decide (length (keep x) ≠ length x)) as [Hlen|Hlen]; simpl.
      + split_and!; [|done|].
        * intros s. destruct (decide (i = s)) as [->|Hne].
          -- by rewrite !lookup_insert_eq, HMi.
          -- by rewrite !lookup_insert_ne, IHmap.
        * intros s. rewrite elem_of_union, elem_of_singleton, IHmod.
          destruct (decide (i = s)) as [->|Hne].
          -- rewrite lookup_insert_eq. naive_solver.
          -- rewrite lookup_insert_ne by done. naive_solver.
      + apply dec_stable in Hlen. split_and!; [|done|].
        * intros s. destruct (decide (i = s)) as [->|Hne].
          -- rewrite lookup_insert_eq, Hri, HMi. simpl.
             f_equal. symmetry. by apply filter_length_eq.
          -- by rewrite lookup_insert_ne, IHmap.
        * intros s. rewrite IHmod.
          destruct (decide (i = s)) as [->|Hne].
          -- rewrite lookup_insert_eq, Hi. naive_solver.
          -- by rewrite lookup_insert_ne. }
  destruct (HP ltac:(done)) as (Hmap & Hcar & Hmod).
  split_and!; [|done|done].
  intros s. rewrite Hmap. by destruct (M !! s).
Qed.

Lemma drop_old_observations dt_threshold gv s :
  observations (drop_old dt_threshold gv) s
  = filter (λ fcd, (dt_threshold ≤ FCDRecord.datetime fcd)%Z) (observations gv s).
Proof.
  unfold observations. rewrite (proj1 (drop_old_spec dt_threshold gv)).
  by destruct (fcd_by_segment gv !! s).
Qed.

Lemma drop_old_modified dt_threshold gv s :
  s ∈ modified_segments (drop_old dt_threshold gv) ↔
  s ∈ modified_segments gv
  ∨ length (observations (drop_old dt_threshold gv) s) ≠ length (observations gv s).
Proof.
  rewrite (proj2 (proj2 (drop_old_spec dt_threshold gv))), drop_old_observations.
  unfold observations.
  destruct (fcd_by_segment gv !! s) as [fcds|]; simpl; naive_solver.
Qed.

(** ** Draining *)

Lemma take_segment_speeds_loop_spec gv :
  dom (take_segment_speeds_loop gv).1 = modified_segments gv
  ∧ (∀ s, s ∈ modified_segments gv →
          (take_segment_speeds_loop gv).1 !! s = Some (get_segment_speed s gv).1)
  ∧ (∀ s, observations (take_segment_speeds_loop gv).2 s = observations gv s)
  ∧ car_to_segment (take_segment_speeds_loop gv).2 = car_to_segment gv
  ∧ modified_segments (take_segment_speeds_loop gv).2 = modified_segments gv.
Proof.
  unfold take_segment_speeds_loop.
  pose (P := λ (acc : gmap SegmentId (option float) * GlobalView SegmentId)
               (X : gset SegmentId),
    dom acc.1 = X
    ∧ (∀ s, s ∈ X → acc.1 !! s = Some (get_segment_speed s gv).1)
    ∧ (∀ s, observations acc.2 s = observations gv s)
    ∧ car_to_segment acc.2 = car_to_segment gv
    ∧ modified_segments acc.2 = modified_segments gv).
  apply (set_fold_ind_L P); subst P; simpl.
  - split_and!; [by rewrite dom_empty_L|set_solver|done..].
  - intros x X [speeds g] Hx (Hdom & Hval & Hobs & Hcar & Hmod). simpl in *.
    destruct (get_segment_speed x g) as [v g'] eqn:Hcall. simpl.
    assert (v = (get_segment_speed x gv).1) as ->.
    { change v with (v, g').1. rewrite <- Hcall. by apply get_segment_speed_fst_ext. }
    assert (g' = (fcd_by_segment_getitem x g).2) as ->.
    { change g' with ((get_segment_speed x gv).1, g').2.
      rewrite <- Hcall. apply get_segment_speed_snd. }
    split_and!.
    + by rewrite dom_insert_L, Hdom.
    + intros s [->%elem_of_singleton|Hs]%elem_of_union.
      * apply lookup_insert_eq.
      * rewrite lookup_insert_ne by set_solver. by apply Hval.
    + intros s. by rewrite getitem_snd_observations.
    + by rewrite getitem_snd_car.
    + by rewrite getitem_snd_modified.
Qed.

Lemma take_segment_speeds_eq gv :
  take_segment_speeds gv
  = ((take_segment_speeds_loop gv).1,
     with_modified_segments ∅ (take_segment_speeds_loop gv).2).
Proof. unfold take_segment_speeds. by destruct (take_segment_speeds_loop gv). Qed.

Lemma take_segment_speeds_drained gv :
  modified_segments gv = ∅ → (take_segment_speeds gv).1 = ∅.
Proof.
  intros Hempty. rewrite take_segment_speeds_eq. simpl.
  apply dom_empty_iff_L.
  by rewrite (proj1 (take_segment_speeds_loop_spec gv)).
Qed.

(** ** What marks a segment modified *)

Lemma run_call_modified gv (c : call) s :
  s ∈ modified_segments (run_call gv c) ↔ s ∈ modified_segments gv ∨ touches c gv s.
Proof.
  destruct c as [fcd|dt_threshold|segment_id]; simpl.
  - rewrite add_modified_segments, !elem_of_union, elem_of_singleton.
    destruct (car_to_segment gv !! FCDRecord.vehicle_id fcd) as [old|].
    + rewrite elem_of_singleton. naive_solver.
    + rewrite elem_of_empty. naive_solver.
  - rewrite drop_old_modified, drop_old_observations. done.
  - rewrite get_segment_speed_snd, getitem_snd_modified. naive_solver.
Qed.

Lemma run_calls_modified gv (cs : list call) s :
  s ∈ modified_segments (run_calls gv cs) ↔
  s ∈ modified_segments gv
  ∨ ∃ pre c post, cs = pre ++ c :: post ∧ touches c (run_calls gv pre) s.
Proof.
  induction cs as [|c cs IH] using rev_ind.
  - simpl. split; [by left|]. intros [?|(pre & c & post & Hnil & _)]; [done|].
    by destruct pre.
  - unfold run_calls in *. rewrite foldl_snoc, run_call_modified, IH.
    split.
    + intros [[?|(pre & c' & post & -> & Ht)]|Ht].
      * by left.
      * right. exists pre, c', (post ++ [c]). by rewrite <- app_assoc.
      * right. exists cs, c, []. done.
    + intros [?|(pre & c' & post & Heq & Ht)]; [by left; left|].
      destruct post as [|c'' post _] using rev_ind.
      * apply app_inj_tail in Heq as [-> ->]. by right.
      * rewrite app_comm_cons, app_assoc in Heq.
        apply app_inj_tail in Heq as [-> ->].
        left; right. by exists pre, c', post.
Qed.

(** ** The contracts of the index *)

(** C9.  [get_segment_speed] reads: the observation sequence of every
    segment, the modified set and the vehicle-to-segment mapping are what
    they were.  The one trace it leaves is the [defaultdict] binding an
    unseen segment id to the empty list, which no sequence shows. *)
Theorem get_segment_speed_frame segment_id gv :
  (∀ s, observations (get_segment_speed segment_id gv).2 s = observations gv s)
  ∧ modified_segments (get_segment_speed segment_id gv).2 = modified_segments gv
  ∧ car_to_segment (get_segment_speed segment_id gv).2 = car_to_segment gv
  ∧ fcd_by_segment (get_segment_speed segment_id gv).2
    = match fcd_by_segment gv !! segment_id with
      | Some _ => fcd_by_segment gv
      | None => <[segment_id := []]> (fcd_by_segment gv)
      end
  ∧ (∀ s, (get_segment_speed s (get_segment_speed segment_id gv).2).1
          = (get_segment_speed s gv).1)
  ∧ (∀ classes datetime s tolerance vehicle_id vehicle_offset_m,
       load_ahead classes (get_segment_speed segment_id gv).2 datetime s tolerance
                  vehicle_id vehicle_offset_m
       = load_ahead classes gv datetime s tolerance vehicle_id vehicle_offset_m).
Proof.
  rewrite get_segment_speed_snd. split_and!.
  - apply getitem_snd_observations.
  - apply getitem_snd_modified.
  - apply getitem_snd_car.
  - apply getitem_snd_map.
  - intros s. apply get_segment_speed_fst_ext, getitem_snd_observations.
  - intros. unfold load_ahead. by rewrite getitem_snd_observations.
Qed.

(** C8.  [drop_old t] leaves in every segment the observations with
    [datetime >= t], in their order: the stored sequence splits into the
    survivors and the removed observations with [datetime < t]; a segment
    is modified afterwards exactly when it was before or its number of
    observations changed; vehicles and keys are untouched. *)
Theorem drop_old_contract dt_threshold gv :
  (∀ s, observations (drop_old dt_threshold gv) s
        = filter (λ fcd, (dt_threshold ≤ FCDRecord.datetime fcd)%Z) (observations gv s))
  ∧ (∀ s, observations (drop_old dt_threshold gv) s
          ++ filter (λ fcd, (FCDRecord.datetime fcd < dt_threshold)%Z) (observations gv s)
          ≡ₚ observations gv s)
  ∧ (∀ s, observations (drop_old dt_threshold gv) s `sublist_of` observations gv s)
  ∧ (∀ s fcd, fcd ∈ observations (drop_old dt_threshold gv) s ↔
              fcd ∈ observations gv s ∧ ¬ (FCDRecord.datetime fcd < dt_threshold)%Z)
  ∧ (∀ s, s ∈ modified_segments (drop_old dt_threshold gv) ↔
          s ∈ modified_segments gv
          ∨ length (observations (drop_old dt_threshold gv) s) ≠ length (observations gv s))
  ∧ car_to_segment (drop_old dt_threshold gv) = car_to_segment gv
  ∧ dom (fcd_by_segment (drop_old dt_threshold gv)) = dom (fcd_by_segment gv).
Proof.
  split_and!.
  - apply drop_old_observations.
  - intros s. rewrite drop_old_observations.
    rewrite <- (filter_app_complement
                  (λ fcd : FCDRecord.t SegmentId, (dt_threshold ≤ FCDRecord.datetime fcd)%Z)
                  (observations gv s)) at 3.
    f_equiv. apply reflexive_eq, list_filter_iff. intros fcd. lia.
  - intros s. rewrite drop_old_observations. apply sublist_filter.
  - intros s fcd. rewrite drop_old_observations, list_elem_of_filter. split.
    + intros [? ?]. split; [done|lia].
    + intros [? ?]. split; [lia|done].
  - apply drop_old_modified.
  - apply (drop_old_spec dt_threshold gv).
  - apply set_eq. intros s. rewrite !elem_of_dom.
    rewrite (proj1 (drop_old_spec dt_threshold gv)). by rewrite fmap_is_Some.
Qed.

(** C2.  [take_segment_speeds] returns a mapping whose keys are exactly the
    modified segments, each with the value [get_segment_speed] gives in the
    state of the call; the loop that computes the values leaves the modified
    set as it was, and the set is emptied after it; the observations and the
    vehicles are untouched.  A second drain returns the empty mapping.  After
    any calls made since a drain, the next drain has a segment as key exactly
    when one of those calls touched it: an [add] on it, an [add] that moved
    a vehicle away from it, or a [drop_old] that changed its count. *)
Theorem take_segment_speeds_contract gv :
  dom (take_segment_speeds gv).1 = modified_segments gv
  ∧ (∀ s, s ∈ modified_segments gv →
          (take_segment_speeds gv).1 !! s = Some (get_segment_speed s gv).1)
  ∧ (∀ s, s ∉ modified_segments gv → (take_segment_speeds gv).1 !! s = None)
  ∧ (take_segment_speeds gv).1 = (take_segment_speeds_loop gv).1
  ∧ modified_segments (take_segment_speeds_loop gv).2 = modified_segments gv
  ∧ (take_segment_speeds gv).2
    = with_modified_segments ∅ (take_segment_speeds_loop gv).2
  ∧ modified_segments (take_segment_speeds gv).2 = ∅
  ∧ (∀ s, observations (take_segment_speeds gv).2 s = observations gv s)
  ∧ car_to_segment (take_segment_speeds gv).2 = car_to_segment gv
  ∧ (take_segment_speeds (take_segment_speeds gv).2).1 = ∅
  ∧ (∀ (cs : list call) s,
       s ∈ dom (take_segment_speeds (run_calls (take_segment_speeds gv).2 cs)).1 ↔
       ∃ pre c post,
         cs = pre ++ c :: post ∧ touches c (run_calls (take_segment_speeds gv).2 pre) s).
Proof.
  destruct (take_segment_speeds_loop_spec gv) as (Hdom & Hval & Hobs & Hcar & Hmod).
  rewrite take_segment_speeds_eq. simpl.
  split_and!.
  - done.
  - done.
  - intros s Hs. apply not_elem_of_dom. by rewrite Hdom.
  - done.
  - done.
  - done.
  - done.
  - done.
  - done.
  - by apply take_segment_speeds_drained.
  - intros cs s. rewrite (take_segment_speeds_eq (run_calls _ _)). simpl.
    rewrite (proj1 (take_segment_speeds_loop_spec _)), run_calls_modified. simpl.
    rewrite elem_of_empty. naive_solver.
Qed.

(** C1.  [get_segment_speed] returns [None] exactly when the segment has no
    stored observation, never a number; otherwise it returns the arithmetic
    mean of the per-vehicle latest speeds, taken in the stable ascending
    sort by timestamp of the stored sequence (a permutation of it, ascending,
    observations of equal timestamp in their stored order).  For a segment
    whose two observations are of one vehicle, with speeds 10 and 20 at
    times [t1 < t2], in either stored order, the result is 20. *)
Theorem get_segment_speed_latest_mean segment_id gv :
  let fcds := observations gv segment_id in
  let by_segment := list_sort FCDRecord.datetime fcds in
  (fcds = [] ↔ (get_segment_speed segment_id gv).1 = None)
  ∧ (fcds ≠ [] →
     (get_segment_speed segment_id gv).1 = Some (mean (latest_speeds by_segment)))
  ∧ by_segment ≡ₚ fcds
  ∧ StronglySorted (λ a b, (FCDRecord.datetime a ≤ FCDRecord.datetime b)%Z) by_segment
  ∧ (∀ t, filter (λ fcd, FCDRecord.datetime fcd = t) by_segment
          = filter (λ fcd, FCDRecord.datetime fcd = t) fcds)
  ∧ length (latest_speeds by_segment)
    = length (first_occurrences (FCDRecord.vehicle_id <$> by_segment))
  ∧ (∀ a b,
       fcds = [a; b] ∨ fcds = [b; a] →
       FCDRecord.vehicle_id a = FCDRecord.vehicle_id b →
       (FCDRecord.datetime a < FCDRecord.datetime b)%Z →
       FCDRecord.speed a = 10%float →
       FCDRecord.speed b = 20%float →
       (get_segment_speed segment_id gv).1 = Some 20%float).
Proof.
  intros fcds by_segment. subst by_segment fcds.
  rewrite get_segment_speed_fst.
  split_and!.
  - by destruct (observations gv segment_id).
  - by destruct (observations gv segment_id).
  - apply list_sort_perm.
  - apply list_sort_sorted.
  - intros t. apply list_sort_stable.
  - apply latest_speeds_length.
  - intros a b Hfcds Hv Ht Ha Hb.
    assert (list_sort FCDRecord.datetime (observations gv segment_id) = [a; b]) as Hsorted.
    { destruct Hfcds as [-> | ->]; simpl.
      - by rewrite (proj2 (Z.leb_le _ _)) by lia.
      - by rewrite (proj2 (Z.leb_gt _ _)) by lia. }
    rewrite Hsorted.
    assert (latest_speeds [a; b] = [20%float]) as ->.
    { unfold latest_speeds, last_speed_of. csimpl.
      rewrite !filter_cons, !filter_nil.
      repeat case_decide; try congruence. csimpl. by rewrite Hb. }
    destruct Hfcds as [-> | ->]; reflexivity.
Qed.

End index_properties.

(** ** The level-of-service model *)

Section level_of_service_properties.
Context {SegmentId : Type} `{Countable SegmentId}.
Implicit Types (gv : GlobalView SegmentId) (fcd : FCDRecord.t SegmentId).
Implicit Types (classes : VehicleClasses.t) (segment : Segment.t SegmentId).

(** ** The load ahead *)

Lemma load_ahead_step_counts classes datetime tolerance vehicle_id vehicle_offset_m
    (va : list (Z * VehicleParams.t)) fcd :
  load_ahead_step classes datetime tolerance vehicle_id vehicle_offset_m va fcd
  = if bool_decide (counts_ahead datetime tolerance vehicle_id vehicle_offset_m fcd)
    then (if negb (OrderedDict.mem (FCDRecord.vehicle_id fcd) va)
          then OrderedDict.set (FCDRecord.vehicle_id fcd)
                 (VehicleClasses.get classes (FCDRecord.vehicle_type fcd)) va
          else va)
    else va.
Proof.
  unfold load_ahead_step, counts_ahead, in_window.
  repeat case_bool_decide; simpl; try done;
    destruct (PrimFloat.ltb _ _) eqn:Hlt; simpl; try done; naive_solver.
Qed.

Lemma load_ahead_vehicles classes gv datetime segment_id tolerance vehicle_id vehicle_offset_m :
  let counted :=
    filter (counts_ahead datetime (default 0%Z tolerance) vehicle_id vehicle_offset_m)
           (observations gv segment_id) in
  let vehicles_ahead :=
    (load_ahead classes gv datetime segment_id tolerance vehicle_id vehicle_offset_m).2 in
  OrderedDict.keys vehicles_ahead = first_occurrences (FCDRecord.vehicle_id <$> counted)
  ∧ ∀ v, OrderedDict.get v vehicles_ahead
         = (λ fcd, VehicleClasses.get classes (FCDRecord.vehicle_type fcd))
             <$> head (filter (λ fcd, FCDRecord.vehicle_id fcd = v) counted).
Proof.
  intros counted vehicles_ahead. subst vehicles_ahead. unfold load_ahead. simpl.
  rewrite (foldl_ext _
    (λ va fcd,
       if bool_decide (counts_ahead datetime (default 0%Z tolerance) vehicle_id
                                    vehicle_offset_m fcd)
       then (λ va fcd,
               if negb (OrderedDict.mem (FCDRecord.vehicle_id fcd) va)
               then OrderedDict.set (FCDRecord.vehicle_id fcd)
                      (VehicleClasses.get classes (FCDRecord.vehicle_type fcd)) va
               else va) va fcd
       else va))
    by (intros; apply load_ahead_step_counts).
  rewrite foldl_filter. fold counted. split.
  - rewrite (dict_fold_first_keys FCDRecord.vehicle_id
               (λ fcd, VehicleClasses.get classes (FCDRecord.vehicle_type fcd))).
    simpl.
    induction (first_occurrences _) as [|x xs IHxs]; [done|].
    rewrite filter_cons_True by apply not_elem_of_nil. by f_equal.
  - intros v.
    by rewrite (dict_fold_first_get FCDRecord.vehicle_id
                  (λ fcd, VehicleClasses.get classes (FCDRecord.vehicle_type fcd))).
Qed.

(** ** Division and the table *)

Lemma py_truediv_nonzero (x y : float) :
  PrimFloat.eqb y 0%float = false → py_truediv x y = Some (PrimFloat.div x y).
Proof. unfold py_truediv. by intros ->. Qed.

Lemma los_lookup_cons low high m n table d :
  los_lookup (((low, high), (m, n)) :: table) d
  = if PrimFloat.ltb d high then
      q ← py_truediv (PrimFloat.mul (PrimFloat.sub d low) 0.2%float) (PrimFloat.sub high low);
      Some (PrimFloat.add m q)
    else los_lookup table d.
Proof. reflexivity. Qed.

(** Within a band, low end included and high end excluded, the raw level is
    the interpolation of that band. *)
Lemma los_lookup_band low high m n d :
  ((low, high), (m, n)) ∈ ranges →
  PrimFloat.leb low d = true →
  PrimFloat.ltb d high = true →
  los_lookup ranges d
  = Some (PrimFloat.add m
            (PrimFloat.div (PrimFloat.mul (PrimFloat.sub d low) 0.2%float)
                           (PrimFloat.sub high low))).
Proof.
  unfold ranges. intros Hband Hlow Hhigh.
  repeat (apply elem_of_cons in Hband as [[= -> -> -> ->]|Hband]);
    [..|by apply elem_of_nil in Hband];
    repeat (rewrite los_lookup_cons;
            lazymatch goal with
            | Hlow : PrimFloat.leb ?low' d = true |- context [PrimFloat.ltb d ?high'] =>
                first [ rewrite Hhigh
                      | rewrite (float_not_ltb high' low' d eq_refl Hlow) ]
            end);
    by rewrite py_truediv_nonzero.
Qed.

(** At or above the last band no row matches. *)
Lemma los_lookup_above d :
  PrimFloat.leb 67%float d = true → los_lookup ranges d = Some float_inf.
Proof.
  intros Hd. unfold ranges.
  repeat (rewrite los_lookup_cons;
          lazymatch goal with
          | |- context [PrimFloat.ltb d ?high] =>
              rewrite (float_not_ltb high 67%float d eq_refl Hd)
          end).
  reflexivity.
Qed.

Lemma level_of_service_unfold classes gv datetime segment vehicle_id vehicle_offset_m
    tolerance limit_vehicle_count :
  level_of_service_in_front_of_vehicle classes gv datetime segment vehicle_id
    vehicle_offset_m tolerance limit_vehicle_count
  = let la := load_ahead classes gv datetime (Segment.id segment) tolerance
                         vehicle_id vehicle_offset_m in
    if limit_vehicle_count
       && PrimFloat.eqb vehicle_offset_m 0.0%float
       && PrimFloat.leb 10.0%float (Segment.length segment)
       && PrimFloat.ltb (PrimFloat.sub (Segment.length segment) vehicle_offset_m) la.1.2
    then Some float_inf
    else
      n ← n_vehicles_per_mile la.1.1 (Segment.length segment) vehicle_offset_m
                               (Segment.lanes segment);
      los ← los_lookup ranges n;
      Some (reverse_los los).
Proof.
  unfold level_of_service_in_front_of_vehicle.
  by destruct (load_ahead _ _ _ _ _ _ _) as [[? ?] ?].
Qed.

(** C4.  With the limit-vehicle-count mode on, the offset equal to zero and
    a segment of at least 10 m, an occupied length above the available
    length [segment.length - offset] makes the result [float("inf")],
    whatever the density model would give; when one of these conditions
    fails the result is that of the density model.  The occupied length is
    the sum of length plus standstill gap over the vehicles ahead.  These
    are the distinct vehicles of the counted observations, in the order of
    their first counted observation, each with the parameters of the class
    named by that first observation: the sum is over the vehicles' own
    lengths and gaps. *)
Theorem jam_short_circuit classes gv datetime segment vehicle_id vehicle_offset_m
    tolerance limit_vehicle_count :
  let la := load_ahead classes gv datetime (Segment.id segment) tolerance
                       vehicle_id vehicle_offset_m in
  let sum_pcu := la.1.1 in
  let sum_occupied_length := la.1.2 in
  let vehicles_ahead := la.2 in
  let available_length := PrimFloat.sub (Segment.length segment) vehicle_offset_m in
  let counted :=
    filter (counts_ahead datetime (default 0%Z tolerance) vehicle_id vehicle_offset_m)
           (observations gv (Segment.id segment)) in
  let params_of v :=
    (λ fcd, VehicleClasses.get classes (FCDRecord.vehicle_type fcd))
      <$> head (filter (λ fcd, FCDRecord.vehicle_id fcd = v) counted) in
  (limit_vehicle_count = true →
   PrimFloat.eqb vehicle_offset_m 0%float = true →
   PrimFloat.leb 10%float (Segment.length segment) = true →
   PrimFloat.ltb available_length sum_occupied_length = true →
   level_of_service_in_front_of_vehicle classes gv datetime segment vehicle_id
     vehicle_offset_m tolerance limit_vehicle_count = Some float_inf)
  ∧ (limit_vehicle_count = false
     ∨ PrimFloat.eqb vehicle_offset_m 0%float = false
     ∨ PrimFloat.leb 10%float (Segment.length segment) = false
     ∨ PrimFloat.ltb available_length sum_occupied_length = false →
     level_of_service_in_front_of_vehicle classes gv datetime segment vehicle_id
       vehicle_offset_m tolerance limit_vehicle_count
     = n ← n_vehicles_per_mile sum_pcu (Segment.length segment) vehicle_offset_m
                                (Segment.lanes segment);
       los ← los_lookup ranges n;
       Some (reverse_los los))
  ∧ sum_occupied_length
    = py_sum ((λ p, PrimFloat.add (VehicleParams.length_m p) (VehicleParams.standstill_gap_m p))
                <$> OrderedDict.values vehicles_ahead)
  ∧ NoDup (OrderedDict.keys vehicles_ahead)
  ∧ (∀ v, v ∈ OrderedDict.keys vehicles_ahead ↔
          ∃ fcd, fcd ∈ observations gv (Segment.id segment)
                 ∧ counts_ahead datetime (default 0%Z tolerance) vehicle_id vehicle_offset_m fcd
                 ∧ FCDRecord.vehicle_id fcd = v)
  ∧ OrderedDict.keys vehicles_ahead = first_occurrences (FCDRecord.vehicle_id <$> counted)
  ∧ (∀ v, OrderedDict.get v vehicles_ahead = params_of v)
  ∧ OrderedDict.values vehicles_ahead
    = omap params_of (first_occurrences (FCDRecord.vehicle_id <$> counted))
  ∧ sum_occupied_length
    = py_sum ((λ p, PrimFloat.add (VehicleParams.length_m p) (VehicleParams.standstill_gap_m p))
                <$> omap params_of (first_occurrences (FCDRecord.vehicle_id <$> counted))).
Proof.
  intros la sum_pcu sum_occupied_length vehicles_ahead available_length counted params_of.
  rewrite level_of_service_unfold. fold la. cbn zeta.
  fold sum_pcu sum_occupied_length available_length.
  destruct (load_ahead_vehicles classes gv datetime (Segment.id segment) tolerance
              vehicle_id vehicle_offset_m) as [Hkeys Hget].
  fold la vehicles_ahead counted in Hkeys, Hget.
  assert (NoDup (OrderedDict.keys vehicles_ahead)) as Hnodup
    by (rewrite Hkeys; apply first_occurrences_NoDup).
  assert (OrderedDict.values vehicles_ahead
          = omap params_of (first_occurrences (FCDRecord.vehicle_id <$> counted))) as Hvalues.
  { rewrite (dict_values_keys _ Hnodup), Hkeys.
    generalize (first_occurrences (FCDRecord.vehicle_id <$> counted)).
    intros vs. induction vs as [|v vs IH]; [done|].
    csimpl. by rewrite Hget, IH. }
  split_and!.
  - by intros -> -> -> ->.
  - intros [-> | [-> | [-> | ->]]]; by rewrite ?andb_false_r.
  - done.
  - done.
  - intros v. rewrite Hkeys, first_occurrences_elem_of, list_elem_of_fmap.
    unfold counted. setoid_rewrite list_elem_of_filter. naive_solver.
  - done.
  - done.
  - done.
  - by rewrite <- Hvalues.
Qed.

(** C6.  With [rest_length = segment.length - offset]: below 200 m the
    density is [total_pcu * 1609.344 / 200], with no use of the lane count;
    otherwise it is [total_pcu * 1609.344 / (rest_length * lane_count)],
    Python's division, which raises on a zero divisor.  This density is the
    one the score is looked up for when the jam check does not return. *)
Theorem density_normalisation classes gv datetime segment vehicle_id vehicle_offset_m
    tolerance :
  let total_pcu :=
    (load_ahead classes gv datetime (Segment.id segment) tolerance
                vehicle_id vehicle_offset_m).1.1 in
  let rest_length := PrimFloat.sub (Segment.length segment) vehicle_offset_m in
  let lane_count := float_of_Z (Segment.lanes segment) in
  (PrimFloat.ltb rest_length 200%float = true →
   n_vehicles_per_mile total_pcu (Segment.length segment) vehicle_offset_m
                       (Segment.lanes segment)
   = Some (PrimFloat.div (PrimFloat.mul total_pcu 1609.344%float) 200%float))
  ∧ (PrimFloat.ltb rest_length 200%float = false →
     n_vehicles_per_mile total_pcu (Segment.length segment) vehicle_offset_m
                         (Segment.lanes segment)
     = py_truediv (PrimFloat.mul total_pcu 1609.344%float)
                  (PrimFloat.mul rest_length lane_count))
  ∧ (PrimFloat.ltb rest_length 200%float = false →
     PrimFloat.eqb (PrimFloat.mul rest_length lane_count) 0%float = false →
     n_vehicles_per_mile total_pcu (Segment.length segment) vehicle_offset_m
                         (Segment.lanes segment)
     = Some (PrimFloat.div (PrimFloat.mul total_pcu 1609.344%float)
                           (PrimFloat.mul rest_length lane_count)))
  ∧ level_of_service_in_front_of_vehicle classes gv datetime segment vehicle_id
      vehicle_offset_m tolerance false
    = n ← n_vehicles_per_mile total_pcu (Segment.length segment) vehicle_offset_m
                               (Segment.lanes segment);
      los ← los_lookup ranges n;
      Some (reverse_los los).
Proof.
  intros total_pcu rest_length lane_count.
  unfold n_vehicles_per_mile, ending_length, mile. fold rest_length lane_count.
  split_and!.
  - intros ->. by apply py_truediv_nonzero.
  - by intros ->.
  - intros -> Hnz. by apply py_truediv_nonzero.
  - by rewrite level_of_service_unfold.
Qed.

End level_of_service_properties.

(** ** The range of the level of service *)

Section level_of_service_range.
Context {SegmentId : Type} `{Countable SegmentId}.
Implicit Types (gv : GlobalView SegmentId) (fcd : FCDRecord.t SegmentId).
Implicit Types (classes : VehicleClasses.t) (segment : Segment.t SegmentId).

Lemma float_nonneg_SF (x : float) :
  PrimFloat.leb 0 x = true ↔ sf_nonneg (Prim2SF x).
Proof. unfold sf_nonneg. by rewrite FloatAxioms.leb_spec, prim_zero. Qed.

Lemma float_add_nonneg (x y : float) :
  PrimFloat.leb 0 x = true → PrimFloat.leb 0 y = true → PrimFloat.leb 0 (x + y) = true.
Proof. rewrite !float_nonneg_SF, FloatAxioms.add_spec. apply SFadd_nonneg. Qed.

Lemma py_sum_nonneg (xs : list float) :
  Forall (λ x, PrimFloat.leb 0 x = true) xs → PrimFloat.leb 0 (py_sum xs) = true.
Proof.
  unfold py_sum. intros Hxs.
  cut (∀ acc, PrimFloat.leb 0 acc = true →
              PrimFloat.leb 0 (foldl PrimFloat.add acc xs) = true).
  { intros Hcut. by apply Hcut. }
  induction xs as [|x xs IH]; intros acc Hacc; [done|].
  apply Forall_cons in Hxs as [Hx Hxs]. simpl. apply IH; [done|].
  by apply float_add_nonneg.
Qed.

Lemma float_mul_nonneg (x c : float) :
  sf_pos (Prim2SF c) = true →
  PrimFloat.leb 0 x = true → PrimFloat.leb 0 (x * c) = true.
Proof.
  intros (mc & ec & Hc & _)%sf_pos_inv.
  rewrite !float_nonneg_SF, FloatAxioms.mul_spec, Hc. apply SFmul_nonneg_finite.
Qed.

Lemma float_div_nonneg_or_nan (x y : float) :
  PrimFloat.leb 0 x = true →
  nonneg_or_nan y → PrimFloat.eqb y 0 = false →
  nonneg_or_nan (x / y).
Proof.
  unfold nonneg_or_nan.
  rewrite !float_nonneg_SF, FloatAxioms.div_spec, FloatAxioms.eqb_spec, prim_zero.
  intros Hx Hy Hy0. apply SFdiv_nonneg_or_nan; [done|].
  destruct Hy as [->|Hy]; [done|]. apply sf_nonneg_cases in Hy.
  by destruct (Prim2SF y) as [s|s| |s m e].
Qed.

Lemma float_mul_nonneg_or_nan (x y : float) :
  nonneg_or_nan x → PrimFloat.leb 0 y = true → nonneg_or_nan (x * y).
Proof.
  unfold nonneg_or_nan. rewrite !float_nonneg_SF, FloatAxioms.mul_spec.
  intros [->|Hx] Hy; [by left|]. by apply SFmul_nonneg_or_nan.
Qed.

Lemma float_ltb_false (d h : float) :
  PrimFloat.ltb d h = false → sf_pos (Prim2SF h) = true →
  Prim2SF d = S754_nan ∨ PrimFloat.leb h d = true.
Proof.
  rewrite FloatAxioms.ltb_spec, FloatAxioms.leb_spec.
  intros Hlt (mh & eh & Hh & _)%sf_pos_inv.
  rewrite Hh in *.
  destruct (Prim2SF d) as [s|s| |s m e] eqn:Hd; [right|right|by left|right];
    by apply SFltb_false_SFleb.
Qed.

Lemma float_nan_ltb (d h : float) : Prim2SF d = S754_nan → PrimFloat.ltb d h = false.
Proof. rewrite FloatAxioms.ltb_spec. by intros ->. Qed.

Lemma float_leb_trans_nonneg (h d : float) :
  sf_pos (Prim2SF h) = true → PrimFloat.leb h d = true → PrimFloat.leb 0 d = true.
Proof.
  intros (mh & eh & Hh & _)%sf_pos_inv.
  rewrite !FloatAxioms.leb_spec, prim_zero, Hh.
  by destruct (Prim2SF d) as [s|[]| |[] m e].
Qed.

Lemma float_of_Z_nonneg (z : Z) : (0 ≤ z)%Z → PrimFloat.leb 0 (float_of_Z z) = true.
Proof.
  intros Hz. unfold float_of_Z. destruct (Z.ltb_spec z 0) as [|_]; [lia|].
  rewrite float_nonneg_SF, FloatAxioms.of_uint63_spec.
  pose proof (Uint63.to_Z_bounded (Uint63.of_Z z)) as [Hn _].
  destruct (Uint63.to_Z (Uint63.of_Z z)) as [|p|p]; [done| |lia].
  apply has_sign_nonneg. simpl. apply binary_round_sign.
Qed.

Lemma float_leb_not_nan (x y : float) :
  PrimFloat.leb x y = true → Prim2SF y ≠ S754_nan.
Proof.
  rewrite FloatAxioms.leb_spec. intros Hle Hy. rewrite Hy in Hle.
  by destruct (Prim2SF x) as [s|s| |s m e].
Qed.

(** ** The range of the raw level *)

Lemma los_band_within low high m n d :
  band_fits ((low, high), (m, n)) = true →
  PrimFloat.leb low d = true → PrimFloat.ltb d high = true →
  within (m + (d - low) * 0.2 / (high - low)) 1.
Proof.
  unfold band_fits. destruct (band_bounds low high) as [[[P Ga] Gb] Gq].
  rewrite !andb_true_iff. intros [[[[[[HP Ha] Hb] Hq] Hr] _] _] Hlow Hhigh.
  by apply (band_within low high m (high - low) P Ga Gb Gq).
Qed.

Lemma los_lookup_nan table d :
  Prim2SF d = S754_nan → los_lookup table d = Some float_inf.
Proof.
  intros Hd. induction table as [|[[low high] [m n]] table IH]; [done|].
  by rewrite los_lookup_cons, float_nan_ltb.
Qed.

Lemma los_lookup_range table lo d raw :
  chained lo table = true →
  PrimFloat.leb lo d = true →
  los_lookup table d = Some raw →
  raw = float_inf ∨ within raw 1.
Proof.
  revert lo. induction table as [|[[low high] [m n]] table IH]; intros lo Hch Hlo.
  - intros [= <-]. by left.
  - simpl in Hch. apply andb_prop in Hch as [[Hlow Hfit]%andb_prop Hch].
    rewrite los_lookup_cons.
    destruct (PrimFloat.ltb d high) eqn:Hhigh.
    + assert (PrimFloat.eqb (high - low) 0 = false) as Hd.
      { unfold band_fits in Hfit. destruct (band_bounds low high) as [[[P Ga] Gb] Gq].
        apply andb_prop in Hfit as [_ Hfit]. by apply negb_true_iff in Hfit. }
      rewrite py_truediv_nonzero by done. intros [= <-]. right.
      apply (los_band_within low high m n); [done| |done].
      by apply (float_leb_trans _ lo).
    + assert (sf_pos (Prim2SF high) = true) as Hpos.
      { unfold band_fits in Hfit. destruct (band_bounds low high) as [[[P Ga] Gb] Gq].
        apply andb_prop in Hfit as [Hfit _]. by apply andb_prop in Hfit as [_ Hfit]. }
      destruct (float_ltb_false d high Hhigh Hpos) as [Hnan|Hle].
      * by apply float_leb_not_nan in Hlo.
      * by apply (IH high).
Qed.

Lemma ranges_chained : chained 0 ranges = true.
Proof. vm_compute. reflexivity. Qed.

(** ** The sign of the density *)

Lemma load_ahead_step_pcu classes datetime tolerance vehicle_id vehicle_offset_m
    (va : list (Z * VehicleParams.t)) fcd (P : VehicleParams.t → Prop) :
  (∀ ty, P (VehicleClasses.get classes ty)) →
  Forall P (OrderedDict.values va) →
  Forall P (OrderedDict.values
              (load_ahead_step classes datetime tolerance vehicle_id vehicle_offset_m va fcd)).
Proof.
  intros Hget Hva. rewrite load_ahead_step_counts.
  case_bool_decide; [|done]. destruct (negb _); [|done].
  generalize (VehicleClasses.get classes (FCDRecord.vehicle_type fcd)) (Hget (FCDRecord.vehicle_type fcd)).
  intros p Hp. unfold OrderedDict.values in *.
  induction va as [|[k0 v0] va IH]; csimpl.
  - by apply Forall_cons.
  - apply Forall_cons in Hva as [Hv0 Hva].
    case_decide; csimpl; apply Forall_cons; auto.
Qed.

Lemma load_ahead_pcu classes gv datetime segment_id tolerance vehicle_id vehicle_offset_m
    (P : VehicleParams.t → Prop) :
  (∀ ty, P (VehicleClasses.get classes ty)) →
  Forall P (OrderedDict.values
              (load_ahead classes gv datetime segment_id tolerance vehicle_id vehicle_offset_m).2).
Proof.
  intros Hget. unfold load_ahead. simpl.
  assert (Forall P (OrderedDict.values ([] : list (Z * VehicleParams.t)))) as Hnil
    by apply Forall_nil_2.
  revert Hnil. generalize ([] : list (Z * VehicleParams.t)).
  induction (observations gv segment_id) as [|fcd l IH]; intros va Hva; [done|].
  simpl. apply IH. by apply load_ahead_step_pcu.
Qed.

Lemma classes_get_pcu classes ty :
  PrimFloat.leb 0 (VehicleParams.pcu (VehicleClasses.car classes)) = true →
  map_Forall (λ _ p, PrimFloat.leb 0 (VehicleParams.pcu p) = true)
             (VehicleClasses.others classes) →
  PrimFloat.leb 0 (VehicleParams.pcu (VehicleClasses.get classes ty)) = true.
Proof.
  intros Hcar Hothers. unfold VehicleClasses.get. case_decide; [done|].
  destruct (VehicleClasses.others classes !! ty) as [p|] eqn:Hty; [|done].
  simpl. by apply (Hothers ty).
Qed.

Lemma load_ahead_sum_pcu classes gv datetime segment_id tolerance vehicle_id vehicle_offset_m :
  PrimFloat.leb 0 (VehicleParams.pcu (VehicleClasses.car classes)) = true →
  map_Forall (λ _ p, PrimFloat.leb 0 (VehicleParams.pcu p) = true)
             (VehicleClasses.others classes) →
  PrimFloat.leb 0
    (load_ahead classes gv datetime segment_id tolerance vehicle_id vehicle_offset_m).1.1 = true.
Proof.
  intros Hcar Hothers.
  pose proof (load_ahead_pcu classes gv datetime segment_id tolerance vehicle_id
                vehicle_offset_m (λ p, PrimFloat.leb 0 (VehicleParams.pcu p) = true)
                (λ ty, classes_get_pcu classes ty Hcar Hothers)) as Hall.
  unfold load_ahead in *. simpl in *. apply py_sum_nonneg.
  by apply Forall_fmap.
Qed.

Lemma density_nonneg_or_nan (sum_pcu segment_length vehicle_offset_m : float)
    (segment_lanes : Z) (n : float) :
  PrimFloat.leb 0 sum_pcu = true → (1 ≤ segment_lanes)%Z →
  n_vehicles_per_mile sum_pcu segment_length vehicle_offset_m segment_lanes = Some n →
  nonneg_or_nan n.
Proof.
  intros Hsum Hlanes. unfold n_vehicles_per_mile, py_truediv. cbv zeta.
  assert (PrimFloat.leb 0 (sum_pcu * mile) = true) as Hx
    by (by apply float_mul_nonneg).
  destruct (PrimFloat.ltb _ ending_length) eqn:Hrest.
  - change (PrimFloat.eqb ending_length 0) with false. cbv iota. intros [= <-].
    apply float_div_nonneg_or_nan; [done|by right|done].
  - destruct (PrimFloat.eqb _ 0) eqn:Hy; [done|]. intros [= <-].
    apply float_div_nonneg_or_nan; [done| |done].
    apply float_mul_nonneg_or_nan; [|apply float_of_Z_nonneg; lia].
    destruct (float_ltb_false _ _ Hrest eq_refl) as [Hnan|Hle]; [by left|right].
    by apply (float_leb_trans_nonneg ending_length).
Qed.

Lemma reverse_los_range (raw v : float) :
  raw = float_inf ∨ within raw 1 →
  reverse_los raw = v → PrimFloat.eqb v float_inf = false →
  within raw 1 ∧ v = (1 - raw)%float ∧ within v 1.
Proof.
  unfold reverse_los, float_inf. intros [->|Hraw] <-.
  - intros Hfin. vm_compute in Hfin. done.
  - rewrite (within_not_infinity raw 1) by done. intros _.
    split_and!; [done..|]. by apply float_rsub_within.
Qed.

(** C10 (amended: the interval is closed at 0).  With every PCU value
    non-negative and at least one lane, a returned value other than
    [float("inf")] is [1.0 - raw] for a raw level [raw] of the closed
    interval [[0, 1]], and lies itself in the closed interval [[0, 1]]:
    neither [-inf], a NaN nor a number outside that interval is returned.
    The raw level 1.0 and the score 0.0 do occur, where the interpolation of
    the last band rounds up. *)
Theorem level_of_service_closed_range classes gv datetime segment vehicle_id
    vehicle_offset_m tolerance limit_vehicle_count (v : float) :
  PrimFloat.leb 0 (VehicleParams.pcu (VehicleClasses.car classes)) = true →
  map_Forall (λ _ p, PrimFloat.leb 0 (VehicleParams.pcu p) = true)
             (VehicleClasses.others classes) →
  (1 ≤ Segment.lanes segment)%Z →
  level_of_service_in_front_of_vehicle classes gv datetime segment vehicle_id
    vehicle_offset_m tolerance limit_vehicle_count = Some v →
  PrimFloat.eqb v float_inf = false →
  (∃ raw, v = (1 - raw)%float
          ∧ PrimFloat.leb 0 raw = true ∧ PrimFloat.leb raw 1 = true)
  ∧ PrimFloat.leb 0 v = true ∧ PrimFloat.leb v 1 = true.
Proof.
  intros Hcar Hothers Hlanes. rewrite level_of_service_unfold. cbv zeta.
  pose proof (load_ahead_sum_pcu classes gv datetime (Segment.id segment) tolerance
                vehicle_id vehicle_offset_m Hcar Hothers) as Hsum.
  destruct (_ && _ && _ && _).
  { intros [= <-] Hfin. vm_compute in Hfin. done. }
  destruct (n_vehicles_per_mile _ _ _ _) as [n|] eqn:Hn; [|done].
  apply density_nonneg_or_nan in Hn; [|done..]. cbn [mbind option_bind].
  destruct (los_lookup ranges n) as [raw|] eqn:Hraw; [|done].
  cbn [mbind option_bind]. intros [= Hv] Hfin.
  assert (raw = float_inf ∨ within raw 1) as Hrange.
  { destruct Hn as [Hnan|Hn].
    - left. rewrite los_lookup_nan in Hraw by done. congruence.
    - by apply (los_lookup_range ranges 0 n); [apply ranges_chained|..]. }
  destruct (reverse_los_range raw v Hrange Hv Hfin) as ([Hr0 Hr1] & -> & [Hv0 Hv1]).
  split; [by exists raw|done].
Qed.

(** ** The bands and the method *)

Lemma ranges_fit band : band ∈ ranges → band_fits band = true.
Proof.
  unfold ranges. intros Hband.
  repeat (apply elem_of_cons in Hband as [->|Hband]; [vm_compute; reflexivity|]).
  by apply elem_of_nil in Hband.
Qed.

(** The method on a density inside a band: when the jam check does not
    return, the value is [1.0 - raw] for the interpolation of that band. *)
Lemma level_of_service_in_band classes gv datetime segment vehicle_id vehicle_offset_m
    tolerance limit_vehicle_count low high m n d :
  limit_vehicle_count
  && PrimFloat.eqb vehicle_offset_m 0%float
  && PrimFloat.leb 10%float (Segment.length segment)
  && PrimFloat.ltb (PrimFloat.sub (Segment.length segment) vehicle_offset_m)
       (load_ahead classes gv datetime (Segment.id segment) tolerance
                   vehicle_id vehicle_offset_m).1.2 = false →
  n_vehicles_per_mile
    (load_ahead classes gv datetime (Segment.id segment) tolerance
                vehicle_id vehicle_offset_m).1.1
    (Segment.length segment) vehicle_offset_m (Segment.lanes segment) = Some d →
  ((low, high), (m, n)) ∈ ranges →
  PrimFloat.leb low d = true →
  PrimFloat.ltb d high = true →
  level_of_service_in_front_of_vehicle classes gv datetime segment vehicle_id
    vehicle_offset_m tolerance limit_vehicle_count
  = Some (PrimFloat.sub 1.0%float
            (PrimFloat.add m
               (PrimFloat.div (PrimFloat.mul (PrimFloat.sub d low) 0.2%float)
                              (PrimFloat.sub high low)))).
Proof.
  intros Hjam Hn Hband Hlow Hhigh.
  rewrite level_of_service_unfold. cbn zeta. rewrite Hjam, Hn. cbn [mbind option_bind].
  rewrite (los_lookup_band low high m n d) by done. cbn [mbind option_bind].
  unfold reverse_los, float_inf.
  rewrite (within_not_infinity _ 1); [done..|].
  by apply (los_band_within low high m n); [apply ranges_fit|..].
Qed.

(** C5.  The bands are half-open: a density in [[low, high)] is
    interpolated in its own band, so a density on a boundary takes the low
    end of the higher band (12 gives raw 0.2, reported as 0.8); a density at
    or above 67 matches no band, the raw level is [float("inf")], and that
    value is returned as it is, without the reversal [1.0 - raw].  All of
    it holds of the method: when the jam check does not return, a density
    of the band [[low, high)] makes it return [1.0 - raw] for the
    interpolation of that band, a density on the boundary [low] makes it
    return [1.0 - m] for the low end [m] of the band above (0.8 at 12), and
    a density at or above 67 makes it return [float("inf")]. *)
Theorem los_bands_half_open :
  los_lookup ranges 12%float = Some 0.2%float
  ∧ reverse_los 0.2%float = 0.8%float
  ∧ los_lookup ranges 20%float = Some 0.4%float
  ∧ los_lookup ranges 30%float = Some 0.6%float
  ∧ los_lookup ranges 42%float = Some 0.8%float
  ∧ (∀ low high m n d,
       ((low, high), (m, n)) ∈ ranges →
       PrimFloat.leb low d = true →
       PrimFloat.ltb d high = true →
       los_lookup ranges d
       = Some (PrimFloat.add m
                 (PrimFloat.div (PrimFloat.mul (PrimFloat.sub d low) 0.2%float)
                                (PrimFloat.sub high low))))
  ∧ (∀ d, PrimFloat.leb 67%float d = true → los_lookup ranges d = Some float_inf)
  ∧ reverse_los float_inf = float_inf
  ∧ (∀ los, PrimFloat.eqb los float_inf = false →
            reverse_los los = PrimFloat.sub 1.0%float los)
  ∧ (∀ classes gv datetime segment vehicle_id vehicle_offset_m tolerance
       limit_vehicle_count d,
       n_vehicles_per_mile
         (load_ahead classes gv datetime (Segment.id segment) tolerance
                     vehicle_id vehicle_offset_m).1.1
         (Segment.length segment) vehicle_offset_m (Segment.lanes segment) = Some d →
       PrimFloat.leb 67%float d = true →
       level_of_service_in_front_of_vehicle classes gv datetime segment vehicle_id
         vehicle_offset_m tolerance limit_vehicle_count = Some float_inf)
  ∧ (∀ classes gv datetime segment vehicle_id vehicle_offset_m tolerance
       limit_vehicle_count,
       let la := load_ahead classes gv datetime (Segment.id segment) tolerance
                            vehicle_id vehicle_offset_m in
       let density :=
         n_vehicles_per_mile la.1.1 (Segment.length segment) vehicle_offset_m
                             (Segment.lanes segment) in
       let returned :=
         level_of_service_in_front_of_vehicle classes gv datetime segment vehicle_id
           vehicle_offset_m tolerance limit_vehicle_count in
       limit_vehicle_count
       && PrimFloat.eqb vehicle_offset_m 0%float
       && PrimFloat.leb 10%float (Segment.length segment)
       && PrimFloat.ltb (PrimFloat.sub (Segment.length segment) vehicle_offset_m) la.1.2
       = false →
       (∀ low high m n d,
          density = Some d →
          ((low, high), (m, n)) ∈ ranges →
          PrimFloat.leb low d = true →
          PrimFloat.ltb d high = true →
          returned
          = Some (PrimFloat.sub 1.0%float
                    (PrimFloat.add m
                       (PrimFloat.div (PrimFloat.mul (PrimFloat.sub d low) 0.2%float)
                                      (PrimFloat.sub high low)))))
       ∧ (∀ low high m n,
            density = Some low →
            ((low, high), (m, n)) ∈ ranges →
            returned = Some (PrimFloat.sub 1.0%float m))
       ∧ (density = Some 12%float → returned = Some 0.8%float)
       ∧ (density = Some 20%float → returned = Some 0.6%float)
       ∧ (density = Some 30%float → returned = Some 0.4%float)
       ∧ (density = Some 42%float → returned = Some (PrimFloat.sub 1.0 0.8)%float)).
Proof.
  split_and!; try reflexivity.
  - apply los_lookup_band.
  - apply los_lookup_above.
  - intros los Hlos. unfold reverse_los. by rewrite Hlos.
  - intros classes gv datetime segment vehicle_id vehicle_offset_m tolerance
      limit_vehicle_count d Hn Hd.
    rewrite level_of_service_unfold. cbn zeta.
    destruct (_ && _); [done|].
    rewrite Hn. cbn [mbind option_bind]. by rewrite los_lookup_above.
  - intros classes gv datetime segment vehicle_id vehicle_offset_m tolerance
      limit_vehicle_count la density returned Hjam.
    assert (∀ low high m n,
              density = Some low → ((low, high), (m, n)) ∈ ranges →
              returned = Some (PrimFloat.sub 1.0%float m)) as Hedge.
    { intros low high m n Hn Hband. subst returned.
      pose proof Hband as Hcases. unfold ranges in Hcases.
      repeat (apply elem_of_cons in Hcases as [[= -> -> -> ->]|Hcases];
              [by rewrite (level_of_service_in_band _ _ _ _ _ _ _ _ _ _ _ _ _ Hjam Hn Hband)|]).
      by apply elem_of_nil in Hcases. }
    split_and!.
    + intros low high m n d. by apply level_of_service_in_band.
    + done.
    + intros Hn. apply (Hedge 12 20 0.2 0.4)%float; [done|]. unfold ranges. set_solver.
    + intros Hn. apply (Hedge 20 30 0.4 0.6)%float; [done|]. unfold ranges. set_solver.
    + intros Hn. apply (Hedge 30 42 0.6 0.8)%float; [done|]. unfold ranges. set_solver.
    + intros Hn. apply (Hedge 42 67 0.8 1.0)%float; [done|]. unfold ranges. set_solver.
Qed.

End level_of_service_range.

(** * Further properties

    What the methods do beyond the statements of the specification: how
    they compose, what every reachable index satisfies, and where the level
    of service is free, raises, stays within its band or can only fall. *)

(** ** Retention, ingestion and the reachable indexes *)

Section index_composition.
Context {SegmentId : Type} `{Countable SegmentId}.
Implicit Types (gv : GlobalView SegmentId) (fcd : FCDRecord.t SegmentId).

Lemma global_view_eq gv gv' :
  fcd_by_segment gv = fcd_by_segment gv' →
  car_to_segment gv = car_to_segment gv' →
  modified_segments gv = modified_segments gv' →
  gv = gv'.
Proof. destruct gv, gv'. simpl. by intros -> -> ->. Qed.

Lemma filter_length_neq {A} (P : A → Prop) `{!∀ x, Decision (P x)} (l : list A) :
  length (filter P l) ≠ length l ↔ ∃ x, x ∈ l ∧ ¬ P x.
Proof.
  induction l as [|a l IH].
  - split; [done|]. intros (x & Hx & _). by apply elem_of_nil in Hx.
  - destruct (decide (P a)) as [Ha|Ha].
    + rewrite filter_cons_True by done. simpl.
      split.
      * intros Hlen. destruct (proj1 IH) as (x & Hx & Hnx); [lia|].
        exists x. split; [by apply elem_of_cons; right|done].
      * intros (x & [->|Hx]%elem_of_cons & Hnx); [done|].
        assert (length (filter P l) ≠ length l) by (apply IH; eauto). lia.
    + rewrite filter_cons_False by done. simpl. split.
      * intros _. exists a. split; [by apply elem_of_cons; left|done].
      * intros _. pose proof (length_filter P l). lia.
Qed.

Lemma filter_all {A} (P : A → Prop) `{!∀ x, Decision (P x)} (l : list A) :
  (∀ x, x ∈ l → P x) → filter P l = l.
Proof.
  induction l as [|a l IH]; intros Hall; [done|].
  rewrite filter_cons_True by (apply Hall, elem_of_cons; by left).
  f_equal. apply IH. intros x Hx. apply Hall, elem_of_cons. by right.
Qed.

Lemma drop_old_fcd_by_segment dt_threshold gv :
  fcd_by_segment (drop_old dt_threshold gv)
  = filter (λ fcd, (dt_threshold ≤ FCDRecord.datetime fcd)%Z) <$> fcd_by_segment gv.
Proof.
  apply map_eq. intros s. rewrite lookup_fmap.
  apply (proj1 (drop_old_spec dt_threshold gv)).
Qed.

Lemma drop_old_modified_elem dt_threshold gv s :
  s ∈ modified_segments (drop_old dt_threshold gv) ↔
  s ∈ modified_segments gv
  ∨ ∃ fcd, fcd ∈ observations gv s ∧ (FCDRecord.datetime fcd < dt_threshold)%Z.
Proof.
  rewrite drop_old_modified, drop_old_observations, filter_length_neq.
  split; intros [?|(fcd & ? & ?)]; auto; right; exists fcd; split; auto; lia.
Qed.

(** X1.  Retention composes: dropping below [t1] and then below a later
    [t2] leaves the index exactly as dropping below [t2] at once does, the
    set of modified segments included.  With [t1 = t2]: [drop_old] is
    idempotent. *)
Theorem drop_old_compose (t1 t2 : Z) gv :
  (t1 ≤ t2)%Z →
  drop_old t2 (drop_old t1 gv) = drop_old t2 gv.
Proof.
  intros Ht. apply global_view_eq.
  - rewrite !drop_old_fcd_by_segment. rewrite <- map_fmap_compose.
    apply map_fmap_ext. intros s fcds _. simpl.
    induction fcds as [|fcd fcds IH]; [done|].
    destruct (decide (t1 ≤ FCDRecord.datetime fcd)%Z) as [H1|H1].
    + rewrite (filter_cons_True (λ fcd, (t1 ≤ FCDRecord.datetime fcd)%Z)) by done.
      destruct (decide (t2 ≤ FCDRecord.datetime fcd)%Z) as [H2|H2].
      * rewrite !(filter_cons_True (λ fcd, (t2 ≤ FCDRecord.datetime fcd)%Z)) by done.
        by f_equal.
      * by rewrite !(filter_cons_False (λ fcd, (t2 ≤ FCDRecord.datetime fcd)%Z)) by done.
    + rewrite (filter_cons_False (λ fcd, (t1 ≤ FCDRecord.datetime fcd)%Z)) by done.
      rewrite (filter_cons_False (λ fcd, (t2 ≤ FCDRecord.datetime fcd)%Z)) by lia.
      done.
  - by rewrite !(proj1 (proj2 (drop_old_spec _ _))).
  - apply set_eq. intros s. rewrite !drop_old_modified_elem.
    setoid_rewrite drop_old_observations. setoid_rewrite list_elem_of_filter.
    split.
    + intros [[?|(fcd & ? & ?)]|(fcd & [? ?] & ?)]; auto;
        right; exists fcd; split; auto; lia.
    + intros [?|(fcd & ? & ?)]; auto.
      destruct (decide (t1 ≤ FCDRecord.datetime fcd)%Z).
      * right. exists fcd. auto.
      * left. right. exists fcd. split; auto. lia.
Qed.

(** X2.  [drop_old t] changes nothing, and marks no segment modified,
    exactly when no stored observation is older than [t]. *)
Theorem drop_old_unchanged (dt_threshold : Z) gv :
  drop_old dt_threshold gv = gv ↔
  ∀ s fcd, fcd ∈ observations gv s → (dt_threshold ≤ FCDRecord.datetime fcd)%Z.
Proof.
  split.
  - intros Heq s fcd Hfcd. rewrite <- Heq, drop_old_observations in Hfcd.
    by apply list_elem_of_filter in Hfcd as [? _].
  - intros Hall. apply global_view_eq.
    + rewrite drop_old_fcd_by_segment. apply map_eq. intros s.
      rewrite lookup_fmap. destruct (fcd_by_segment gv !! s) as [fcds|] eqn:Hs; [|done].
      simpl. f_equal. apply filter_all.
      intros fcd Hfcd. apply (Hall s). unfold observations. by rewrite Hs.
    + apply (drop_old_spec dt_threshold gv).
    + apply set_eq. intros s. rewrite drop_old_modified_elem. split; [|auto].
      intros [?|(fcd & Hfcd & Hlt)]; [done|]. apply (Hall s) in Hfcd. lia.
Qed.

Lemma add_fcd_by_segment fcd gv :
  fcd_by_segment (add fcd gv)
  = <[Segment.id (FCDRecord.segment fcd) :=
        observations gv (Segment.id (FCDRecord.segment fcd)) ++ [fcd]]> (fcd_by_segment gv).
Proof.
  unfold add, fcd_by_segment_getitem, observations.
  destruct (fcd_by_segment gv !! Segment.id (FCDRecord.segment fcd)) as [fcds|] eqn:Hs;
    simpl.
  - destruct (car_to_segment gv !! FCDRecord.vehicle_id fcd); [case_decide|]; done.
  - rewrite insert_insert_eq.
    destruct (car_to_segment gv !! FCDRecord.vehicle_id fcd); [case_decide|]; done.
Qed.

(** X3.  Two [add]s of different vehicles on different segments commute:
    the index is the same in either order. *)
Theorem add_commute (fcd1 fcd2 : FCDRecord.t SegmentId) gv :
  Segment.id (FCDRecord.segment fcd1) ≠ Segment.id (FCDRecord.segment fcd2) →
  FCDRecord.vehicle_id fcd1 ≠ FCDRecord.vehicle_id fcd2 →
  add fcd1 (add fcd2 gv) = add fcd2 (add fcd1 gv).
Proof.
  intros Hs Hv. apply global_view_eq.
  - rewrite !add_fcd_by_segment, !add_observations.
    rewrite decide_False by done. rewrite (decide_False (P := _ = _)) by done.
    by apply insert_insert_ne.
  - rewrite !add_car_to_segment. by apply insert_insert_ne.
  - rewrite !add_modified_segments, !add_car_to_segment.
    rewrite lookup_insert_ne by done. rewrite (lookup_insert_ne _ (FCDRecord.vehicle_id fcd1)) by done.
    set_solver.
Qed.

(** ** What every reachable index satisfies *)

Lemma take_segment_speeds_loop_store gv :
  modified_segments gv ⊆ dom (fcd_by_segment gv) →
  (take_segment_speeds_loop gv).2 = gv.
Proof.
  unfold take_segment_speeds_loop.
  pose (P := λ (acc : gmap SegmentId (option float) * GlobalView SegmentId)
               (X : gset SegmentId),
    X ⊆ dom (fcd_by_segment gv) → acc.2 = gv).
  apply (set_fold_ind_L P); subst P; simpl; [done|].
  intros x X [speeds g] Hx IH Hsub. simpl in *.
  rewrite IH by set_solver.
  destruct (get_segment_speed x gv) as [v g'] eqn:Hcall. simpl.
  change g' with (v, g').2. rewrite <- Hcall, get_segment_speed_snd.
  assert (x ∈ dom (fcd_by_segment gv)) as [fcds Hfcds]%elem_of_dom by set_solver.
  unfold fcd_by_segment_getitem. by rewrite Hfcds.
Qed.

(** X4.  In every reachable index an observation is filed under the id of
    its own segment, and its vehicle has a current segment on record. *)
Theorem reachable_filed gv :
  reachable gv →
  ∀ s fcd, fcd ∈ observations gv s →
    Segment.id (FCDRecord.segment fcd) = s
    ∧ is_Some (car_to_segment gv !! FCDRecord.vehicle_id fcd).
Proof.
  induction 1 as [|fcd0 gv Hgv IH|t gv Hgv IH|s0 gv Hgv IH|gv Hgv IH]; intros s fcd.
  - unfold observations. simpl. rewrite lookup_empty. simpl. by intros ?%elem_of_nil.
  - rewrite add_observations, add_car_to_segment. case_decide as Hs.
    + intros [Hin| ->%list_elem_of_singleton]%elem_of_app.
      * destruct (IH s fcd Hin) as [? ?]. split; [done|].
        rewrite lookup_insert_is_Some. destruct (decide (FCDRecord.vehicle_id fcd0 = FCDRecord.vehicle_id fcd)); auto.
      * split; [done|]. rewrite lookup_insert_eq. by eexists.
    + intros Hin. destruct (IH s fcd Hin) as [? ?]. split; [done|].
      rewrite lookup_insert_is_Some. destruct (decide (FCDRecord.vehicle_id fcd0 = FCDRecord.vehicle_id fcd)); auto.
  - rewrite drop_old_observations, (proj1 (proj2 (drop_old_spec t gv))).
    intros [_ Hin]%list_elem_of_filter. by apply IH.
  - rewrite get_segment_speed_snd, getitem_snd_observations, getitem_snd_car. apply IH.
  - rewrite take_segment_speeds_eq. simpl.
    destruct (take_segment_speeds_loop_spec gv) as (_ & _ & Hobs & Hcar & _).
    change (observations (with_modified_segments ∅ (take_segment_speeds_loop gv).2) s)
      with (observations (take_segment_speeds_loop gv).2 s).
    rewrite Hobs, Hcar. apply IH.
Qed.

Lemma reachable_dom gv :
  reachable gv →
  modified_segments gv ⊆ dom (fcd_by_segment gv)
  ∧ ∀ v s, car_to_segment gv !! v = Some s → s ∈ dom (fcd_by_segment gv).
Proof.
  induction 1 as [|fcd0 gv Hgv [IHm IHc]|t gv Hgv [IHm IHc]|s0 gv Hgv [IHm IHc]
                  |gv Hgv [IHm IHc]].
  - split; [set_solver|]. simpl. intros v s. by rewrite lookup_empty.
  - rewrite add_fcd_by_segment, add_modified_segments, add_car_to_segment, dom_insert_L.
    split.
    + destruct (car_to_segment gv !! FCDRecord.vehicle_id fcd0) as [old|] eqn:Hold.
      * apply IHc in Hold. set_solver.
      * set_solver.
    + intros v s. rewrite lookup_insert_Some. intros [[_ <-]|[_ Hv]]; [set_solver|].
      apply IHc in Hv. set_solver.
  - assert (dom (fcd_by_segment (drop_old t gv)) = dom (fcd_by_segment gv)) as ->
      by (rewrite drop_old_fcd_by_segment; apply dom_fmap_L).
    rewrite (proj1 (proj2 (drop_old_spec t gv))). split; [|done].
    intros s. rewrite drop_old_modified_elem. intros [Hs|(fcd & Hfcd & _)]; [by apply IHm|].
    unfold observations in Hfcd. apply elem_of_dom.
    destruct (fcd_by_segment gv !! s); [by eexists|]. by apply elem_of_nil in Hfcd.
  - rewrite get_segment_speed_snd, getitem_snd_map, getitem_snd_modified, getitem_snd_car.
    destruct (fcd_by_segment gv !! s0); [done|]. rewrite dom_insert_L. split.
    + set_solver.
    + intros v s Hv. apply IHc in Hv. set_solver.
  - rewrite take_segment_speeds_eq. simpl. split; [set_solver|].
    rewrite take_segment_speeds_loop_store by done. done.
Qed.

(** X5.  In every reachable index the modified segments and the current
    segments of the vehicles are keys of the store; so a drain creates no
    key: all it changes is the modified set, which it empties. *)
Theorem reachable_drain_clears gv :
  reachable gv →
  modified_segments gv ⊆ dom (fcd_by_segment gv)
  ∧ (∀ v s, car_to_segment gv !! v = Some s → s ∈ dom (fcd_by_segment gv))
  ∧ (take_segment_speeds gv).2 = with_modified_segments ∅ gv.
Proof.
  intros [Hm Hc]%reachable_dom. split_and!; [done..|].
  rewrite take_segment_speeds_eq. simpl. by rewrite take_segment_speeds_loop_store.
Qed.

(** ** The order of ingestion *)

Lemma sorted_perm_unique {A} (key : A → Z) (l1 l2 : list A) :
  StronglySorted (λ a b, (key a ≤ key b)%Z) l1 →
  StronglySorted (λ a b, (key a ≤ key b)%Z) l2 →
  l1 ≡ₚ l2 →
  NoDup (key <$> l1) →
  l1 = l2.
Proof.
  intros Hs1. revert l2. induction Hs1 as [|a l1 Hs1 IH Ha]; intros l2 Hs2 Hp Hnd.
  - by apply Permutation_nil_l in Hp.
  - destruct Hs2 as [|b l2 Hs2 Hb].
    { by apply Permutation_nil_r in Hp. }
    rewrite fmap_cons in Hnd. apply NoDup_cons in Hnd as [Hna Hnd].
    assert (a = b) as <-.
    { assert (a ∈ b :: l2) as [?|Hal2]%elem_of_cons by (rewrite <- Hp; by left); [done|].
      assert (b ∈ a :: l1) as [?|Hbl1]%elem_of_cons by (rewrite Hp; by left); [done|].
      rewrite Forall_forall in Ha, Hb.
      pose proof (Ha b Hbl1). pose proof (Hb a Hal2).
      destruct Hna. replace (key a) with (key b) by lia.
      by apply list_elem_of_fmap_2. }
    f_equal. apply IH; [done| |done]. by apply Permutation_cons_inv in Hp.
Qed.

(** X6.  When the timestamps stored for a segment are pairwise distinct,
    the speed of the segment does not depend on the order in which the
    observations were ingested: two stores holding the same observations,
    in any two orders, give the same result. *)
Theorem get_segment_speed_order_free s gv s' gv' :
  observations gv s ≡ₚ observations gv' s' →
  NoDup (FCDRecord.datetime <$> observations gv s) →
  (get_segment_speed s gv).1 = (get_segment_speed s' gv').1.
Proof.
  intros Hp Hnd. rewrite !get_segment_speed_fst.
  assert (list_sort FCDRecord.datetime (observations gv s)
          = list_sort FCDRecord.datetime (observations gv' s')) as Hsort.
  { apply (sorted_perm_unique FCDRecord.datetime).
    - apply list_sort_sorted.
    - apply list_sort_sorted.
    - by rewrite !list_sort_perm.
    - by rewrite list_sort_perm. }
  rewrite Hsort.
  destruct (observations gv s) as [|a l], (observations gv' s') as [|a' l']; try done.
  - by apply Permutation_nil_l in Hp.
  - by apply Permutation_nil_r in Hp.
Qed.

End index_composition.

(** ** The load ahead under the other operations *)

Section load_ahead_composition.
Context {SegmentId : Type} `{Countable SegmentId}.
Implicit Types (gv : GlobalView SegmentId) (fcd : FCDRecord.t SegmentId).
Implicit Types (classes : VehicleClasses.t) (segment : Segment.t SegmentId).

(** The loop of [load_ahead] on the counted observations alone. *)
Lemma load_ahead_snd classes gv datetime segment_id tolerance vehicle_id vehicle_offset_m :
  (load_ahead classes gv datetime segment_id tolerance vehicle_id vehicle_offset_m).2
  = foldl (λ va fcd,
             if negb (OrderedDict.mem (FCDRecord.vehicle_id fcd) va)
             then OrderedDict.set (FCDRecord.vehicle_id fcd)
                    (VehicleClasses.get classes (FCDRecord.vehicle_type fcd)) va
             else va)
          []
          (filter (counts_ahead datetime (default 0%Z tolerance) vehicle_id vehicle_offset_m)
                  (observations gv segment_id)).
Proof.
  unfold load_ahead. simpl.
  rewrite (foldl_ext _
    (λ va fcd,
       if bool_decide (counts_ahead datetime (default 0%Z tolerance) vehicle_id
                                    vehicle_offset_m fcd)
       then (λ va fcd,
               if negb (OrderedDict.mem (FCDRecord.vehicle_id fcd) va)
               then OrderedDict.set (FCDRecord.vehicle_id fcd)
                      (VehicleClasses.get classes (FCDRecord.vehicle_type fcd)) va
               else va) va fcd
       else va))
    by (intros; apply load_ahead_step_counts).
  by rewrite foldl_filter.
Qed.

Lemma load_ahead_eta classes gv datetime segment_id tolerance vehicle_id vehicle_offset_m :
  load_ahead classes gv datetime segment_id tolerance vehicle_id vehicle_offset_m
  = let va := (load_ahead classes gv datetime segment_id tolerance vehicle_id
                          vehicle_offset_m).2 in
    (py_sum (VehicleParams.pcu <$> OrderedDict.values va),
     py_sum ((λ p, PrimFloat.add (VehicleParams.length_m p) (VehicleParams.standstill_gap_m p))
               <$> OrderedDict.values va),
     va).
Proof. reflexivity. Qed.

Lemma load_ahead_ext classes gv gv' datetime datetime' segment_id segment_id'
    tolerance tolerance' vehicle_id vehicle_id' vehicle_offset_m vehicle_offset_m' :
  filter (counts_ahead datetime (default 0%Z tolerance) vehicle_id vehicle_offset_m)
         (observations gv segment_id)
  = filter (counts_ahead datetime' (default 0%Z tolerance') vehicle_id' vehicle_offset_m')
           (observations gv' segment_id') →
  load_ahead classes gv datetime segment_id tolerance vehicle_id vehicle_offset_m
  = load_ahead classes gv' datetime' segment_id' tolerance' vehicle_id' vehicle_offset_m'.
Proof.
  intros Heq. rewrite load_ahead_eta, (load_ahead_eta _ gv').
  by rewrite !load_ahead_snd, Heq.
Qed.

Lemma level_of_service_ext classes gv gv' datetime datetime' segment vehicle_id vehicle_id'
    vehicle_offset_m tolerance tolerance' limit_vehicle_count :
  load_ahead classes gv datetime (Segment.id segment) tolerance vehicle_id vehicle_offset_m
  = load_ahead classes gv' datetime' (Segment.id segment) tolerance' vehicle_id'
               vehicle_offset_m →
  level_of_service_in_front_of_vehicle classes gv datetime segment vehicle_id
    vehicle_offset_m tolerance limit_vehicle_count
  = level_of_service_in_front_of_vehicle classes gv' datetime' segment vehicle_id'
      vehicle_offset_m tolerance' limit_vehicle_count.
Proof. intros Heq. by rewrite !level_of_service_unfold, Heq. Qed.

Lemma load_ahead_keys_elem classes gv datetime segment_id tolerance vehicle_id
    vehicle_offset_m v :
  (v ∈ OrderedDict.keys
         (load_ahead classes gv datetime segment_id tolerance vehicle_id vehicle_offset_m).2)
  ↔ ∃ fcd, fcd ∈ observations gv segment_id
           ∧ counts_ahead datetime (default 0%Z tolerance) vehicle_id vehicle_offset_m fcd
           ∧ FCDRecord.vehicle_id fcd = v.
Proof.
  rewrite (proj1 (load_ahead_vehicles classes gv datetime segment_id tolerance
                    vehicle_id vehicle_offset_m)).
  rewrite first_occurrences_elem_of, list_elem_of_fmap.
  setoid_rewrite list_elem_of_filter. naive_solver.
Qed.

(** X7.  [load_ahead] counts each vehicle once: the keys of
    [vehicles_ahead] are pairwise distinct; they are exactly the vehicles,
    other than the reference vehicle, with an observation of the segment in
    the time window strictly further along than the reference offset; the
    reference vehicle is never among them; and the parameters stored for a
    vehicle are those of the class of its first such observation. *)
Theorem load_ahead_counts_once classes gv datetime segment_id tolerance vehicle_id
    vehicle_offset_m :
  let counted :=
    filter (counts_ahead datetime (default 0%Z tolerance) vehicle_id vehicle_offset_m)
           (observations gv segment_id) in
  let vehicles_ahead :=
    (load_ahead classes gv datetime segment_id tolerance vehicle_id vehicle_offset_m).2 in
  NoDup (OrderedDict.keys vehicles_ahead)
  ∧ (vehicle_id ∉ OrderedDict.keys vehicles_ahead)
  ∧ (∀ v, (v ∈ OrderedDict.keys vehicles_ahead) ↔
          ∃ fcd, fcd ∈ observations gv segment_id
                 ∧ in_window datetime (default 0%Z tolerance) fcd
                 ∧ FCDRecord.vehicle_id fcd ≠ vehicle_id
                 ∧ PrimFloat.ltb vehicle_offset_m (FCDRecord.start_offset fcd) = true
                 ∧ FCDRecord.vehicle_id fcd = v)
  ∧ (∀ v, OrderedDict.get v vehicles_ahead
          = (λ fcd, VehicleClasses.get classes (FCDRecord.vehicle_type fcd))
              <$> head (filter (λ fcd, FCDRecord.vehicle_id fcd = v) counted))
  ∧ length vehicles_ahead
    = length (first_occurrences (FCDRecord.vehicle_id <$> counted)).
Proof.
  intros counted vehicles_ahead.
  destruct (load_ahead_vehicles classes gv datetime segment_id tolerance
              vehicle_id vehicle_offset_m) as [Hkeys Hget].
  fold counted vehicles_ahead in Hkeys, Hget.
  split_and!.
  - rewrite Hkeys. apply first_occurrences_NoDup.
  - subst vehicles_ahead. rewrite load_ahead_keys_elem.
    intros (fcd & _ & (_ & Hne & _) & Hv). done.
  - intros v. subst vehicles_ahead. rewrite load_ahead_keys_elem.
    unfold counts_ahead. naive_solver.
  - done.
  - rewrite <- Hkeys. unfold OrderedDict.keys. by rewrite length_fmap.
Qed.

Lemma SFleb_SFltb_trans x y z :
  SFleb x y = true → SFltb y z = true → SFltb x z = true.
Proof.
  unfold SFltb, SFleb.
  destruct x as [sx|sx| |sx mx ex], y as [sy|sy| |sy my ey], z as [sz|sz| |sz mz ez];
    simpl; try (repeat match goal with b : bool |- _ => destruct b end; simpl; congruence).
  destruct sx, sy, sz; simpl; try congruence;
    repeat match goal with
    | |- context [(?a ?= ?b)%Z] => destruct (Z.compare_spec a b)
    | |- context [Pos.compare_cont Eq ?a ?b] =>
        change (Pos.compare_cont Eq a b) with (Pos.compare a b);
        destruct (Pos.compare_spec a b)
    end; simpl; try congruence; try lia.
Qed.

Lemma float_leb_ltb_trans (x y z : float) :
  PrimFloat.leb x y = true → PrimFloat.ltb y z = true → PrimFloat.ltb x z = true.
Proof. rewrite !FloatAxioms.ltb_spec, FloatAxioms.leb_spec. apply SFleb_SFltb_trans. Qed.

(** X8.  A wider time window, or a reference offset further back, never
    loses a vehicle: every vehicle counted with tolerance [tolerance] ahead
    of [vehicle_offset_m] is counted with any [tolerance' >= tolerance]
    ahead of any [vehicle_offset_m' <= vehicle_offset_m]. *)
Theorem load_ahead_monotone classes gv datetime segment_id (tolerance tolerance' : Z)
    vehicle_id (vehicle_offset_m vehicle_offset_m' : float) v :
  (tolerance ≤ tolerance')%Z →
  PrimFloat.leb vehicle_offset_m' vehicle_offset_m = true →
  v ∈ OrderedDict.keys
        (load_ahead classes gv datetime segment_id (Some tolerance) vehicle_id
                    vehicle_offset_m).2 →
  v ∈ OrderedDict.keys
        (load_ahead classes gv datetime segment_id (Some tolerance') vehicle_id
                    vehicle_offset_m').2.
Proof.
  intros Htol Hoff. rewrite !load_ahead_keys_elem. simpl.
  intros (fcd & Hfcd & ([Hlo Hhi] & Hne & Hahead) & Hv).
  exists fcd. split_and!; try done.
  split_and!; [unfold in_window; lia|done|].
  by apply (float_leb_ltb_trans _ vehicle_offset_m).
Qed.

Lemma dict_set_new {V} (k : Z) (v : V) (d : list (Z * V)) :
  k ∉ OrderedDict.keys d → OrderedDict.set k v d = d ++ [(k, v)].
Proof.
  unfold OrderedDict.keys. induction d as [|[k0 v0] d IH]; csimpl; [done|].
  intros [Hne Hd]%not_elem_of_cons.
  rewrite decide_False by done. by rewrite IH.
Qed.

(** X9.  What one more [add] does to the load ahead on a segment.  An
    observation of another segment, one that does not count (outside the
    window, of the reference vehicle, or not ahead of the offset), or one of
    a vehicle already counted changes neither the totals nor the level of
    service: a vehicle seen again is not counted twice.  A counted
    observation of a new vehicle appends that vehicle, with the parameters
    of its class, to [vehicles_ahead]. *)
Theorem load_ahead_add classes gv fcd datetime segment tolerance vehicle_id
    vehicle_offset_m limit_vehicle_count :
  let la := load_ahead classes gv datetime (Segment.id segment) tolerance vehicle_id
                       vehicle_offset_m in
  let la' := load_ahead classes (add fcd gv) datetime (Segment.id segment) tolerance
                        vehicle_id vehicle_offset_m in
  let counts :=
    Segment.id (FCDRecord.segment fcd) = Segment.id segment
    ∧ counts_ahead datetime (default 0%Z tolerance) vehicle_id vehicle_offset_m fcd in
  (¬ counts ∨ FCDRecord.vehicle_id fcd ∈ OrderedDict.keys la.2 →
   la' = la
   ∧ level_of_service_in_front_of_vehicle classes (add fcd gv) datetime segment vehicle_id
       vehicle_offset_m tolerance limit_vehicle_count
     = level_of_service_in_front_of_vehicle classes gv datetime segment vehicle_id
         vehicle_offset_m tolerance limit_vehicle_count)
  ∧ (counts → FCDRecord.vehicle_id fcd ∉ OrderedDict.keys la.2 →
     la'.2 = la.2 ++ [(FCDRecord.vehicle_id fcd,
                       VehicleClasses.get classes (FCDRecord.vehicle_type fcd))]).
Proof.
  intros la la' counts. subst la la' counts.
  assert (∀ (P : FCDRecord.t SegmentId → Prop) `{!∀ x, Decision (P x)},
            filter P (observations (add fcd gv) (Segment.id segment))
            = if decide (Segment.id (FCDRecord.segment fcd) = Segment.id segment ∧ P fcd)
              then filter P (observations gv (Segment.id segment)) ++ [fcd]
              else filter P (observations gv (Segment.id segment))) as Hfilter.
  { intros P HP. rewrite add_observations.
    destruct (decide (Segment.id segment = Segment.id (FCDRecord.segment fcd))) as [Hs|Hs].
    - rewrite filter_app, filter_cons, filter_nil.
      destruct (decide (P fcd)).
      + by rewrite decide_True.
      + rewrite decide_False by tauto. by rewrite app_nil_r.
    - rewrite decide_False; [done|]. intros [? _]. congruence. }
  split.
  - intros Hcase.
    cut (load_ahead classes (add fcd gv) datetime (Segment.id segment) tolerance vehicle_id
                    vehicle_offset_m
         = load_ahead classes gv datetime (Segment.id segment) tolerance vehicle_id
                      vehicle_offset_m).
    { intros Heq. split; [done|]. by apply level_of_service_ext. }
    rewrite load_ahead_eta, (load_ahead_eta _ gv). cbv zeta.
    cut ((load_ahead classes (add fcd gv) datetime (Segment.id segment) tolerance vehicle_id
                     vehicle_offset_m).2
         = (load_ahead classes gv datetime (Segment.id segment) tolerance vehicle_id
                       vehicle_offset_m).2).
    { by intros ->. }
    rewrite load_ahead_snd, Hfilter.
    destruct (decide (_ ∧ _)) as [Hc|Hc]; [|by rewrite load_ahead_snd].
    destruct Hcase as [Hn|Hin]; [by destruct Hn|].
    rewrite foldl_app. simpl. rewrite <- load_ahead_snd.
    by rewrite dict_mem_keys, bool_decide_eq_true_2.
  - intros Hc Hnew.
    rewrite (load_ahead_snd _ (add fcd gv)), Hfilter, decide_True by done.
    rewrite foldl_app. simpl. rewrite <- load_ahead_snd.
    rewrite dict_mem_keys, bool_decide_eq_false_2 by done. simpl.
    by apply dict_set_new.
Qed.

(** X10.  Retention below the window is invisible to the level of
    service: after [drop_old t] with [t] no later than the start
    [datetime - tolerance] of the window, [load_ahead] and the level of
    service return what they returned before. *)
Theorem load_ahead_drop_old classes gv (dt_threshold : Z) datetime segment tolerance
    vehicle_id vehicle_offset_m limit_vehicle_count :
  (dt_threshold ≤ datetime - default 0 tolerance)%Z →
  load_ahead classes (drop_old dt_threshold gv) datetime (Segment.id segment) tolerance
             vehicle_id vehicle_offset_m
  = load_ahead classes gv datetime (Segment.id segment) tolerance vehicle_id vehicle_offset_m
  ∧ level_of_service_in_front_of_vehicle classes (drop_old dt_threshold gv) datetime
      segment vehicle_id vehicle_offset_m tolerance limit_vehicle_count
    = level_of_service_in_front_of_vehicle classes gv datetime segment vehicle_id
        vehicle_offset_m tolerance limit_vehicle_count.
Proof.
  intros Ht.
  assert (load_ahead classes (drop_old dt_threshold gv) datetime (Segment.id segment)
                     tolerance vehicle_id vehicle_offset_m
          = load_ahead classes gv datetime (Segment.id segment) tolerance vehicle_id
                       vehicle_offset_m) as Heq.
  { apply load_ahead_ext. rewrite drop_old_observations, list_filter_filter.
    apply list_filter_iff. intros fcd. unfold counts_ahead, in_window. naive_solver lia. }
  split; [done|]. by apply level_of_service_ext.
Qed.

End load_ahead_composition.

(** ** Rounding away from zero and the edges of the level of service *)

Section binary64_normal.
Local Open Scope Z_scope.

(** Away from the least exponent a rounded mantissa keeps its 53 digits:
    the result is a finite number, of exponent at least the one aimed at,
    or an overflow; it is never a zero. *)
Lemma binary_round_aux_normal (m e : Z) (l : location) :
  0 ≤ m →
  e ≤ fexp prec emax (Zdigits2 m + e) →
  -1074 < fexp prec emax (Zdigits2 m + e) →
  binary_round_aux prec emax false m e l = S754_infinity false
  ∨ ∃ m3 e3, binary_round_aux prec emax false m e l = S754_finite false m3 e3
             ∧ fexp prec emax (Zdigits2 m + e) ≤ e3.
Proof.
  intros Hm Hpre Hnorm. unfold binary_round_aux.
  destruct (round_stage1 m e l Hm Hpre) as (He1 & Hm1 & Hfloor & Hin1 & Hub1 & Hn1 & Hlo1).
  destruct (shr_fexp prec emax m e l) as [mrs1 e1].
  simpl in He1, Hm1, Hfloor, Hin1, Hub1, Hn1, Hlo1.
  set (m1 := shr_m mrs1) in *.
  rewrite <- He1 in *.
  specialize (Hn1 Hnorm).
  pose proof (round_stage2 m1 mrs1) as Hm2.
  set (m2 := round_nearest_even m1 (loc_of_shr_record mrs1)) in *.
  assert (m1 ≤ m2 ≤ m1 + 1) as Hm12 by (destruct Hm2 as [->|[-> _]]; lia).
  destruct (round_stage3 m2 e1 ltac:(lia) Hlo1 ltac:(lia))
    as [[Hz Hz3]|(Hm3 & Hval3 & He3 & Hlo3 & Hn3)]; [lia|].
  destruct (shr_fexp prec emax m2 e1 loc_Exact) as [mrs3 e3].
  simpl in Hm3, Hval3, He3, Hlo3, Hn3.
  destruct (shr_m mrs3) as [|m3|m3] eqn:Hm3eq; try lia.
  destruct (e3 <=? emax - prec); [right|by left].
  by exists m3, e3.
Qed.

Lemma binary_round_normal (mx : positive) (ex : Z) :
  -1074 < fexp prec emax (Zpos (digits2_pos mx) + ex) →
  binary_round prec emax false mx ex = S754_infinity false
  ∨ ∃ m3 e3, binary_round prec emax false mx ex = S754_finite false m3 e3
             ∧ fexp prec emax (Zpos (digits2_pos mx) + ex) ≤ e3.
Proof.
  intros Hnorm. unfold binary_round.
  destruct (shl_align_spec mx ex (fexp prec emax (Zpos (digits2_pos mx) + ex))) as [He Hm].
  destruct (shl_align mx ex _) as [mz ez]. simpl in He, Hm.
  assert (Zdigits2 (Zpos mz) + ez = Zpos (digits2_pos mx) + ex) as Hd.
  { rewrite Hm, Zdigits2_shift by lia. change (Zdigits2 (Zpos mx)) with (Zpos (digits2_pos mx)).
    lia. }
  destruct (binary_round_aux_normal (Zpos mz) ez loc_Exact) as [?|(m3 & e3 & ? & ?)].
  - lia.
  - rewrite Hd. lia.
  - by rewrite Hd.
  - by left.
  - right. exists m3, e3. split; [done|]. by rewrite <- Hd.
Qed.

(** The product of two normal numbers that is not too small is an overflow
    or a finite number: not a zero and not a NaN. *)
Lemma SFmul_normal (mx : positive) (ex : Z) (mc : positive) (ec : Z) :
  positioned (Zpos mx) ex → positioned (Zpos mc) ec →
  -1074 < ex → -1074 < ec → -1126 < ex + ec →
  SFmul prec emax (S754_finite false mx ex) (S754_finite false mc ec) = S754_infinity false
  ∨ ∃ m3 e3, SFmul prec emax (S754_finite false mx ex) (S754_finite false mc ec)
             = S754_finite false m3 e3.
Proof.
  intros Hx Hc Hex Hec Hsum. simpl.
  pose proof (SFmul_finite_pre mx ex mc ec Hx Hc) as Hpre.
  destruct Hx as (_ & _ & Hnx). destruct Hc as (_ & _ & Hnc).
  specialize (Hnx Hex). specialize (Hnc Hec).
  assert (104 < Zdigits2 (Zpos (mx * mc))) as Hd.
  { apply Zdigits2_lower; [lia|]. rewrite Pos2Z.inj_mul.
    change (2 ^ 104) with (2 ^ 52 * 2 ^ 52). nia. }
  destruct (binary_round_aux_normal (Zpos (mx * mc)) (ex + ec) loc_Exact)
    as [?|(m3 & e3 & ? & _)]; [lia|done| |by left|right; by exists m3, e3].
  rewrite fexp64_eq. lia.
Qed.

(** The conversion of a positive integer below [2^63] is a positive finite
    number, of exponent [-52] at least. *)
Lemma binary_normalize_int (z : Z) :
  0 < z < 2 ^ 63 →
  ∃ m e, binary_normalize prec emax z 0 false = S754_finite false m e ∧ -52 ≤ e.
Proof.
  intros Hz. destruct z as [|p|p]; try lia. simpl.
  pose proof (digits2_pos_bounds p) as [_ Hd].
  assert (0 < Zpos (digits2_pos p)) as Hdpos by lia.
  destruct (binary_round_upper p 0 4503599627370496 11) as [_ Hup]; [lia|done| |].
  { replace 11 with (0 + 11) by lia. rewrite scaled_shift by lia.
    apply scaled_le; [lia|]. change (4503599627370496 * 2 ^ 11) with (2 ^ 63). lia. }
  destruct (binary_round_normal p 0) as [Hinf|(m3 & e3 & Heq & He3)].
  - rewrite fexp64_eq. lia.
  - by rewrite Hinf in Hup.
  - exists m3, e3. split; [done|]. rewrite fexp64_eq in He3. lia.
Qed.

End binary64_normal.


Section level_of_service_edges.
Context {SegmentId : Type} `{Countable SegmentId}.
Implicit Types (gv : GlobalView SegmentId) (fcd : FCDRecord.t SegmentId).
Implicit Types (classes : VehicleClasses.t) (segment : Segment.t SegmentId).

Lemma float_zero_cases (d : float) (s : bool) :
  Prim2SF d = S754_zero s → d = 0%float ∨ d = (-0)%float.
Proof.
  intros Hd. destruct s; [right|left]; apply Prim2SF_inj; by rewrite Hd.
Qed.

Lemma load_ahead_none classes gv datetime segment_id tolerance vehicle_id vehicle_offset_m :
  filter (counts_ahead datetime (default 0%Z tolerance) vehicle_id vehicle_offset_m)
         (observations gv segment_id) = [] →
  load_ahead classes gv datetime segment_id tolerance vehicle_id vehicle_offset_m
  = (0%float, 0%float, []).
Proof.
  intros Hnone. rewrite load_ahead_eta. cbv zeta. by rewrite load_ahead_snd, Hnone.
Qed.

(** At offset zero on a segment of 10 m or more, the available length is
    not below zero: with nothing occupied the jam branch is not taken. *)
Lemma jam_needs_vehicles (segment_length vehicle_offset_m : float) :
  PrimFloat.eqb vehicle_offset_m 0 = true →
  PrimFloat.leb 10 segment_length = true →
  PrimFloat.ltb (segment_length - vehicle_offset_m) 0 = false.
Proof.
  rewrite FloatAxioms.eqb_spec, FloatAxioms.leb_spec, FloatAxioms.ltb_spec,
    FloatAxioms.sub_spec.
  change (Prim2SF 0) with (S754_zero false).
  change (Prim2SF 10) with (S754_finite false 5629499534213120 (-49)).
  destruct (Prim2SF vehicle_offset_m) as [so|so| |so mo eo]; try done;
    try (by destruct so).
  intros _. by destruct (Prim2SF segment_length) as [sl|[]| |[] ml el].
Qed.

Lemma density_of_nothing segment_length vehicle_offset_m segment_lanes (n : float) :
  n_vehicles_per_mile 0 segment_length vehicle_offset_m segment_lanes = Some n →
  n = 0%float ∨ n = (-0)%float
  ∨ (Prim2SF n = S754_nan
     ∧ PrimFloat.ltb (segment_length - vehicle_offset_m) ending_length = false
     ∧ Prim2SF ((segment_length - vehicle_offset_m) * float_of_Z segment_lanes) = S754_nan).
Proof.
  unfold n_vehicles_per_mile, py_truediv. cbv zeta.
  change (0 * mile)%float with 0%float.
  destruct (PrimFloat.ltb _ ending_length) eqn:Hrest.
  - change (PrimFloat.eqb ending_length 0) with false. cbv iota.
    change (0 / ending_length)%float with 0%float. intros [= <-]. by left.
  - destruct (PrimFloat.eqb _ 0) eqn:Hy; [done|]. intros [= <-].
    rewrite FloatAxioms.eqb_spec in Hy. change (Prim2SF 0) with (S754_zero false) in Hy.
    pose proof (FloatAxioms.div_spec 0
                  ((segment_length - vehicle_offset_m) * float_of_Z segment_lanes)) as Hdiv.
    change (Prim2SF 0) with (S754_zero false) in Hdiv.
    destruct (Prim2SF ((segment_length - vehicle_offset_m) * float_of_Z segment_lanes))
      as [sy|sy| |sy my ey] eqn:HY.
    + by destruct sy.
    + simpl in Hdiv. apply float_zero_cases in Hdiv. tauto.
    + simpl in Hdiv. right. right. by rewrite Hdiv.
    + simpl in Hdiv. apply float_zero_cases in Hdiv. tauto.
Qed.

(** X11.  With no vehicle counted ahead the road is free: the level of
    service is 1.0, on a rest length below 200 m always, and beyond it
    whenever the call returns a number; the jam branch is never taken; the
    one other value, [float("inf")], is returned only when the divisor
    [rest_length * lanes] is a NaN. *)
Theorem level_of_service_free_flow classes gv datetime segment vehicle_id
    vehicle_offset_m tolerance limit_vehicle_count :
  filter (counts_ahead datetime (default 0%Z tolerance) vehicle_id vehicle_offset_m)
         (observations gv (Segment.id segment)) = [] →
  let rest_segment_length := PrimFloat.sub (Segment.length segment) vehicle_offset_m in
  let los := level_of_service_in_front_of_vehicle classes gv datetime segment vehicle_id
               vehicle_offset_m tolerance limit_vehicle_count in
  (PrimFloat.ltb rest_segment_length ending_length = true → los = Some 1%float)
  ∧ (∀ v, los = Some v →
          v = 1%float
          ∨ (v = float_inf
             ∧ Prim2SF (PrimFloat.mul rest_segment_length
                                      (float_of_Z (Segment.lanes segment))) = S754_nan)).
Proof.
  intros Hnone rest_segment_length los. subst rest_segment_length los.
  rewrite level_of_service_unfold, (load_ahead_none _ _ _ _ _ _ _ Hnone). cbv zeta.
  simpl fst. simpl snd.
  assert (limit_vehicle_count && PrimFloat.eqb vehicle_offset_m 0
          && PrimFloat.leb 10 (Segment.length segment)
          && PrimFloat.ltb (Segment.length segment - vehicle_offset_m) 0 = false) as ->.
  { destruct limit_vehicle_count; [|done]. simpl.
    destruct (PrimFloat.eqb vehicle_offset_m 0) eqn:Hoff; [|done]. simpl.
    destruct (PrimFloat.leb 10 (Segment.length segment)) eqn:Hlen; [|done]. simpl.
    by apply jam_needs_vehicles. }
  split.
  - intros Hrest. unfold n_vehicles_per_mile. rewrite Hrest. reflexivity.
  - intros v.
    destruct (n_vehicles_per_mile 0 _ _ _) as [n|] eqn:Hn; [|done].
    apply density_of_nothing in Hn as [->|[->|(Hnan & _ & Hy)]].
    + intros [= <-]. by left.
    + intros [= <-]. by left.
    + cbn [mbind option_bind]. rewrite los_lookup_nan by done.
      cbn [mbind option_bind]. intros [= <-]. right. split; [reflexivity|done].
Qed.

(** ** When the call raises *)

Lemma los_lookup_total (d : float) : is_Some (los_lookup ranges d).
Proof.
  unfold ranges.
  repeat (rewrite los_lookup_cons; destruct (PrimFloat.ltb d _);
          [rewrite py_truediv_nonzero by reflexivity; by eexists|]).
  by eexists.
Qed.

Lemma float_of_Z_zero : float_of_Z 0 = 0%float.
Proof. reflexivity. Qed.

Lemma float_of_Z_positive (z : Z) :
  (0 < z < 2 ^ 63)%Z →
  ∃ m e, Prim2SF (float_of_Z z) = S754_finite false m e
         ∧ positioned (Zpos m) e ∧ (-52 ≤ e)%Z.
Proof.
  intros Hz. unfold float_of_Z. destruct (Z.ltb_spec z 0) as [|_]; [lia|].
  pose proof (Prim2SF_valid (of_uint63 (of_Z z))) as Hv.
  rewrite FloatAxioms.of_uint63_spec, Uint63.of_Z_spec in *.
  rewrite Z.mod_small in * by (change wB with (2 ^ 63)%Z; lia).
  destruct (binary_normalize_int z Hz) as (m & e & Heq & He).
  exists m, e. rewrite Heq in *. split_and!; [done| |done].
  by apply bounded_positioned in Hv as [? _].
Qed.

(** The divisor [rest_length * lanes] compares equal to zero exactly when
    there is no lane and the rest length is a finite number. *)
Lemma divisor_zero_iff (rest : float) (segment_lanes : Z) :
  (0 ≤ segment_lanes < 2 ^ 63)%Z →
  PrimFloat.ltb rest ending_length = false →
  PrimFloat.eqb (rest * float_of_Z segment_lanes) 0 = true
  ↔ segment_lanes = 0%Z ∧ PrimFloat.ltb rest infinity = true.
Proof.
  intros Hlanes.
  rewrite FloatAxioms.eqb_spec, !FloatAxioms.ltb_spec, FloatAxioms.mul_spec.
  change (Prim2SF 0) with (S754_zero false).
  change (Prim2SF ending_length) with (S754_finite false 7036874417766400 (-45)).
  change (Prim2SF infinity) with (S754_infinity false).
  pose proof (Prim2SF_valid rest) as Hv.
  destruct (decide (segment_lanes = 0%Z)) as [->|Hne].
  - rewrite float_of_Z_zero. change (Prim2SF 0) with (S754_zero false).
    destruct (Prim2SF rest) as [sr|[]| |[] mr er]; simpl; intros Hrest; try done;
      split; try done; by intros [_ ?].
  - destruct (float_of_Z_positive segment_lanes ltac:(lia)) as (mc & ec & -> & Hc & Hec).
    intros Hrest. split; [|by intros [? _]].
    unfold SF64mul.
    destruct (Prim2SF rest) as [sr|[]| |[] mr er] eqn:Hr; try done.
    apply bounded_positioned in Hv as [Hx _].
    assert (-45 ≤ er)%Z as Her.
    { destruct (Z.lt_ge_cases er (-45)) as [Hlt|]; [|lia].
      assert (SFltb (S754_finite false mr er) (S754_finite false 7036874417766400 (-45))
              = true) as Habs by (apply SFltb_finite_lex; lia).
      congruence. }
    destruct (SFmul_normal mr er mc ec Hx Hc) as [->|(m3 & e3 & ->)]; try lia; done.
Qed.

Lemma density_raises_iff sum_pcu segment_length vehicle_offset_m segment_lanes :
  (0 ≤ segment_lanes < 2 ^ 63)%Z →
  n_vehicles_per_mile sum_pcu segment_length vehicle_offset_m segment_lanes = None
  ↔ segment_lanes = 0%Z
    ∧ PrimFloat.ltb (segment_length - vehicle_offset_m) ending_length = false
    ∧ PrimFloat.ltb (segment_length - vehicle_offset_m) infinity = true.
Proof.
  intros Hlanes. unfold n_vehicles_per_mile, py_truediv. cbv zeta.
  destruct (PrimFloat.ltb _ ending_length) eqn:Hrest.
  - change (PrimFloat.eqb ending_length 0) with false. cbv iota. naive_solver.
  - pose proof (divisor_zero_iff _ _ Hlanes Hrest) as Hiff.
    destruct (PrimFloat.eqb _ 0).
    + split; [|done]. intros _. by destruct (proj1 Hiff eq_refl).
    + split; [done|]. intros (Hl & _ & Hf). by specialize (proj2 Hiff (conj Hl Hf)).
Qed.

(** X12.  With at least one lane the call never raises: whatever the
    observations, the segment length and the offset (a NaN or an infinity
    included), [level_of_service_in_front_of_vehicle] returns a value. *)
Theorem level_of_service_returns classes gv datetime segment vehicle_id
    vehicle_offset_m tolerance limit_vehicle_count :
  (1 ≤ Segment.lanes segment < 2 ^ 63)%Z →
  is_Some (level_of_service_in_front_of_vehicle classes gv datetime segment vehicle_id
             vehicle_offset_m tolerance limit_vehicle_count).
Proof.
  intros Hlanes. rewrite level_of_service_unfold. cbv zeta.
  destruct (_ && _ && _ && _); [by eexists|].
  destruct (n_vehicles_per_mile _ _ _ _) as [n|] eqn:Hn.
  - cbn [mbind option_bind]. destruct (los_lookup_total n) as [los ->]. by eexists.
  - apply density_raises_iff in Hn as [? _]; lia.
Qed.

(** X13.  The call raises [ZeroDivisionError] in one situation only: the
    jam branch is not taken, the segment has no lane, and the rest length
    is a finite number of 200 m or more. *)
Theorem level_of_service_raises_iff classes gv datetime segment vehicle_id
    vehicle_offset_m tolerance limit_vehicle_count :
  (0 ≤ Segment.lanes segment < 2 ^ 63)%Z →
  let rest_segment_length := PrimFloat.sub (Segment.length segment) vehicle_offset_m in
  let jam :=
    limit_vehicle_count
    && PrimFloat.eqb vehicle_offset_m 0
    && PrimFloat.leb 10 (Segment.length segment)
    && PrimFloat.ltb rest_segment_length
         (load_ahead classes gv datetime (Segment.id segment) tolerance vehicle_id
                     vehicle_offset_m).1.2 in
  level_of_service_in_front_of_vehicle classes gv datetime segment vehicle_id
    vehicle_offset_m tolerance limit_vehicle_count = None
  ↔ jam = false
    ∧ Segment.lanes segment = 0%Z
    ∧ PrimFloat.leb ending_length rest_segment_length = true
    ∧ PrimFloat.ltb rest_segment_length infinity = true.
Proof.
  intros Hlanes rest_segment_length jam. subst rest_segment_length jam.
  rewrite level_of_service_unfold. cbv zeta.
  assert (PrimFloat.ltb (Segment.length segment - vehicle_offset_m) infinity = true →
          PrimFloat.ltb (Segment.length segment - vehicle_offset_m) ending_length = false
          ↔ PrimFloat.leb ending_length (Segment.length segment - vehicle_offset_m) = true)
    as Htot.
  { rewrite !FloatAxioms.ltb_spec, FloatAxioms.leb_spec.
    intros Hfin. split.
    - apply SFltb_false_SFleb; [|done].
      by destruct (Prim2SF (Segment.length segment - vehicle_offset_m)).
    - intros Hle. destruct (SFltb _ (Prim2SF ending_length)) eqn:Hlt; [|done].
      apply SFltb_asym in Hlt. congruence. }
  destruct (_ && _ && _ && _).
  { split; [done|]. by intros [? _]. }
  destruct (n_vehicles_per_mile _ _ _ _) as [n|] eqn:Hn.
  - cbn [mbind option_bind]. destruct (los_lookup_total n) as [los ->].
    split; [done|]. intros (_ & Hl & Hr & Hf).
    assert (n_vehicles_per_mile
              (load_ahead classes gv datetime (Segment.id segment) tolerance vehicle_id
                          vehicle_offset_m).1.1
              (Segment.length segment) vehicle_offset_m (Segment.lanes segment) = None)
      as Hnone by (apply density_raises_iff; [done|]; split_and!; [done| |done]; by apply Htot).
    congruence.
  - cbn [mbind option_bind]. split; [|done]. intros _.
    apply density_raises_iff in Hn as (Hl & Hr & Hf); [|done].
    split_and!; [done..| |done]. by apply Htot.
Qed.

End level_of_service_edges.

Section speed_sign.
Context {SegmentId : Type} `{Countable SegmentId}.
Implicit Types (gv : GlobalView SegmentId) (fcd : FCDRecord.t SegmentId).

Lemma SFdiv_nonneg_finite (x : spec_float) (my : positive) (ey : Z) :
  sf_nonneg x → sf_nonneg (SFdiv prec emax x (S754_finite false my ey)).
Proof.
  rewrite !sf_nonneg_cases.
  destruct x as [sx|sx| |sx mx ex]; simpl; try done; try (intros ->; done).
  intros ->. simpl.
  pose proof (SFdiv_core_nonneg mx ex my ey) as Hq.
  destruct (SFdiv_core_binary prec emax (Zpos mx) ex (Zpos my) ey) as [[q e'] l].
  apply sf_nonneg_cases, has_sign_nonneg, binary_round_aux_sign. exact Hq.
Qed.

Lemma latest_speeds_elem_of (fcds : list (FCDRecord.t SegmentId)) (x : float) :
  x ∈ latest_speeds fcds → ∃ fcd, fcd ∈ fcds ∧ x = FCDRecord.speed fcd.
Proof.
  unfold latest_speeds, last_speed_of.
  intros (v & _ & Hlast)%list_elem_of_omap.
  destruct (last (filter _ fcds)) as [fcd|] eqn:Hl; [|done].
  injection Hlast as <-. exists fcd. split; [|done].
  apply last_Some_elem_of in Hl. by apply list_elem_of_filter in Hl as [_ ?].
Qed.

(** X14.  Speeds that are not negative (and not NaN) give a segment speed
    that is not negative and not a NaN. *)
Theorem get_segment_speed_nonneg segment_id gv (v : float) :
  (∀ fcd, fcd ∈ observations gv segment_id →
          PrimFloat.leb 0 (FCDRecord.speed fcd) = true) →
  (Z.of_nat (length (observations gv segment_id)) < 2 ^ 63)%Z →
  (get_segment_speed segment_id gv).1 = Some v →
  PrimFloat.leb 0 v = true.
Proof.
  intros Hall Hlen. rewrite get_segment_speed_fst.
  destruct (observations gv segment_id) as [|fcd0 fcds] eqn:Hobs; [done|].
  intros [= <-]. unfold mean.
  set (sorted := list_sort FCDRecord.datetime (fcd0 :: fcds)).
  assert (sorted ≡ₚ fcd0 :: fcds) as Hperm by apply list_sort_perm.
  assert (PrimFloat.leb 0 (py_sum (latest_speeds sorted)) = true) as Hsum.
  { apply py_sum_nonneg, Forall_forall. intros x (fcd & Hfcd & ->)%latest_speeds_elem_of.
    apply Hall. by rewrite <- Hperm. }
  assert (0 < Z.of_nat (length (latest_speeds sorted)) < 2 ^ 63)%Z as Hn.
  { rewrite latest_speeds_length. split.
    - assert (FCDRecord.vehicle_id fcd0
              ∈ first_occurrences (FCDRecord.vehicle_id <$> sorted)) as Hin.
      { apply first_occurrences_elem_of, list_elem_of_fmap_2. rewrite Hperm. by left. }
      destruct (first_occurrences _); [by apply elem_of_nil in Hin|simpl; lia].
    - assert (length (first_occurrences (FCDRecord.vehicle_id <$> sorted))
              ≤ length (fcd0 :: fcds)); [|lia].
      rewrite <- Hperm, <- (length_fmap FCDRecord.vehicle_id sorted).
      generalize (FCDRecord.vehicle_id <$> sorted). clear.
      induction l as [|x l IH]; csimpl; [done|].
      pose proof (length_filter (λ y, y ≠ x) (first_occurrences l)). lia. }
  destruct (float_of_Z_positive _ Hn) as (m & e & Hm & _).
  unfold float_of_nat.
  rewrite float_nonneg_SF in *. rewrite FloatAxioms.div_spec.
  change (sf_nonneg (SF64div (Prim2SF (py_sum (latest_speeds sorted)))
                             (Prim2SF (float_of_Z (Z.of_nat (length (latest_speeds sorted))))))).
  rewrite Hm.
  by apply SFdiv_nonneg_finite.
Qed.

End speed_sign.

(** ** Rounding from above and the raw level of a band *)

Section binary64_rounding_below.
Local Open Scope Z_scope.

(** Rounding does not cross a binary64 number from above either: an exact
    value of at least [g] rounds to at least [g]. *)
Lemma binary_round_aux_lower (m e : Z) (l : location) (mg : positive) (eg : Z) :
  0 ≤ m →
  -5000 ≤ e →
  e ≤ fexp prec emax (Zdigits2 m + e) →
  bounded prec emax mg eg = true →
  scaled (Zpos mg) eg ≤ scaled m e →
  SFleb (S754_finite false mg eg) (binary_round_aux prec emax false m e l) = true.
Proof.
  intros Hm He Hpre Hg Hle.
  apply bounded_positioned in Hg as [Hpg Hemax].
  pose proof Hpg as (Hmg & Heg & _).
  assert (0 < scaled (Zpos mg) eg) as Hgpos by (apply scaled_pos; lia).
  unfold binary_round_aux.
  destruct (round_stage1 m e l Hm Hpre) as (He1 & Hm1 & Hfloor & Hin1 & Hub1 & Hn1 & Hlo1).
  assert (shr_m (shr_fexp prec emax m e l).1
          = m / 2 ^ (fexp prec emax (Zdigits2 m + e) - e)) as Hdiv.
  { unfold shr_fexp.
    destruct (shr_spec (shr_record_of_loc m l) e
                (fexp prec emax (Zdigits2 m + e) - e)) as (_ & Hs & _).
    - by rewrite (proj1 (inexact_record_of_loc m l)).
    - rewrite Hs, (proj1 (inexact_record_of_loc m l)). f_equal. f_equal. lia. }
  destruct (shr_fexp prec emax m e l) as [mrs1 e1].
  simpl in He1, Hm1, Hfloor, Hin1, Hub1, Hn1, Hlo1, Hdiv.
  set (m1 := shr_m mrs1) in *. rewrite <- He1 in *.
  assert (positioned m1 e1) as Hp1 by (unfold positioned; split_and!; [lia..|done]).
  assert (scaled (Zpos mg) eg ≤ scaled m1 e1) as Hv1.
  { destruct (Z.le_gt_cases e1 eg) as [Hcase|Hcase].
    - replace eg with (e1 + (eg - e1)) by lia. rewrite scaled_shift by lia.
      apply scaled_le; [lia|]. rewrite Hdiv.
      apply Z.div_le_lower_bound; [apply pow2_pos; lia|].
      replace eg with (e + (eg - e)) in Hle by lia. rewrite scaled_shift in Hle by lia.
      apply scaled_le in Hle; [|lia].
      replace (eg - e) with ((eg - e1) + (e1 - e)) in Hle by lia.
      rewrite pow2_split in Hle by lia. lia.
    - apply positioned_lex_le; [done|done|lia]. }
  pose proof (round_stage2 m1 mrs1) as Hm2.
  set (m2 := round_nearest_even m1 (loc_of_shr_record mrs1)) in *.
  assert (m1 ≤ m2 ≤ m1 + 1) as Hm12 by (destruct Hm2 as [->|[-> _]]; lia).
  assert (scaled (Zpos mg) eg ≤ scaled m2 e1) as Hv2.
  { etrans; [exact Hv1|]. apply scaled_le; lia. }
  destruct (round_stage3 m2 e1 ltac:(lia) Hlo1 ltac:(intros; specialize (Hn1 ltac:(done)); lia))
    as [[Hz Hz3]|(Hm3 & Hval3 & He3 & Hlo3 & Hn3)].
  { rewrite Hz in Hv2. unfold scaled in Hv2. lia. }
  destruct (shr_fexp prec emax m2 e1 loc_Exact) as [mrs3 e3].
  simpl in Hm3, Hval3, He3, Hlo3, Hn3.
  destruct (shr_m mrs3) as [|m3|m3] eqn:Hm3eq; try lia.
  destruct (e3 <=? emax - prec); [|done].
  assert (scaled (Zpos mg) eg ≤ scaled (Zpos m3) e3) as Hv3.
  { replace e3 with (e1 + (e3 - e1)) by lia.
    rewrite scaled_shift by lia. by rewrite Hval3. }
  assert (positioned (Zpos m3) e3) as Hp3 by (unfold positioned; split_and!; [lia..|done]).
  apply SFleb_finite_lex. apply positioned_le_lex; [done|done|lia|done].
Qed.

Lemma binary_round_lower (mx : positive) (ex : Z) (mg : positive) (eg : Z) :
  -5000 ≤ ex →
  bounded prec emax mg eg = true →
  scaled (Zpos mg) eg ≤ scaled (Zpos mx) ex →
  SFleb (S754_finite false mg eg) (binary_round prec emax false mx ex) = true.
Proof.
  intros Hex Hg Hle. unfold binary_round.
  destruct (shl_align_spec mx ex (fexp prec emax (Zpos (digits2_pos mx) + ex))) as [He Hm].
  destruct (shl_align mx ex _) as [mz ez]. simpl in He, Hm.
  rewrite fexp64_eq in *.
  set (dx := Zpos (digits2_pos mx)) in *.
  assert (-5000 ≤ ez ∧ ez ≤ ex) as [Hez Hezx] by lia.
  apply binary_round_aux_lower; [lia|done| |done|].
  - rewrite Hm, Zdigits2_shift by lia. rewrite fexp64_eq.
    change (Zdigits2 (Zpos mx)) with dx. lia.
  - rewrite Hm. rewrite <- scaled_shift by lia.
    replace (ez + (ex - Z.min ex (Z.max (dx + ex - 53) (-1074)))) with ex by lia. done.
Qed.

Lemma scaled_le_SFleb (y : spec_float) (mg : positive) (eg : Z) :
  finite_nonneg y →
  bounded prec emax mg eg = true →
  scaled (Zpos mg) eg ≤ sval y →
  SFleb (S754_finite false mg eg) y = true.
Proof.
  intros Hy Hg Hle.
  destruct (bounded_positioned _ _ Hg) as [Hpg _]. pose proof Hpg as (? & ? & _).
  pose proof (scaled_pos (Zpos mg) eg ltac:(lia) ltac:(lia)).
  destruct y as [sy|sy| |[] my ey]; simpl in *; try done; try lia.
  destruct (bounded_positioned _ _ Hy) as [Hpy _].
  apply SFleb_finite_lex. apply positioned_le_lex; [done|done|lia|done].
Qed.

(** A sum of two non-negative finite numbers, of exact value at least
    [g], is at least [g]. *)
Lemma SFadd_lower (x y : spec_float) (mg : positive) (eg : Z) :
  finite_nonneg x → finite_nonneg y →
  bounded prec emax mg eg = true →
  scaled (Zpos mg) eg ≤ sval x + sval y →
  SFleb (S754_finite false mg eg) (SFadd prec emax x y) = true.
Proof.
  intros Hx Hy Hg Hle.
  destruct (bounded_positioned _ _ Hg) as [(? & ? & _) _].
  pose proof (scaled_pos (Zpos mg) eg ltac:(lia) ltac:(lia)).
  destruct x as [sx|sx| |[] mx ex]; try done;
    destruct y as [sy|sy| |[] my ey]; try done.
  - simpl in Hle. lia.
  - apply (scaled_le_SFleb (S754_finite false my ey)); [done|done|simpl in *; lia].
  - apply (scaled_le_SFleb (S754_finite false mx ex)); [done|done|simpl in *; lia].
  - simpl in Hx, Hy, Hle. unfold SFadd, cond_Zopp. cbv zeta.
    pose proof (finite_nonneg_exponent _ _ Hx). pose proof (finite_nonneg_exponent _ _ Hy).
    assert (scaled (Zpos mg) eg
            ≤ scaled (Zpos (shl_align mx ex (Z.min ex ey)).1
                      + Zpos (shl_align my ey (Z.min ex ey)).1) (Z.min ex ey)) as Hsum.
    { rewrite scaled_add, aligned_scaled by lia.
      rewrite (Z.min_comm ex ey), aligned_scaled by lia. done. }
    destruct (Zpos (shl_align mx ex (Z.min ex ey)).1
              + Zpos (shl_align my ey (Z.min ex ey)).1) as [|p|p] eqn:Hp; try lia.
    simpl. apply binary_round_lower; [lia|done|done].
Qed.

End binary64_rounding_below.

Section raw_level_range.

Lemma float_add_lower (m q G : float) :
  sf_fin (Prim2SF m) = true →
  sf_pos (Prim2SF G) = true →
  within q G →
  PrimFloat.leb m (m + q) = true.
Proof.
  intros Hm%sf_fin_inv (mg & eg & HG & Hbg)%sf_pos_inv.
  rewrite within_SF, FloatAxioms.leb_spec, FloatAxioms.add_spec, HG. intros [H0 Hle].
  destruct (between_sval (Prim2SF q) mg eg) as [Hq _]; [apply Prim2SF_valid|done..|].
  pose proof (sval_nonneg _ Hq) as Hq0.
  destruct (Prim2SF m) as [sm|sm| |[] mm em] eqn:Hmeq; try done.
  - assert (sf_nonneg (SF64add (S754_zero sm) (Prim2SF q))) as Hr.
    { apply SFadd_nonneg; [by apply sf_nonneg_cases|done]. }
    apply sf_nonneg_cases in Hr.
    by destruct (SF64add (S754_zero sm) (Prim2SF q)) as [sr|[]| |[] mr er].
  - apply SFadd_lower; [done|done|done|]. simpl. simpl in Hq0. lia.
Qed.

Lemma band_raw_range low high m n d :
  band_raw_fits ((low, high), (m, n)) = true →
  PrimFloat.leb low d = true → PrimFloat.ltb d high = true →
  PrimFloat.leb m (m + (d - low) * 0.2 / (high - low)) = true
  ∧ PrimFloat.leb (m + (d - low) * 0.2 / (high - low)) n = true.
Proof.
  unfold band_raw_fits. destruct (band_bounds low high) as [[[P Ga] Gb] Gq].
  rewrite !andb_true_iff. intros [[[[[HP Ha] Hb] Hq] Hr] Hm] Hlow Hhigh.
  assert (within ((d - low) * 0.2 / (high - low)) Gq) as Hwq.
  { apply (float_div_within _ _ Gb); [done|].
    apply (float_mul_within _ _ Ga); [done|].
    apply (float_sub_within _ _ P); [done..|].
    by apply (float_ltb_pred _ high). }
  split.
  - apply (float_add_lower _ _ Gq); [done| |done].
    unfold add_fits in Hr. cbv zeta in Hr. rewrite !andb_true_iff in Hr.
    by destruct Hr as [[[_ ?] _] _].
  - by apply (float_add_within m _ Gq n).
Qed.

Lemma ranges_raw_fit : Forall (λ band, band_raw_fits band = true) ranges.
Proof. unfold ranges. repeat constructor; vm_compute; reflexivity. Qed.

(** X15.  The interpolation stays within its band: for every row
    [((low, high), (m, n))] of the table, a density with [low <= d < high]
    has a raw level between [m] and [n], both ends included, in binary64
    arithmetic as it is computed; the value reported for it is [1.0 - raw],
    never [float("inf")]. *)
Theorem los_raw_within_band low high m n d :
  ((low, high), (m, n)) ∈ ranges →
  PrimFloat.leb low d = true →
  PrimFloat.ltb d high = true →
  ∃ raw, los_lookup ranges d = Some raw
         ∧ PrimFloat.leb m raw = true
         ∧ PrimFloat.leb raw n = true
         ∧ reverse_los raw = (1 - raw)%float.
Proof.
  intros Hband Hlow Hhigh.
  rewrite (los_lookup_band low high m n d Hband Hlow Hhigh).
  eexists. split; [done|].
  pose proof ranges_raw_fit as Hfit. rewrite Forall_forall in Hfit.
  destruct (band_raw_range low high m n d (Hfit _ Hband) Hlow Hhigh) as [Hm Hn].
  split_and!; [done..|].
  unfold reverse_los, float_inf.
  rewrite FloatAxioms.eqb_spec. change (Prim2SF infinity) with (S754_infinity false).
  rewrite FloatAxioms.leb_spec in Hn.
  assert (sf_pos (Prim2SF n) = true) as (mn & en & Hneq & _)%sf_pos_inv.
  { unfold ranges in Hband.
    repeat (apply elem_of_cons in Hband as [[= -> -> -> ->]|Hband]); try reflexivity.
    by apply elem_of_nil in Hband. }
  rewrite Hneq in Hn. by rewrite (SFeqb_infinity _ _ _ Hn).
Qed.

End raw_level_range.

(** ** Rounding is monotone *)

Section rounding_codes.
Local Open Scope Z_scope.

Lemma code_bounds (mrs : shr_record) :
  code mrs / 4 = shr_m mrs
  ∧ code mrs mod 4 = (if shr_r mrs then 2 else 0) + (if shr_s mrs then 1 else 0).
Proof.
  unfold code. destruct mrs as [m r s]. simpl.
  assert (0 ≤ (if r then 2 else 0) + (if s then 1 else 0) < 4) as Hb
    by (destruct r, s; lia).
  split.
  - symmetry. apply (Z.div_unique _ 4 m ((if r then 2 else 0) + (if s then 1 else 0))); lia.
  - symmetry. apply (Z.mod_unique _ 4 m); lia.
Qed.

Lemma code_shr_1 (mrs : shr_record) :
  0 ≤ shr_m mrs → code (shr_1 mrs) = halve (code mrs) ∧ 0 ≤ shr_m (shr_1 mrs).
Proof.
  intros Hm. unfold halve. destruct (code_bounds mrs) as [-> ->].
  destruct mrs as [m r s]. simpl in *.
  destruct m as [|[p|p|]|p]; try lia; unfold code; simpl shr_1; cbv [shr_m shr_r shr_s];
    destruct r, s; simpl orb; cbv iota;
    match goal with
    | |- context [?a =? 0] =>
        let b := eval vm_compute in (a =? 0) in change (a =? 0) with b
    end; cbv iota; split; lia.
Qed.

Lemma divmod_unique (n d q r : Z) : 0 ≤ r < d → n = d * q + r → n / d = q ∧ n mod d = r.
Proof.
  intros Hr Hn. split.
  - symmetry. apply (Z.div_unique n d q r); [lia|done].
  - symmetry. apply (Z.mod_unique n d q r); [lia|done].
Qed.

Lemma halve_place (A B : Z) : 0 < B → halve (place A B) = place A (2 * B).
Proof.
  intros HB. unfold place.
  pose proof (Z.div_mod (2 * A) B ltac:(lia)) as Hdm.
  pose proof (Z.mod_pos_bound (2 * A) B HB) as Hrho.
  set (a := 2 * A / B) in *. set (rho := (2 * A) mod B) in *.
  pose proof (Z.div_mod a 2 ltac:(lia)) as Ha.
  pose proof (Z.mod_pos_bound a 2 ltac:(lia)) as Ha0.
  set (a2 := a / 2) in *. set (a0 := a mod 2) in *.
  destruct (divmod_unique (2 * A) (2 * B) a2 (B * a0 + rho)) as [-> ->]; [nia|nia|].
  set (b := if rho =? 0 then 0 else 1).
  assert (0 ≤ b ≤ 1 ∧ (b = 0 ↔ rho = 0)) as [Hb Hb0]
    by (subst b; destruct (Z.eqb_spec rho 0); lia).
  unfold halve.
  destruct (divmod_unique (2 * a + b) 4 a2 (2 * a0 + b)) as [-> ->]; [lia|lia|].
  f_equal.
  destruct (Z.eqb_spec (2 * a0 + b) 0), (Z.eqb_spec (B * a0 + rho) 0); try done; nia.
Qed.

Lemma code_iter_shr_1 (p : positive) (mrs : shr_record) (A B : Z) :
  0 ≤ shr_m mrs → 0 < B →
  code mrs = place A B →
  code (SpecFloat.iter_pos shr_1 p mrs) = place A (B * 2 ^ Zpos p)
  ∧ 0 ≤ shr_m (SpecFloat.iter_pos shr_1 p mrs).
Proof.
  revert mrs B. induction p as [p IH|p IH|]; intros mrs B Hm HB Hc; simpl SpecFloat.iter_pos.
  - destruct (code_shr_1 mrs Hm) as [H1 Hm1].
    rewrite Hc, halve_place in H1 by done.
    destruct (IH _ (2 * B) Hm1 ltac:(lia) H1) as [H2 Hm2].
    assert (0 < 2 ^ Zpos p) as Hpow by (apply Z.pow_pos_nonneg; lia).
    destruct (IH _ (2 * B * 2 ^ Zpos p) Hm2 ltac:(nia) H2) as [H3 Hm3].
    split; [|done]. rewrite H3. f_equal.
    rewrite Pos2Z.inj_xI.
    replace (2 * Zpos p + 1) with (1 + Zpos p + Zpos p) by lia.
    rewrite !Z.pow_add_r by lia. change (2 ^ 1) with 2. lia.
  - destruct (IH _ B Hm HB Hc) as [H2 Hm2].
    assert (0 < 2 ^ Zpos p) as Hpow by (apply Z.pow_pos_nonneg; lia).
    destruct (IH _ (B * 2 ^ Zpos p) Hm2 ltac:(nia) H2) as [H3 Hm3].
    split; [|done]. rewrite H3. f_equal.
    rewrite (Pos2Z.inj_xO p).
    replace (2 * Zpos p) with (Zpos p + Zpos p) by lia.
    rewrite !Z.pow_add_r by lia. lia.
  - destruct (code_shr_1 mrs Hm) as [H1 Hm1].
    rewrite Hc, halve_place in H1 by done.
    split; [|done]. rewrite H1. f_equal. change (2 ^ 1) with 2. lia.
Qed.

(** The code of the record after the shift to the exponent aimed at. *)
Lemma code_shr (mrs : shr_record) (e n : Z) (A B : Z) :
  0 ≤ shr_m mrs → 0 < B →
  code mrs = place A B →
  code (shr mrs e n).1 = place A (B * 2 ^ Z.max n 0)
  ∧ 0 ≤ shr_m (shr mrs e n).1.
Proof.
  intros Hm HB Hc. destruct n as [|p|p]; unfold shr; cbn [fst].
  - split; [|done]. rewrite Hc. f_equal. change (2 ^ Z.max 0 0) with 1. lia.
  - change (Z.max (Zpos p) 0) with (Zpos p). by apply code_iter_shr_1.
  - split; [|done]. rewrite Hc. f_equal. change (2 ^ Z.max (Zneg p) 0) with 1. lia.
Qed.

Lemma place_mono (A B A' B' : Z) :
  0 ≤ A → 0 < B → 0 < B' → A * B' ≤ A' * B → place A B ≤ place A' B'.
Proof.
  intros HA HB HB' Hle. unfold place.
  pose proof (Z.div_mod (2 * A) B ltac:(lia)) as Hdm.
  pose proof (Z.mod_pos_bound (2 * A) B HB) as Hrho.
  pose proof (Z.div_mod (2 * A') B' ltac:(lia)) as Hdm'.
  pose proof (Z.mod_pos_bound (2 * A') B' HB') as Hrho'.
  set (a := 2 * A / B) in *. set (rho := (2 * A) mod B) in *.
  set (a' := 2 * A' / B') in *. set (rho' := (2 * A') mod B') in *.
  assert (a ≤ a') as Haa'.
  { destruct (Z.le_gt_cases a a') as [|Hgt]; [done|].
    assert (a' + 1 ≤ a) by lia.
    assert (2 * A' * B < (a' + 1) * B' * B) by nia.
    assert ((a' + 1) * B' * B ≤ a * B * B') by nia.
    assert (a * B * B' ≤ 2 * A * B') by nia.
    nia. }
  destruct (Z.eqb_spec rho 0), (Z.eqb_spec rho' 0); try lia.
  assert (a < a'); [|lia].
  destruct (Z.le_gt_cases a' a) as [Hle'|]; [|done].
  assert (a = a') by lia. subst a'.
  assert (2 * A * B' ≤ 2 * A' * B) by nia.
  assert (2 * A' * B = a * B' * B) by nia.
  assert (a * B * B' < 2 * A * B') by nia.
  nia.
Qed.

Lemma round_code_mono (c c' : Z) : 0 ≤ c → c ≤ c' → round_code c ≤ round_code c'.
Proof.
  intros Hc Hle. unfold round_code.
  pose proof (Z.div_mod c 4 ltac:(lia)). pose proof (Z.mod_pos_bound c 4 ltac:(lia)).
  pose proof (Z.div_mod c' 4 ltac:(lia)). pose proof (Z.mod_pos_bound c' 4 ltac:(lia)).
  set (m := c / 4) in *. set (r := c mod 4) in *.
  set (m' := c' / 4) in *. set (r' := c' mod 4) in *.
  assert (m < m' ∨ (m = m' ∧ r ≤ r')) as [Hlt|[-> Hr]] by lia.
  - destruct (r =? 3), (r =? 2), (r' =? 3), (r' =? 2), (Z.even m), (Z.even m'); lia.
  - destruct (Z.eqb_spec r 3), (Z.eqb_spec r 2), (Z.eqb_spec r' 3), (Z.eqb_spec r' 2),
      (Z.even m'); lia.
Qed.

Lemma round_code_bounds (c : Z) : c / 4 ≤ round_code c ≤ c / 4 + 1.
Proof.
  unfold round_code.
  destruct (c mod 4 =? 3), (c mod 4 =? 2), (Z.even (c / 4)); lia.
Qed.

Lemma round_nearest_even_code (mrs : shr_record) :
  round_nearest_even (shr_m mrs) (loc_of_shr_record mrs) = round_code (code mrs).
Proof.
  unfold round_code. destruct (code_bounds mrs) as [-> ->].
  by destruct mrs as [m [] []].
Qed.

Lemma binary_round_aux_pack (m e : Z) (l : location) (A B : Z) :
  0 ≤ m →
  e ≤ fexp prec emax (Zdigits2 m + e) →
  0 < B →
  code (shr_record_of_loc m l) = place A B →
  binary_round_aux prec emax false m e l
  = pack (round_code (place A (B * 2 ^ (fexp prec emax (Zdigits2 m + e) - e))))
         (fexp prec emax (Zdigits2 m + e)).
Proof.
  intros Hm Hpre HB Hc. unfold binary_round_aux, pack, shr_fexp at 1.
  set (F := fexp prec emax (Zdigits2 m + e)) in *.
  assert (0 ≤ shr_m (shr_record_of_loc m l)) as Hm0
    by (by rewrite (proj1 (inexact_record_of_loc m l))).
  destruct (code_shr (shr_record_of_loc m l) e (F - e) A B Hm0 HB Hc) as [Hcode _].
  destruct (shr_spec (shr_record_of_loc m l) e (F - e) Hm0) as (He1 & _ & _).
  destruct (shr (shr_record_of_loc m l) e (F - e)) as [mrs1 e1]. simpl in Hcode, He1.
  rewrite round_nearest_even_code, Hcode, He1.
  replace (Z.max (F - e) 0) with (F - e) by lia.
  by replace (e + (F - e)) with F by lia.
Qed.

Lemma pack_cases (m2 e1 : Z) :
  0 ≤ m2 ≤ 2 ^ 53 →
  -1074 ≤ e1 →
  (-1074 < e1 → 2 ^ 52 ≤ m2) →
  (m2 = 0 ∧ pack m2 e1 = S754_zero false)
  ∨ (0 < m2
     ∧ ∃ m3 e3, positioned (Zpos m3) e3
                ∧ scaled (Zpos m3) e3 = scaled m2 e1
                ∧ e1 ≤ e3
                ∧ ((e3 ≤ 971 ∧ pack m2 e1 = S754_finite false m3 e3)
                   ∨ (971 < e3 ∧ pack m2 e1 = S754_infinity false))).
Proof.
  intros Hm2 He1 Hn. unfold pack.
  destruct (round_stage3 m2 e1 Hm2 He1 Hn) as [[Hz Hz3]|(Hm3 & Hval3 & He3 & Hlo3 & Hn3)].
  - left. destruct (shr_fexp prec emax m2 e1 loc_Exact) as [mrs3 e3]. simpl in Hz3.
    by rewrite Hz3.
  - right. destruct (shr_fexp prec emax m2 e1 loc_Exact) as [mrs3 e3].
    simpl in Hm3, Hval3, He3, Hlo3, Hn3.
    destruct (shr_m mrs3) as [|m3|m3] eqn:Hm3eq; try lia.
    assert (0 < m2) as Hpos.
    { rewrite <- Hval3. pose proof (pow2_pos (e3 - e1) ltac:(lia)). nia. }
    split; [done|]. exists m3, e3. split_and!.
    + unfold positioned. split_and!; [lia..|done].
    + replace e3 with (e1 + (e3 - e1)) by lia. rewrite scaled_shift by lia. by rewrite Hval3.
    + done.
    + change (emax - prec) with 971. destruct (Z.leb_spec e3 971); [left|right]; done.
Qed.

Lemma pack_mono (m2 m2' e1 : Z) :
  0 ≤ m2 → m2 ≤ m2' → m2' ≤ 2 ^ 53 →
  -1074 ≤ e1 →
  (-1074 < e1 → 2 ^ 52 ≤ m2) →
  SFleb (pack m2 e1) (pack m2' e1) = true.
Proof.
  intros Hm2 Hle Hm2' He1 Hn.
  destruct (pack_cases m2 e1 ltac:(lia) He1 Hn)
    as [[Hz ->]|(Hpos & m3 & e3 & Hp3 & Hv3 & He3 & Hr)];
    destruct (pack_cases m2' e1 ltac:(lia) He1 ltac:(intros; specialize (Hn ltac:(done)); lia))
    as [[Hz' ->]|(Hpos' & m3' & e3' & Hp3' & Hv3' & He3' & Hr')]; try lia.
  - done.
  - by destruct Hr' as [[_ ->]|[_ ->]].
  - assert (scaled (Zpos m3) e3 ≤ scaled (Zpos m3') e3') as Hv.
    { rewrite Hv3, Hv3'. apply scaled_le; lia. }
    pose proof (positioned_le_lex _ _ _ _ Hp3 Hp3' ltac:(lia) Hv) as Hlex.
    destruct Hr as [[? ->]|[? ->]], Hr' as [[? ->]|[? ->]]; try done; try lia.
    by apply SFleb_finite_lex.
Qed.

Lemma place_div4 (A B : Z) : 0 < B → place A B / 4 = A / B.
Proof.
  intros HB. unfold place.
  pose proof (Z.div_mod A B ltac:(lia)) as Hdm.
  pose proof (Z.mod_pos_bound A B HB) as Hr.
  set (q := A / B) in *. set (r := A mod B) in *.
  assert (0 ≤ 2 * r / B ≤ 1) as Hh.
  { split; [apply Z.div_pos; lia|].
    assert (2 * r / B < 2); [|lia]. apply Z.div_lt_upper_bound; lia. }
  assert (2 * A / B = 2 * q + 2 * r / B) as ->.
  { replace (2 * A) with (2 * r + (2 * q) * B) by lia.
    rewrite Z.div_add by lia. lia. }
  set (h := 2 * r / B) in *.
  destruct (_ =? 0); symmetry.
  - apply (Z.div_unique _ 4 q (2 * h + 0)); lia.
  - apply (Z.div_unique _ 4 q (2 * h + 1)); lia.
Qed.

Lemma stage1_code (m e : Z) (l : location) (A B : Z) :
  0 ≤ m →
  e ≤ fexp prec emax (Zdigits2 m + e) →
  0 < B →
  code (shr_record_of_loc m l) = place A B →
  code (shr_fexp prec emax m e l).1
  = place A (B * 2 ^ (fexp prec emax (Zdigits2 m + e) - e)).
Proof.
  intros Hm Hpre HB Hc. unfold shr_fexp.
  assert (0 ≤ shr_m (shr_record_of_loc m l)) as Hm0
    by (by rewrite (proj1 (inexact_record_of_loc m l))).
  destruct (code_shr (shr_record_of_loc m l) e
              (fexp prec emax (Zdigits2 m + e) - e) A B Hm0 HB Hc) as [-> _].
  f_equal. f_equal. f_equal. lia.
Qed.

(** The rounded mantissa, within the bounds the packing asks for. *)
Lemma rounded_bounds (m e : Z) (l : location) (A B : Z) :
  0 ≤ m →
  e ≤ fexp prec emax (Zdigits2 m + e) →
  0 < B →
  code (shr_record_of_loc m l) = place A B →
  let F := fexp prec emax (Zdigits2 m + e) in
  let m2 := round_code (place A (B * 2 ^ (F - e))) in
  0 ≤ m2 ≤ 2 ^ 53 ∧ -1074 ≤ F ∧ (-1074 < F → 2 ^ 52 ≤ m2).
Proof.
  intros Hm Hpre HB Hc F m2. subst m2 F.
  rewrite <- (stage1_code m e l A B Hm Hpre HB Hc).
  destruct (round_stage1 m e l Hm Hpre) as (He1 & Hm1 & _ & _ & Hub1 & Hn1 & Hlo1).
  pose proof (round_code_bounds (code (shr_fexp prec emax m e l).1)) as Hb.
  rewrite (proj1 (code_bounds _)) in Hb.
  cbv zeta in *. rewrite He1 in *.
  split_and!; [lia|lia|done|]. intros HF. specialize (Hn1 HF). lia.
Qed.

Lemma place_self (c : Z) : place c 4 = c.
Proof.
  unfold place.
  pose proof (Z.div_mod c 2 ltac:(lia)) as Hd.
  pose proof (Z.mod_pos_bound c 2 ltac:(lia)) as Hr.
  destruct (divmod_unique (2 * c) 4 (c / 2) (2 * (c mod 2))) as [-> ->]; [lia|lia|].
  destruct (Z.eqb_spec (2 * (c mod 2)) 0); lia.
Qed.

Lemma binary_round_aux_overflow (m e : Z) (l : location) :
  0 ≤ m →
  e ≤ fexp prec emax (Zdigits2 m + e) →
  971 < fexp prec emax (Zdigits2 m + e) →
  binary_round_aux prec emax false m e l = S754_infinity false.
Proof.
  intros Hm Hpre Hbig.
  pose proof (eq_sym (place_self (code (shr_record_of_loc m l)))) as Hc.
  rewrite (binary_round_aux_pack m e l _ 4 Hm Hpre ltac:(lia) Hc).
  destruct (rounded_bounds m e l _ 4 Hm Hpre ltac:(lia) Hc) as (H2 & HF & Hn).
  destruct (pack_cases _ _ H2 HF Hn) as [[Hz _]|(_ & m3 & e3 & _ & _ & He3 & [[? _]|[_ ->]])];
    [|lia|done].
  specialize (Hn ltac:(lia)). lia.
Qed.

Lemma place_nonneg (A B : Z) : 0 ≤ A → 0 < B → 0 ≤ place A B.
Proof.
  intros HA HB. unfold place.
  assert (0 ≤ 2 * A / B) by (apply Z.div_pos; lia).
  destruct (_ =? 0); lia.
Qed.

Lemma code_floor (m : Z) (l : location) (A B : Z) :
  0 < B → code (shr_record_of_loc m l) = place A B → m * B ≤ A < (m + 1) * B.
Proof.
  intros HB Hc.
  assert (A / B = m) as Hdiv.
  { rewrite <- (place_div4 A B HB), <- Hc, (proj1 (code_bounds _)).
    apply inexact_record_of_loc. }
  pose proof (Z.div_mod A B ltac:(lia)). pose proof (Z.mod_pos_bound A B HB).
  rewrite Hdiv in *. lia.
Qed.

Lemma pow2_le (a b : Z) : 0 ≤ a ≤ b → 2 ^ a ≤ 2 ^ b.
Proof. intros. apply Z.pow_le_mono_r; lia. Qed.

Lemma pow2_lt_inv (a b : Z) : 0 ≤ a → 0 ≤ b → 2 ^ a < 2 ^ b → a < b.
Proof. intros Ha Hb Hlt. apply (Z.pow_lt_mono_r_iff 2); [lia|lia|done]. Qed.

Lemma bounded_pow2 (F : Z) : -1074 < F ≤ 971 → bounded prec emax 4503599627370496 F = true.
Proof.
  intros HF. unfold bounded, canonical_mantissa. rewrite fexp64_eq.
  change (Zpos (digits2_pos 4503599627370496)) with 53.
  apply andb_true_intro. split.
  - apply Z.eqb_eq. lia.
  - apply Z.leb_le. change (emax - prec) with 971. lia.
Qed.

Lemma SFleb_infinity (x : spec_float) : has_sign false x → SFleb x (S754_infinity false) = true.
Proof. destruct x as [s|s| |s m e]; simpl; try done; by intros ->. Qed.

(** Rounding is monotone: of two exact values, given by their codes, the
    smaller one does not round to the greater number. *)
Lemma binary_round_aux_mono (m e : Z) (l : location) (A B : Z)
    (m' e' : Z) (l' : location) (A' B' : Z) :
  0 ≤ m → 0 ≤ m' → -5000 ≤ e → -5000 ≤ e' →
  e ≤ fexp prec emax (Zdigits2 m + e) →
  e' ≤ fexp prec emax (Zdigits2 m' + e') →
  0 < B → 0 < B' →
  code (shr_record_of_loc m l) = place A B →
  code (shr_record_of_loc m' l') = place A' B' →
  A * B' * 2 ^ (e + 5000) ≤ A' * B * 2 ^ (e' + 5000) →
  SFleb (binary_round_aux prec emax false m e l)
        (binary_round_aux prec emax false m' e' l') = true.
Proof.
  intros Hm Hm' He He' Hpre Hpre' HB HB' Hc Hc' Hval.
  pose proof (code_floor m l A B HB Hc) as HA.
  pose proof (code_floor m' l' A' B' HB' Hc') as HA'.
  assert (0 ≤ A) as HA0 by nia.
  pose proof (pow2_pos (e + 5000) ltac:(lia)) as Hpa.
  pose proof (pow2_pos (e' + 5000) ltac:(lia)) as Hpa'.
  set (a := 2 ^ (e + 5000)) in *. set (a' := 2 ^ (e' + 5000)) in *.
  pose proof (fexp64_eq (Zdigits2 m + e)) as HF.
  pose proof (fexp64_eq (Zdigits2 m' + e')) as HF'.
  set (F := fexp prec emax (Zdigits2 m + e)) in *.
  set (F' := fexp prec emax (Zdigits2 m' + e')) in *.
  pose proof (Zdigits2_nonneg m Hm) as Hd0. pose proof (Zdigits2_nonneg m' Hm') as Hd0'.
  (* the value of [m] against its number of digits *)
  assert (m < 2 ^ Zdigits2 m) as Hmd.
  { destruct (Z.eq_dec m 0) as [->|]; [done|].
    by destruct (Zdigits2_bounds m ltac:(lia)) as [_ [_ ?]]. }
  assert (0 < m' → 2 ^ (Zdigits2 m' - 1) ≤ m') as Hmd'.
  { intros Hpos. by destruct (Zdigits2_bounds m' Hpos) as [_ [? _]]. }
  destruct (Z.lt_trichotomy F F') as [Hlt|[Heq|Hgt]].
  - (* different binades: a power of two lies between the two values *)
    assert (0 < m') as Hpos'.
    { destruct (Z.eq_dec m' 0) as [Hz|]; [|lia]. subst m'.
      change (Zdigits2 0) with 0 in *. lia. }
    specialize (Hmd' Hpos').
    destruct (Z.le_gt_cases F' 971) as [Hfin|Hinf].
    + pose proof (bounded_pow2 F' ltac:(lia)) as Hg.
      apply (SFleb_trans _ (S754_finite false 4503599627370496 F')).
      * apply binary_round_aux_upper; [done|done|done|done| |].
        -- apply Z.lt_le_incl. unfold scaled.
           change (Zpos 4503599627370496) with (2 ^ 52). rewrite <- Z.pow_add_r by lia.
           fold a. assert (2 ^ Zdigits2 m * a ≤ 2 ^ (52 + (F' + 5000))); [|nia].
           unfold a. rewrite <- Z.pow_add_r by lia. apply pow2_le. lia.
        -- intros _. unfold scaled.
           change (Zpos 4503599627370496) with (2 ^ 52). rewrite <- Z.pow_add_r by lia.
           fold a. assert (2 ^ Zdigits2 m * a ≤ 2 ^ (52 + (F' + 5000))); [|nia].
           unfold a. rewrite <- Z.pow_add_r by lia. apply pow2_le. lia.
      * apply binary_round_aux_lower; [done|done|done|done|].
        unfold scaled. change (Zpos 4503599627370496) with (2 ^ 52).
        rewrite <- Z.pow_add_r by lia. fold a'.
        assert (2 ^ (52 + (F' + 5000)) ≤ 2 ^ (Zdigits2 m' - 1) * a'); [|nia].
        unfold a'. rewrite <- Z.pow_add_r by lia. apply pow2_le. lia.
    + rewrite (binary_round_aux_overflow m' e' l') by (done || lia).
      apply SFleb_infinity. by apply binary_round_aux_sign.
  - (* the same binade: the codes are in order *)
    rewrite (binary_round_aux_pack m e l A B) by done.
    rewrite (binary_round_aux_pack m' e' l' A' B') by done.
    destruct (rounded_bounds m e l A B Hm Hpre HB Hc) as (H2 & HF1 & Hn).
    destruct (rounded_bounds m' e' l' A' B' Hm' Hpre' HB' Hc') as (H2' & _ & _).
    cbv zeta in *. fold F F' in H2, H2', Hn, HF1 |- *. rewrite <- Heq in *.
    apply pack_mono; [lia| |lia|done|done].
    pose proof (pow2_pos (F - e) ltac:(lia)) as HP.
    pose proof (pow2_pos (F - e') ltac:(lia)) as HP'.
    apply round_code_mono; [apply place_nonneg; [done|nia]|].
    apply place_mono; [done|nia|nia|].
    set (P := 2 ^ (F - e)) in *. set (P' := 2 ^ (F - e')) in *.
    assert (P * a = P' * a') as HX.
    { unfold P, P', a, a'. rewrite <- !Z.pow_add_r by lia. f_equal. lia. }
    apply (Z.mul_le_mono_pos_r _ _ (a * a')); [nia|].
    replace (A * (B' * P') * (a * a')) with (A * B' * a * (P' * a')) by ring.
    replace (A' * (B * P) * (a * a')) with (A' * B * a' * (P * a)) by ring.
    rewrite <- HX. apply Z.mul_le_mono_nonneg_r; [nia|done].
  - (* the smaller value cannot lie in the higher binade *)
    exfalso.
    assert (0 < m) as Hpos.
    { destruct (Z.eq_dec m 0) as [Hz|]; [|lia]. subst m.
      change (Zdigits2 0) with 0 in *. lia. }
    destruct (Zdigits2_bounds m Hpos) as [_ [Hlo _]].
    assert (m' < 2 ^ Zdigits2 m') as Hhi'.
    { destruct (Z.eq_dec m' 0) as [->|]; [done|].
      by destruct (Zdigits2_bounds m' ltac:(lia)) as [_ [_ ?]]. }
    assert (Zdigits2 m' + e' < Zdigits2 m + e) as Hde by lia.
    assert (2 ^ Zdigits2 m' * a' ≤ 2 ^ (Zdigits2 m - 1) * a) as Hpow.
    { unfold a, a'. rewrite <- !Z.pow_add_r by lia. apply pow2_le. lia. }
    assert (A' * B * a' < A * B' * a); [|lia].
    set (D' := 2 ^ Zdigits2 m') in *. set (D := 2 ^ (Zdigits2 m - 1)) in *.
    assert (A' < D' * B') as H1 by nia.
    assert (D * B ≤ A) as H2 by nia.
    assert (A' * (B * a') < D' * B' * (B * a')) as H3
      by (apply Z.mul_lt_mono_pos_r; [nia|done]).
    assert (D * B * (B' * a) ≤ A * (B' * a)) as H4
      by (apply Z.mul_le_mono_nonneg_r; [nia|done]).
    assert (D' * a' * (B * B') ≤ D * a * (B * B')) as H5
      by (apply Z.mul_le_mono_nonneg_r; [nia|done]).
    replace (A' * B * a') with (A' * (B * a')) by ring.
    replace (A * B' * a) with (A * (B' * a)) by ring.
    replace (D' * B' * (B * a')) with (D' * a' * (B * B')) in H3 by ring.
    replace (D * B * (B' * a)) with (D * a * (B * B')) in H4 by ring.
    lia.
Qed.

Lemma code_exact (m : Z) : code (shr_record_of_loc m loc_Exact) = place m 1.
Proof.
  unfold code, place. simpl. rewrite Z.div_1_r, Z.mod_1_r. simpl. lia.
Qed.

Lemma binary_round_mono (mx : positive) (ex : Z) (mx' : positive) (ex' : Z) :
  -5000 ≤ ex → -5000 ≤ ex' →
  scaled (Zpos mx) ex ≤ scaled (Zpos mx') ex' →
  SFleb (binary_round prec emax false mx ex) (binary_round prec emax false mx' ex') = true.
Proof.
  intros Hex Hex' Hle. unfold binary_round.
  destruct (shl_align_spec mx ex (fexp prec emax (Zpos (digits2_pos mx) + ex))) as [He Hm].
  destruct (shl_align mx ex _) as [mz ez]. simpl in He, Hm.
  destruct (shl_align_spec mx' ex' (fexp prec emax (Zpos (digits2_pos mx') + ex')))
    as [He' Hm'].
  destruct (shl_align mx' ex' _) as [mz' ez']. simpl in He', Hm'.
  rewrite fexp64_eq in *.
  set (dx := Zpos (digits2_pos mx)) in *. set (dx' := Zpos (digits2_pos mx')) in *.
  assert (-5000 ≤ ez ∧ ez ≤ ex) as [Hez Hezx] by lia.
  assert (-5000 ≤ ez' ∧ ez' ≤ ex') as [Hez' Hezx'] by lia.
  assert (scaled (Zpos mz) ez = scaled (Zpos mx) ex) as Hv.
  { rewrite Hm. rewrite <- scaled_shift by lia. f_equal. lia. }
  assert (scaled (Zpos mz') ez' = scaled (Zpos mx') ex') as Hv'.
  { rewrite Hm'. rewrite <- scaled_shift by lia. f_equal. lia. }
  apply (binary_round_aux_mono _ _ _ (Zpos mz) 1 _ _ _ (Zpos mz') 1);
    try done; try lia; try apply code_exact.
  - rewrite Hm, Zdigits2_shift by lia. rewrite fexp64_eq.
    change (Zdigits2 (Zpos mx)) with dx. lia.
  - rewrite Hm', Zdigits2_shift by lia. rewrite fexp64_eq.
    change (Zdigits2 (Zpos mx')) with dx'. lia.
  - unfold scaled in Hv, Hv', Hle. lia.
Qed.

Lemma binary_normalize_mono (M e M' e' : Z) :
  0 ≤ M → -5000 ≤ e → -5000 ≤ e' →
  scaled M e ≤ scaled M' e' →
  SFleb (binary_normalize prec emax M e false) (binary_normalize prec emax M' e' false) = true.
Proof.
  intros HM He He' Hle.
  assert (0 ≤ M') as HM'.
  { unfold scaled in Hle. pose proof (pow2_pos (e + 5000) ltac:(lia)).
    pose proof (pow2_pos (e' + 5000) ltac:(lia)). nia. }
  destruct M as [|p|p]; [|clear HM|lia].
  - destruct M' as [|p'|p']; [done| |lia]. simpl.
    apply has_sign_nonneg, binary_round_sign.
  - destruct M' as [|p'|p']; [|by apply binary_round_mono|lia].
    pose proof (scaled_pos (Zpos p) e ltac:(lia) ltac:(lia)). unfold scaled in *. lia.
Qed.

(** *** The operations are monotone *)

Lemma SFleb_zero_nonneg (s : bool) (x : spec_float) :
  sf_nonneg x → SFleb (S754_zero s) x = true.
Proof. intros Hx%sf_nonneg_cases. destruct x as [sx|sx| |sx m e]; try done; by subst. Qed.

Lemma finite_nonneg_sf_nonneg (x : spec_float) : finite_nonneg x → sf_nonneg x.
Proof. intros Hx. apply sf_nonneg_cases. by destruct x as [s|s| |[] m e]. Qed.

Lemma finite_nonneg_sval_pos (m : positive) (e : Z) :
  bounded prec emax m e = true → 0 < scaled (Zpos m) e.
Proof. intros Hb%finite_nonneg_exponent. apply scaled_pos; lia. Qed.

Lemma SFleb_of_sval (x x' : spec_float) :
  finite_nonneg x → finite_nonneg x' → sval x ≤ sval x' → SFleb x x' = true.
Proof.
  intros Hx Hx' Hle.
  destruct x as [s|s| |[] m e]; try done.
  - destruct x' as [s'|s'| |[] m' e']; done.
  - destruct x' as [s'|s'| |[] m' e']; try done.
    + simpl in Hle, Hx. pose proof (finite_nonneg_sval_pos _ _ Hx). lia.
    + by apply (scaled_le_SFleb (S754_finite false m' e')).
Qed.

Lemma SFmul_mono (x x' : spec_float) (mc : positive) (ec : Z) :
  finite_nonneg x → finite_nonneg x' →
  bounded prec emax mc ec = true →
  sval x ≤ sval x' →
  SFleb (SFmul prec emax x (S754_finite false mc ec))
        (SFmul prec emax x' (S754_finite false mc ec)) = true.
Proof.
  intros Hx Hx' Hc Hle.
  destruct (bounded_positioned _ _ Hc) as [Hpc _]. pose proof Hpc as (_ & Hec & _).
  destruct x as [s|s| |[] m e]; try done.
  - simpl SFmul at 1.
    by apply SFleb_zero_nonneg, SFmul_nonneg_finite, finite_nonneg_sf_nonneg.
  - destruct x' as [s'|s'| |[] m' e']; try done.
    { simpl in Hle, Hx. pose proof (finite_nonneg_sval_pos _ _ Hx). lia. }
    simpl in Hx, Hx', Hle.
    destruct (bounded_positioned _ _ Hx) as [Hpx _]. pose proof Hpx as (_ & Hex & _).
    destruct (bounded_positioned _ _ Hx') as [Hpx' _]. pose proof Hpx' as (_ & Hex' & _).
    simpl.
    apply (binary_round_aux_mono _ _ _ (Zpos (m * mc)) 1 _ _ _ (Zpos (m' * mc)) 1);
      try done; try lia; try apply code_exact.
    + by apply SFmul_finite_pre.
    + by apply SFmul_finite_pre.
    + pose proof (scaled_mul_mono (Zpos m) e (Zpos m') e' (Zpos mc) ec
                    ltac:(lia) ltac:(lia) ltac:(lia) ltac:(lia) Hle) as Hmul.
      unfold scaled in Hmul. rewrite !Pos2Z.inj_mul. lia.
Qed.

Lemma SFadd_mono_r (c x x' : spec_float) :
  finite_nonneg c → finite_nonneg x → finite_nonneg x' →
  sval x ≤ sval x' →
  SFleb (SFadd prec emax c x) (SFadd prec emax c x') = true.
Proof.
  intros Hc Hx Hx' Hle.
  pose proof (sval_nonneg _ Hx) as Hx0.
  destruct c as [sc|sc| |[] mc ec]; try done.
  - (* c is a zero: the sums are the summands *)
    destruct x as [s|s| |[] m e]; try done.
    + destruct x' as [s'|s'| |[] m' e']; try done; simpl.
      * by destruct sc, s, s'.
      * by destruct sc, s.
    + destruct x' as [s'|s'| |[] m' e']; try done.
      * simpl in Hle, Hx. pose proof (finite_nonneg_sval_pos _ _ Hx). lia.
      * by apply (SFleb_of_sval (S754_finite false m e) (S754_finite false m' e')).
  - simpl in Hc. pose proof (finite_nonneg_exponent _ _ Hc) as Hec.
    destruct x as [s|s| |[] m e]; try done.
    + (* x is a zero: the first sum is c *)
      simpl SFadd at 1.
      destruct x' as [s'|s'| |[] m' e']; try done.
      * by apply (SFleb_of_sval (S754_finite false mc ec) (S754_finite false mc ec)).
      * apply SFadd_lower; [done|done|done|]. simpl. simpl in Hx'.
        pose proof (finite_nonneg_sval_pos _ _ Hx'). lia.
    + destruct x' as [s'|s'| |[] m' e']; try done.
      { simpl in Hle, Hx. pose proof (finite_nonneg_sval_pos _ _ Hx). lia. }
      simpl in Hx, Hx', Hle.
      pose proof (finite_nonneg_exponent _ _ Hx). pose proof (finite_nonneg_exponent _ _ Hx').
      unfold SFadd, cond_Zopp. cbv zeta.
      apply binary_normalize_mono; [lia|lia|lia|].
      rewrite !scaled_add, !aligned_scaled by lia.
      rewrite (Z.min_comm ec e), (Z.min_comm ec e'), !aligned_scaled by lia. lia.
Qed.

Lemma aligned_sub (mx : positive) (ex : Z) (my : positive) (ey : Z) :
  -5000 ≤ ex → -5000 ≤ ey →
  scaled (Zpos (shl_align mx ex (Z.min ex ey)).1
          - Zpos (shl_align my ey (Z.min ex ey)).1) (Z.min ex ey)
  = scaled (Zpos mx) ex - scaled (Zpos my) ey.
Proof.
  intros Hex Hey. rewrite scaled_sub, aligned_scaled by lia.
  by rewrite (Z.min_comm ex ey), aligned_scaled by lia.
Qed.

Lemma scaled_nonneg_inv (M e : Z) : -5000 ≤ e → 0 ≤ scaled M e → 0 ≤ M.
Proof.
  intros He HM. unfold scaled in HM. pose proof (pow2_pos (e + 5000) ltac:(lia)). nia.
Qed.

(** [x - c] is monotone in [x], for [c <= x <= x']. *)
Lemma SFsub_mono_l (x x' c : spec_float) :
  finite_nonneg c → finite_nonneg x → finite_nonneg x' →
  sval c ≤ sval x → sval x ≤ sval x' →
  SFleb (SFsub prec emax x c) (SFsub prec emax x' c) = true.
Proof.
  intros Hc Hx Hx' Hcx Hle.
  destruct c as [sc|sc| |[] mc ec]; try done.
  - destruct x as [s|s| |[] m e]; try done.
    + destruct x' as [s'|s'| |[] m' e']; try done; simpl.
      * by destruct s, sc, s'.
      * by destruct s, sc.
    + destruct x' as [s'|s'| |[] m' e']; try done.
      * simpl in Hle, Hx. pose proof (finite_nonneg_sval_pos _ _ Hx). lia.
      * by apply (SFleb_of_sval (S754_finite false m e) (S754_finite false m' e')).
  - simpl in Hc. pose proof (finite_nonneg_sval_pos _ _ Hc) as Hcpos.
    pose proof (finite_nonneg_exponent _ _ Hc) as Hec.
    destruct x as [s|s| |[] m e]; try done; [simpl in Hcx; lia|].
    destruct x' as [s'|s'| |[] m' e']; try done.
    { simpl in Hle, Hx. pose proof (finite_nonneg_sval_pos _ _ Hx). lia. }
    simpl in Hx, Hx', Hle, Hcx.
    pose proof (finite_nonneg_exponent _ _ Hx). pose proof (finite_nonneg_exponent _ _ Hx').
    unfold SFsub, cond_Zopp. cbv zeta.
    apply binary_normalize_mono; [|lia|lia|].
    + apply (scaled_nonneg_inv _ (Z.min e ec)); [lia|]. rewrite aligned_sub by lia. lia.
    + rewrite !aligned_sub by lia. lia.
Qed.

(** [c - x] is antitone in [x], for [x <= x' <= c]. *)
Lemma SFsub_anti_r (c x x' : spec_float) :
  finite_nonneg c → finite_nonneg x → finite_nonneg x' →
  sval x ≤ sval x' → sval x' ≤ sval c →
  SFleb (SFsub prec emax c x') (SFsub prec emax c x) = true.
Proof.
  intros Hc Hx Hx' Hle Hxc.
  pose proof (sval_nonneg _ Hx) as Hx0.
  destruct c as [sc|sc| |[] mc ec]; try done.
  - destruct x' as [s'|s'| |[] m' e']; try done.
    + destruct x as [s|s| |[] m e]; try done.
      * simpl. by destruct sc, s, s'.
      * simpl in Hle, Hx. pose proof (finite_nonneg_sval_pos _ _ Hx). lia.
    + simpl in Hxc, Hx'. pose proof (finite_nonneg_sval_pos _ _ Hx'). lia.
  - simpl in Hc. pose proof (finite_nonneg_exponent _ _ Hc) as Hec.
    destruct x' as [s'|s'| |[] m' e']; try done.
    + destruct x as [s|s| |[] m e]; try done.
      * simpl. by apply (SFleb_of_sval (S754_finite false mc ec) (S754_finite false mc ec)).
      * simpl in Hle, Hx. pose proof (finite_nonneg_sval_pos _ _ Hx). lia.
    + destruct x as [s|s| |[] m e]; try done.
      * simpl SFsub at 2.
        apply (SFsub_upper (S754_finite false mc ec) (S754_finite false m' e') mc ec);
          [done|done|done|done|]. simpl. simpl in Hx'.
        pose proof (finite_nonneg_sval_pos _ _ Hx'). lia.
      * simpl in Hx, Hx', Hle, Hxc.
        pose proof (finite_nonneg_exponent _ _ Hx).
        pose proof (finite_nonneg_exponent _ _ Hx').
        unfold SFsub, cond_Zopp. cbv zeta.
        apply binary_normalize_mono; [|lia|lia|].
        -- apply (scaled_nonneg_inv _ (Z.min ec e')); [lia|]. rewrite aligned_sub by lia. lia.
        -- rewrite !aligned_sub by lia. lia.
Qed.

(** *** Division *)

(** The location of a remainder is the code of the quotient. *)
Lemma code_new_location (q r mc : Z) :
  0 ≤ r < mc →
  code (shr_record_of_loc q (new_location mc r)) = place (q * mc + r) mc.
Proof.
  intros Hr. unfold place.
  assert (2 * (q * mc + r) = 2 * r + (2 * q) * mc) as -> by ring.
  rewrite Z.div_add, Z.mod_add by lia.
  assert (0 ≤ 2 * r / mc ≤ 1) as Hh.
  { split; [apply Z.div_pos; lia|].
    assert (2 * r / mc < 2); [|lia]. apply Z.div_lt_upper_bound; lia. }
  pose proof (Z.div_mod (2 * r) mc ltac:(lia)) as Hdm.
  pose proof (Z.mod_pos_bound (2 * r) mc ltac:(lia)) as Hrho.
  set (h := 2 * r / mc) in *. set (rho := (2 * r) mod mc) in *.
  cbv [new_location new_location_even new_location_odd].
  clearbody h rho.
  assert (h = 0 ∨ h = 1) as Hh01 by lia.
  assert (rho ≠ 0 → (if rho =? 0 then 0 else 1) = 1) as Hrho1
    by (intros; by destruct (Z.eqb_spec rho 0)).
  destruct (Z.even mc) eqn:Heven; cbv beta;
    (destruct (Z.eqb_spec r 0) as [->|Hr0];
     [assert (h = 0) as -> by (destruct Hh01 as [->| ->]; lia);
      assert (rho = 0) as -> by lia; unfold code; simpl; lia|]).
  - destruct (Z.compare_spec (2 * r) mc) as [Heq|Hlt|Hgt]; unfold code; simpl.
    + destruct Hh01 as [->| ->]; [lia|].
      assert (rho = 0) as -> by lia. simpl. lia.
    + destruct Hh01 as [->| ->]; [|lia]. rewrite Hrho1 by lia. lia.
    + destruct Hh01 as [->| ->]; [lia|]. rewrite Hrho1 by lia. lia.
  - assert (2 * r ≠ mc) as Hne.
    { intros Heq. rewrite <- Heq, Z.even_mul in Heven. done. }
    destruct (Z.compare_spec (2 * r + 1) mc) as [Heq|Hlt|Hgt]; unfold code; simpl.
    + destruct Hh01 as [->| ->]; [|lia]. rewrite Hrho1 by lia. lia.
    + destruct Hh01 as [->| ->]; [|lia]. rewrite Hrho1 by lia. lia.
    + destruct Hh01 as [->| ->]; [lia|]. rewrite Hrho1 by lia. lia.
Qed.

Lemma SFdiv_core_code (mx : positive) (ex : Z) (mc : positive) (ec : Z) :
  positioned (Zpos mx) ex → positioned (Zpos mc) ec → ex ≤ 971 → ec ≤ 971 →
  let q := (SFdiv_core_binary prec emax (Zpos mx) ex (Zpos mc) ec).1.1 in
  let e' := (SFdiv_core_binary prec emax (Zpos mx) ex (Zpos mc) ec).1.2 in
  let l := (SFdiv_core_binary prec emax (Zpos mx) ex (Zpos mc) ec).2 in
  ∃ s, 0 ≤ s ∧ e' + s = ex - ec
       ∧ code (shr_record_of_loc q l) = place (Zpos mx * 2 ^ s) (Zpos mc)
       ∧ 0 ≤ q
       ∧ e' ≤ fexp prec emax (Zdigits2 q + e')
       ∧ -5000 ≤ e'.
Proof.
  intros Hx Hc Hexmax Hecmax.
  destruct (SFdiv_core_spec mx ex mc ec Hx Hc Hexmax Hecmax)
    as (s & r & Hs & Hes & Hqr & Hr & _ & Hq & Hpre & He').
  intros q e' l. subst q e' l. exists s.
  split_and!; try done.
  revert Hes Hqr Hr. unfold SFdiv_core_binary.
  set (e' := Z.min _ _). set (s' := ex - ec - e').
  set (m' := match s' with Z0 => Zpos mx | Zpos _ => Z.shiftl (Zpos mx) s' | Zneg _ => 0 end).
  pose proof (Z_div_mod m' (Zpos mc) ltac:(lia)) as Hdiv.
  destruct (Z.div_eucl m' (Zpos mc)) as [q0 r0]. simpl.
  destruct Hdiv as [Hqr0 Hr0]. intros Hes Hqr Hr.
  assert (s = s') as -> by (subst s'; lia).
  assert (m' = Zpos mx * 2 ^ s') as Hm'.
  { subst m'. destruct s' as [|p|p] eqn:Hseq; [simpl; lia| |lia].
    by rewrite Z.shiftl_mul_pow2 by lia. }
  rewrite code_new_location by done. f_equal. lia.
Qed.

Lemma SFdiv_mono (x x' : spec_float) (mc : positive) (ec : Z) :
  finite_nonneg x → finite_nonneg x' →
  bounded prec emax mc ec = true →
  sval x ≤ sval x' →
  SFleb (SFdiv prec emax x (S754_finite false mc ec))
        (SFdiv prec emax x' (S754_finite false mc ec)) = true.
Proof.
  intros Hx Hx' Hc Hle.
  destruct (bounded_positioned _ _ Hc) as [Hpc Hecmax]. pose proof Hpc as (_ & Hec & _).
  destruct x as [s|s| |[] m e]; try done.
  - simpl SFdiv at 1.
    by apply SFleb_zero_nonneg, SFdiv_nonneg_finite, finite_nonneg_sf_nonneg.
  - destruct x' as [s'|s'| |[] m' e']; try done.
    { simpl in Hle, Hx. pose proof (finite_nonneg_sval_pos _ _ Hx). lia. }
    simpl in Hx, Hx', Hle.
    destruct (bounded_positioned _ _ Hx) as [Hpx Hexmax]. pose proof Hpx as (_ & Hex & _).
    destruct (bounded_positioned _ _ Hx') as [Hpx' Hexmax']. pose proof Hpx' as (_ & Hex' & _).
    simpl.
    destruct (SFdiv_core_code m e mc ec Hpx Hpc Hexmax Hecmax)
      as (s & Hs & Hes & Hcode & Hq & Hpre & He').
    destruct (SFdiv_core_code m' e' mc ec Hpx' Hpc Hexmax' Hecmax)
      as (s' & Hs' & Hes' & Hcode' & Hq' & Hpre' & He'').
    destruct (SFdiv_core_binary prec emax (Zpos m) e (Zpos mc) ec) as [[q e1] l].
    destruct (SFdiv_core_binary prec emax (Zpos m') e' (Zpos mc) ec) as [[q' e1'] l'].
    simpl in *.
    apply (binary_round_aux_mono q e1 l (Zpos m * 2 ^ s) (Zpos mc)
             q' e1' l' (Zpos m' * 2 ^ s') (Zpos mc)); try done; try lia.
    (* the two quotients, brought to one exponent *)
    assert (Zpos m * 2 ^ s * 2 ^ (e1 + 5000) ≤ Zpos m' * 2 ^ s' * 2 ^ (e1' + 5000)) as Hq2.
    { rewrite <- !Z.mul_assoc, <- !Z.pow_add_r by lia.
      replace (s + (e1 + 5000)) with (e - ec + 5000) by lia.
      replace (s' + (e1' + 5000)) with (e' - ec + 5000) by lia.
      unfold scaled in Hle.
      apply (Z.mul_le_mono_pos_r _ _ (2 ^ (ec + 1074))); [apply pow2_pos; lia|].
      rewrite <- !Z.mul_assoc, <- !Z.pow_add_r by lia.
      replace (e - ec + 5000 + (ec + 1074)) with (e + 5000 + 1074) by lia.
      replace (e' - ec + 5000 + (ec + 1074)) with (e' + 5000 + 1074) by lia.
      rewrite (Z.pow_add_r 2 (e + 5000) 1074), (Z.pow_add_r 2 (e' + 5000) 1074) by lia.
      rewrite !Z.mul_assoc. apply Z.mul_le_mono_nonneg_r; [lia|exact Hle]. }
    pose proof (Pos2Z.is_pos mc).
    replace (Zpos m * 2 ^ s * Zpos mc * 2 ^ (e1 + 5000))
      with (Zpos m * 2 ^ s * 2 ^ (e1 + 5000) * Zpos mc) by ring.
    replace (Zpos m' * 2 ^ s' * Zpos mc * 2 ^ (e1' + 5000))
      with (Zpos m' * 2 ^ s' * 2 ^ (e1' + 5000) * Zpos mc) by ring.
    apply Z.mul_le_mono_nonneg_r; [lia|done].
Qed.

End rounding_codes.

(** ** The level of service is monotone *)

Section density_monotone.

(** Two numbers in order below a finite bound, as scaled integers. *)
Lemma ordered_finite (x x' G : float) :
  sf_pos (Prim2SF G) = true →
  PrimFloat.leb 0 x = true → PrimFloat.leb x x' = true → PrimFloat.leb x' G = true →
  finite_nonneg (Prim2SF x) ∧ finite_nonneg (Prim2SF x')
  ∧ (sval (Prim2SF x) ≤ sval (Prim2SF x'))%Z
  ∧ within x G ∧ within x' G.
Proof.
  intros (mg & eg & HG & Hbg)%sf_pos_inv H0 Hxx' Hx'G.
  pose proof (float_leb_trans _ _ _ H0 Hxx') as H0'.
  pose proof (float_leb_trans _ _ _ Hxx' Hx'G) as HxG.
  assert (within x G) as Hw by done. assert (within x' G) as Hw' by done.
  rewrite within_SF, HG in Hw, Hw'.
  destruct (between_sval (Prim2SF x) mg eg) as [Hx _]; [apply Prim2SF_valid|done|tauto..|].
  destruct (between_sval (Prim2SF x') mg eg) as [Hx' _]; [apply Prim2SF_valid|done|tauto..|].
  split_and!; try done.
  apply SFleb_sval; [done..|]. by rewrite <- FloatAxioms.leb_spec.
Qed.

Lemma float_mul_mono (x x' c G : float) :
  sf_pos (Prim2SF c) = true → sf_pos (Prim2SF G) = true →
  PrimFloat.leb 0 x = true → PrimFloat.leb x x' = true → PrimFloat.leb x' G = true →
  PrimFloat.leb (x * c) (x' * c) = true.
Proof.
  intros (mc & ec & Hc & Hbc)%sf_pos_inv HG H0 Hxx' Hx'G.
  destruct (ordered_finite x x' G HG H0 Hxx' Hx'G) as (Hx & Hx' & Hle & _).
  rewrite FloatAxioms.leb_spec, !FloatAxioms.mul_spec, Hc. by apply SFmul_mono.
Qed.

Lemma float_div_mono (x x' c G : float) :
  sf_pos (Prim2SF c) = true → sf_pos (Prim2SF G) = true →
  PrimFloat.leb 0 x = true → PrimFloat.leb x x' = true → PrimFloat.leb x' G = true →
  PrimFloat.leb (x / c) (x' / c) = true.
Proof.
  intros (mc & ec & Hc & Hbc)%sf_pos_inv HG H0 Hxx' Hx'G.
  destruct (ordered_finite x x' G HG H0 Hxx' Hx'G) as (Hx & Hx' & Hle & _).
  rewrite FloatAxioms.leb_spec, !FloatAxioms.div_spec, Hc. by apply SFdiv_mono.
Qed.

Lemma float_add_mono_r (m x x' G : float) :
  sf_fin (Prim2SF m) = true → sf_pos (Prim2SF G) = true →
  PrimFloat.leb 0 x = true → PrimFloat.leb x x' = true → PrimFloat.leb x' G = true →
  PrimFloat.leb (m + x) (m + x') = true.
Proof.
  intros Hm%sf_fin_inv HG H0 Hxx' Hx'G.
  destruct (ordered_finite x x' G HG H0 Hxx' Hx'G) as (Hx & Hx' & Hle & _).
  rewrite FloatAxioms.leb_spec, !FloatAxioms.add_spec. by apply SFadd_mono_r.
Qed.

Lemma float_sub_mono_l (d d' low P : float) :
  sf_fin (Prim2SF low) = true → sf_pos (Prim2SF P) = true →
  PrimFloat.leb low d = true → PrimFloat.leb d d' = true → PrimFloat.leb d' P = true →
  PrimFloat.leb (d - low) (d' - low) = true.
Proof.
  intros Hlow%sf_fin_inv HP Hld Hdd' Hd'P.
  assert (PrimFloat.leb 0 d = true) as H0.
  { rewrite FloatAxioms.leb_spec in *. change (Prim2SF 0) with (S754_zero false).
    destruct (Prim2SF low) as [sl|sl| |[] ml el]; try done;
      by destruct (Prim2SF d) as [s|[]| |[] m e]. }
  destruct (ordered_finite d d' P HP H0 Hdd' Hd'P) as (Hd & Hd' & Hle & _).
  rewrite FloatAxioms.leb_spec, !FloatAxioms.sub_spec.
  apply SFsub_mono_l; [done..| |done].
  apply SFleb_sval; [done..|]. by rewrite <- FloatAxioms.leb_spec.
Qed.

Lemma float_sub_anti_r (c x x' : float) :
  sf_pos (Prim2SF c) = true →
  PrimFloat.leb 0 x = true → PrimFloat.leb x x' = true → PrimFloat.leb x' c = true →
  PrimFloat.leb (c - x') (c - x) = true.
Proof.
  intros Hc H0 Hxx' Hx'c.
  destruct (ordered_finite x x' c Hc H0 Hxx' Hx'c) as (Hx & Hx' & Hle & _ & Hw').
  pose proof Hc as (mc & ec & Hceq & Hbc)%sf_pos_inv.
  rewrite FloatAxioms.leb_spec, !FloatAxioms.sub_spec.
  apply SFsub_anti_r; [by rewrite Hceq|done|done|done|].
  apply SFleb_sval; [by rewrite Hceq|done|]. by rewrite <- FloatAxioms.leb_spec.
Qed.

(** Within one band the raw level does not fall as the density grows. *)
Lemma band_raw_mono low high m n d d' :
  band_raw_fits ((low, high), (m, n)) = true →
  PrimFloat.leb low d = true → PrimFloat.leb d d' = true →
  PrimFloat.ltb d' high = true →
  PrimFloat.leb (m + (d - low) * 0.2 / (high - low))
                (m + (d' - low) * 0.2 / (high - low)) = true.
Proof.
  unfold band_raw_fits. destruct (band_bounds low high) as [[[P Ga] Gb] Gq].
  rewrite !andb_true_iff. intros [[[[[HP Ha] Hb] Hq] Hr] Hm] Hlow Hdd' Hhigh.
  pose proof (float_leb_ltb_trans _ _ _ Hdd' Hhigh) as Hhigh0.
  pose proof (float_ltb_pred _ _ _ HP Hhigh) as HdP'.
  pose proof (float_ltb_pred _ _ _ HP Hhigh0) as HdP.
  pose proof (float_leb_trans _ _ _ Hlow Hdd') as Hlow'.
  pose proof (float_sub_within _ _ _ _ Ha Hlow HdP) as [Ha0 HaG].
  pose proof (float_sub_within _ _ _ _ Ha Hlow' HdP') as Hwa'.
  pose proof Hwa' as [Ha0' HaG'].
  pose proof (float_mul_within _ _ _ _ Hb (conj Ha0 HaG)) as [Hb0 HbG].
  pose proof (float_mul_within _ _ _ _ Hb Hwa') as Hwb'.
  pose proof Hwb' as [Hb0' HbG'].
  pose proof (float_div_within _ _ _ _ Hq (conj Hb0 HbG)) as [Hq0 HqG].
  pose proof (float_div_within _ _ _ _ Hq Hwb') as [Hq0' HqG'].
  unfold sub_fits, mul_fits, div_fits, add_fits in Ha, Hb, Hq, Hr. cbv zeta in Ha, Hb, Hq, Hr.
  rewrite !andb_true_iff in Ha, Hb, Hq, Hr.
  destruct Ha as [[[Hflow HpP] HpGa] _], Hb as [[[_ Hp02] HpGb] _],
    Hq as [[[_ HpD] HpGq] _].
  assert (PrimFloat.leb (d - low) (d' - low) = true) as Hsa
    by by apply (float_sub_mono_l _ _ _ P).
  assert (PrimFloat.leb ((d - low) * 0.2) ((d' - low) * 0.2) = true) as Hsb
    by by apply (float_mul_mono _ _ _ Ga).
  assert (PrimFloat.leb ((d - low) * 0.2 / (high - low))
                        ((d' - low) * 0.2 / (high - low)) = true) as Hsq
    by by apply (float_div_mono _ _ _ Gb).
  by apply (float_add_mono_r _ _ _ Gq).
Qed.

Lemma rising_cons n0 lo low high m n table :
  rising n0 lo (((low, high), (m, n)) :: table) = true →
  PrimFloat.leb low lo = true ∧ PrimFloat.leb n0 m = true ∧ PrimFloat.leb m n = true
  ∧ band_raw_fits ((low, high), (m, n)) = true
  ∧ sf_pos (Prim2SF high) = true
  ∧ PrimFloat.eqb (PrimFloat.sub high low) 0%float = false
  ∧ rising n high table = true.
Proof.
  cbn [rising]. rewrite !andb_true_iff, negb_true_iff. tauto.
Qed.

(** In a rising table a looked-up raw level is at least the level the
    table starts from. *)
Lemma los_lookup_floor table n0 lo d raw :
  rising n0 lo table = true →
  PrimFloat.leb lo d = true →
  los_lookup table d = Some raw →
  PrimFloat.leb n0 raw = true.
Proof.
  revert n0 lo raw.
  induction table as [|[[low high] [m n]] table IH]; intros n0 lo raw Hr Hlo.
  - intros [= <-]. done.
  - apply rising_cons in Hr as (Hlow & Hn0 & Hmn & Hfit & Hhigh & Hne & Hr).
    rewrite los_lookup_cons, (py_truediv_nonzero _ _ Hne).
    destruct (PrimFloat.ltb d high) eqn:Hlt.
    + intros [= <-].
      destruct (band_raw_range _ _ _ _ d Hfit) as [Hge _];
        [by apply (float_leb_trans _ lo)|done|].
      by apply (float_leb_trans _ m).
    + intros Hl. apply (float_leb_trans _ n); [by apply (float_leb_trans _ m)|].
      apply (IH n high); [done| |done].
      destruct (float_ltb_false _ _ Hlt Hhigh) as [Hnan|]; [|done].
      rewrite FloatAxioms.leb_spec, Hnan in Hlo. by destruct (Prim2SF lo) as [|[]| |].
Qed.

(** The raw level looked up in a rising table does not fall as the
    density grows. *)
Lemma los_lookup_mono table n0 lo d d' raw raw' :
  rising n0 lo table = true →
  PrimFloat.leb lo d = true → PrimFloat.leb d d' = true →
  los_lookup table d = Some raw → los_lookup table d' = Some raw' →
  PrimFloat.leb raw raw' = true.
Proof.
  revert n0 lo raw raw'. induction table as [|[[low high] [m n]] table IH];
    intros n0 lo raw raw' Hr Hlo Hdd'.
  - by intros [= <-] [= <-].
  - apply rising_cons in Hr as (Hlow & Hn0 & Hmn & Hfit & Hhigh & Hne & Hr).
    rewrite !los_lookup_cons, !(py_truediv_nonzero _ _ Hne).
    pose proof (float_leb_trans _ _ _ Hlow Hlo) as Hlowd.
    assert (PrimFloat.ltb d high = false → PrimFloat.leb high d = true) as Hpast.
    { intros Hlt. destruct (float_ltb_false _ _ Hlt Hhigh) as [Hnan|]; [|done].
      rewrite FloatAxioms.leb_spec, Hnan in Hlo. by destruct (Prim2SF lo) as [|[]| |]. }
    destruct (PrimFloat.ltb d high) eqn:Hlt, (PrimFloat.ltb d' high) eqn:Hlt'.
    + intros [= <-] [= <-]. by apply (band_raw_mono _ _ _ n).
    + intros [= <-] Hl'.
      destruct (band_raw_range _ _ _ _ d Hfit) as [_ Hle]; [done..|].
      apply (float_leb_trans _ n); [done|].
      apply (los_lookup_floor table n high d'); [done| |done].
      destruct (float_ltb_false _ _ Hlt' Hhigh) as [Hnan|]; [|done].
      rewrite FloatAxioms.leb_spec, Hnan in Hdd'. by destruct (Prim2SF d) as [|[]| |].
    + intros _ _. specialize (Hpast eq_refl).
      pose proof (float_leb_trans _ _ _ Hpast Hdd') as Hhd'.
      assert (PrimFloat.leb high high = true) as Hhh.
      { apply sf_pos_inv in Hhigh as (mh & eh & Hh & _).
        rewrite FloatAxioms.leb_spec, Hh. unfold SFleb, SFcompare.
        by rewrite Z.compare_refl, Pos.compare_cont_refl. }
      pose proof (float_not_ltb _ _ _ Hhh Hhd'). congruence.
    + intros Hl Hl'. by apply (IH n high); [|apply Hpast|..].
Qed.

Lemma ranges_rising : rising 0 0 ranges = true.
Proof. vm_compute. reflexivity. Qed.

(** ** Numbers that may be infinite *)

Lemma float_nonneg_cases (x : float) :
  PrimFloat.leb 0 x = true →
  finite_nonneg (Prim2SF x) ∨ Prim2SF x = S754_infinity false.
Proof.
  rewrite FloatAxioms.leb_spec, prim_zero. pose proof (Prim2SF_valid x) as Hv.
  destruct (Prim2SF x) as [s|[]| |[] m e]; simpl; intros H0; try done; auto.
Qed.

Lemma float_leb_infinity (x : float) :
  PrimFloat.leb 0 x = true → PrimFloat.leb x infinity = true.
Proof.
  rewrite !FloatAxioms.leb_spec, prim_zero.
  change (Prim2SF infinity) with (S754_infinity false).
  by destruct (Prim2SF x) as [s|[]| |[] m e].
Qed.

Lemma float_infinity_leb (x : float) :
  Prim2SF x = S754_infinity false → ∀ y, PrimFloat.leb x y = true →
  Prim2SF y = S754_infinity false.
Proof.
  intros Hx y. rewrite FloatAxioms.leb_spec, Hx.
  by destruct (Prim2SF y) as [s|[]| |[] m e].
Qed.

Lemma float_leb_sval (x x' : float) :
  finite_nonneg (Prim2SF x) → finite_nonneg (Prim2SF x') →
  PrimFloat.leb x x' = true → (sval (Prim2SF x) ≤ sval (Prim2SF x'))%Z.
Proof. intros Hx Hx'. rewrite FloatAxioms.leb_spec. by apply SFleb_sval. Qed.

(** The product with a positive constant does not fall as the other
    factor grows, overflow included. *)
Lemma float_mul_mono_ext (x x' c : float) :
  sf_pos (Prim2SF c) = true →
  PrimFloat.leb 0 x = true → PrimFloat.leb x x' = true →
  PrimFloat.leb (x * c) (x' * c) = true.
Proof.
  intros Hc H0 Hxx'. pose proof (float_leb_trans _ _ _ H0 Hxx') as H0'.
  destruct (float_nonneg_cases x' H0') as [Hx'|Hx'].
  - destruct (float_nonneg_cases x H0) as [Hx|Hx].
    + apply sf_pos_inv in Hc as (mc & ec & Hc & Hbc).
      rewrite FloatAxioms.leb_spec, !FloatAxioms.mul_spec, Hc.
      apply SFmul_mono; [done..|]. by apply float_leb_sval.
    + rewrite (float_infinity_leb x Hx x' Hxx') in Hx'. done.
  - assert (Prim2SF (x' * c) = S754_infinity false) as Hinf.
    { apply sf_pos_inv in Hc as (mc & ec & Hc & Hbc).
      by rewrite FloatAxioms.mul_spec, Hx', Hc. }
    pose proof (float_leb_infinity _ (float_mul_nonneg x c Hc H0)) as Hle.
    rewrite FloatAxioms.leb_spec in *. by rewrite Hinf.
Qed.

(** The quotient by a divisor that is not negative: unless the greater
    quotient is a NaN, neither is negative and they are in order. *)
Lemma float_div_mono_ext (x x' y : float) :
  PrimFloat.leb 0 x = true → PrimFloat.leb x x' = true →
  nonneg_or_nan y → PrimFloat.eqb y 0 = false →
  Prim2SF (x' / y) = S754_nan
  ∨ (PrimFloat.leb 0 (x / y) = true ∧ PrimFloat.leb (x / y) (x' / y) = true).
Proof.
  intros H0 Hxx' Hy Hy0. pose proof (float_leb_trans _ _ _ H0 Hxx') as H0'.
  destruct Hy as [Hy|Hy].
  { left. rewrite FloatAxioms.div_spec, Hy. by destruct (Prim2SF x') as [|[]| |]. }
  pose proof (Prim2SF_valid y) as Hvy.
  rewrite FloatAxioms.eqb_spec, prim_zero in Hy0.
  rewrite FloatAxioms.leb_spec, prim_zero in Hy.
  destruct (Prim2SF y) as [sy|[]| |[] my ey] eqn:Hyeq; try done.
  - (* an infinite divisor *)
    destruct (float_nonneg_cases x' H0') as [Hx'|Hx'].
    + right. destruct (float_nonneg_cases x H0) as [Hx|Hx].
      * rewrite !FloatAxioms.leb_spec, prim_zero, !FloatAxioms.div_spec, Hyeq.
        destruct (Prim2SF x) as [s|s| |[] m e]; try done;
          by destruct (Prim2SF x') as [s'|s'| |[] m' e'].
      * rewrite (float_infinity_leb x Hx x' Hxx') in Hx'. done.
    + left. by rewrite FloatAxioms.div_spec, Hx', Hyeq.
  - (* a positive finite divisor *)
    right.
    assert (PrimFloat.leb 0 (x / y) = true) as Hq0.
    { rewrite float_nonneg_SF, FloatAxioms.div_spec, Hyeq.
      by apply SFdiv_nonneg_finite, float_nonneg_SF. }
    split; [done|].
    destruct (float_nonneg_cases x' H0') as [Hx'|Hx'].
    + destruct (float_nonneg_cases x H0) as [Hx|Hx].
      * rewrite FloatAxioms.leb_spec, !FloatAxioms.div_spec, Hyeq.
        apply SFdiv_mono; [done..|]. by apply float_leb_sval.
      * rewrite (float_infinity_leb x Hx x' Hxx') in Hx'. done.
    + assert (Prim2SF (x' / y) = S754_infinity false) as Hinf
        by by rewrite FloatAxioms.div_spec, Hx', Hyeq.
      pose proof (float_leb_infinity _ Hq0) as Hle.
      rewrite FloatAxioms.leb_spec in *. by rewrite Hinf.
Qed.

(** Adding a number that is not negative does not make a sum smaller. *)
Lemma float_add_grows (x y : float) :
  PrimFloat.leb 0 x = true → PrimFloat.leb 0 y = true →
  PrimFloat.leb x (x + y) = true.
Proof.
  intros Hx0 Hy0.
  pose proof (float_add_nonneg x y Hx0 Hy0) as Hs0.
  destruct (float_nonneg_cases x Hx0) as [Hx|Hx]; cycle 1.
  { rewrite FloatAxioms.leb_spec, FloatAxioms.add_spec, Hx.
    rewrite float_nonneg_SF in Hy0. apply sf_nonneg_cases in Hy0.
    destruct (Prim2SF y) as [s|s| |s m e]; try done. by subst. }
  destruct (float_nonneg_cases y Hy0) as [Hy|Hy]; cycle 1.
  { rewrite FloatAxioms.leb_spec, FloatAxioms.add_spec, Hy.
    by destruct (Prim2SF x) as [s|s| |[] m e]. }
  rewrite FloatAxioms.leb_spec, FloatAxioms.add_spec.
  rewrite float_nonneg_SF, FloatAxioms.add_spec in Hs0.
  destruct (Prim2SF x) as [s|s| |[] m e] eqn:Hxeq; try done;
    [by apply SFleb_zero_nonneg..|].
  pose proof (sval_nonneg _ Hy).
  apply SFadd_lower; [done..|]. simpl. lia.
Qed.

(** ** From raw levels to scores *)

Lemma reverse_los_anti (raw raw' : float) :
  raw = float_inf ∨ within raw 1 →
  raw' = float_inf ∨ within raw' 1 →
  PrimFloat.leb raw raw' = true →
  PrimFloat.eqb (reverse_los raw') float_inf = false →
  PrimFloat.eqb (reverse_los raw) float_inf = false
  ∧ PrimFloat.leb (reverse_los raw') (reverse_los raw) = true.
Proof.
  intros Hraw Hraw' Hle Hfin'.
  destruct (reverse_los_range raw' _ Hraw' eq_refl Hfin') as ([H0' H1'] & Hv' & _).
  assert (within raw 1) as Hw.
  { destruct Hraw as [->|]; [|done].
    pose proof (float_leb_trans _ _ _ Hle H1') as Hbad. vm_compute in Hbad. done. }
  assert (reverse_los raw = (1 - raw)%float) as ->.
  { unfold reverse_los, float_inf. by rewrite (within_not_infinity raw 1). }
  split.
  - apply (within_not_infinity _ 1); [done|]. by apply float_rsub_within.
  - rewrite Hv'. destruct Hw as [H0 H1]. by apply float_sub_anti_r.
Qed.

(** X16.  The level of service is monotone in the density: of two
    densities [0 <= d <= d'], the greater one is given a raw level that is
    not smaller, across the bands of the table and within each of them, in
    binary64 arithmetic as it is computed; and where the score of the
    greater density is not [float("inf")], neither is that of the smaller
    one, and it is not below it. *)
Theorem los_lookup_monotone (d d' raw raw' : float) :
  PrimFloat.leb 0 d = true → PrimFloat.leb d d' = true →
  los_lookup ranges d = Some raw → los_lookup ranges d' = Some raw' →
  PrimFloat.leb raw raw' = true
  ∧ (PrimFloat.eqb (reverse_los raw') float_inf = false →
     PrimFloat.eqb (reverse_los raw) float_inf = false
     ∧ PrimFloat.leb (reverse_los raw') (reverse_los raw) = true).
Proof.
  intros H0 Hdd' Hl Hl'.
  pose proof (los_lookup_mono ranges 0 0 d d' raw raw' ranges_rising H0 Hdd' Hl Hl') as Hle.
  split; [done|].
  apply reverse_los_anti; [| |done].
  - by apply (los_lookup_range ranges 0 d); [apply ranges_chained|..].
  - apply (los_lookup_range ranges 0 d'); [apply ranges_chained| |done].
    by apply (float_leb_trans _ d).
Qed.

End density_monotone.

(** ** One more observation *)

Section one_more_observation.
Context {SegmentId : Type} `{Countable SegmentId}.

Lemma py_sum_snoc (xs : list float) (x : float) :
  py_sum (xs ++ [x]) = (py_sum xs + x)%float.
Proof. unfold py_sum. by rewrite foldl_app. Qed.

Lemma py_sum_fmap_snoc {A} (f : A → float) (xs : list A) (x : A) :
  py_sum (f <$> xs ++ [x]) = (py_sum (f <$> xs) + f x)%float.
Proof. rewrite fmap_app. apply py_sum_snoc. Qed.

Lemma load_ahead_add_vehicles classes (gv : GlobalView SegmentId) fcd datetime segment_id
    tolerance vehicle_id vehicle_offset_m :
  let va := (load_ahead classes gv datetime segment_id tolerance vehicle_id
                        vehicle_offset_m).2 in
  let va' := (load_ahead classes (add fcd gv) datetime segment_id tolerance vehicle_id
                         vehicle_offset_m).2 in
  va' = va
  ∨ va' = va ++ [(FCDRecord.vehicle_id fcd,
                  VehicleClasses.get classes (FCDRecord.vehicle_type fcd))].
Proof.
  intros va va'. subst va va'.
  rewrite (load_ahead_snd _ (add fcd gv)), add_observations.
  destruct (decide (segment_id = Segment.id (FCDRecord.segment fcd))) as [Hs|Hs];
    [|left; by rewrite load_ahead_snd].
  rewrite filter_app, filter_cons, filter_nil.
  destruct (decide (counts_ahead _ _ _ _ fcd)) as [Hc|Hc];
    [|left; by rewrite app_nil_r, load_ahead_snd].
  rewrite foldl_app. simpl. rewrite <- load_ahead_snd, dict_mem_keys.
  case_bool_decide as Hin; simpl; [by left|right]. by apply dict_set_new.
Qed.

Lemma dict_values_snoc {V} (d : list (Z * V)) (k : Z) (v : V) :
  OrderedDict.values (d ++ [(k, v)]) = OrderedDict.values d ++ [v].
Proof. unfold OrderedDict.values. by rewrite fmap_app. Qed.

(** The density does not fall as the PCU total grows. *)
Lemma density_mono (sum_pcu sum_pcu' segment_length vehicle_offset_m : float)
    (segment_lanes : Z) (n n' : float) :
  PrimFloat.leb 0 sum_pcu = true → PrimFloat.leb sum_pcu sum_pcu' = true →
  (1 ≤ segment_lanes)%Z →
  n_vehicles_per_mile sum_pcu segment_length vehicle_offset_m segment_lanes = Some n →
  n_vehicles_per_mile sum_pcu' segment_length vehicle_offset_m segment_lanes = Some n' →
  Prim2SF n' = S754_nan ∨ (PrimFloat.leb 0 n = true ∧ PrimFloat.leb n n' = true).
Proof.
  intros Hsum Hle Hlanes. unfold n_vehicles_per_mile, py_truediv. cbv zeta.
  assert (PrimFloat.leb 0 (sum_pcu * mile) = true) as Hx
    by (by apply float_mul_nonneg).
  assert (PrimFloat.leb (sum_pcu * mile) (sum_pcu' * mile) = true) as Hxx'
    by (by apply float_mul_mono_ext).
  destruct (PrimFloat.ltb _ ending_length) eqn:Hrest.
  - change (PrimFloat.eqb ending_length 0) with false. cbv iota.
    intros [= <-] [= <-].
    apply float_div_mono_ext; [done|done|by right|done].
  - destruct (PrimFloat.eqb _ 0) eqn:Hy; [done|]. intros [= <-] [= <-].
    apply float_div_mono_ext; [done|done| |done].
    apply float_mul_nonneg_or_nan; [|apply float_of_Z_nonneg; lia].
    destruct (float_ltb_false _ _ Hrest eq_refl) as [Hnan|Hle']; [by left|right].
    by apply (float_leb_trans_nonneg ending_length).
Qed.

Lemma float_leb_refl (x : float) : PrimFloat.leb 0 x = true → PrimFloat.leb x x = true.
Proof.
  rewrite !FloatAxioms.leb_spec, prim_zero. unfold SFleb, SFcompare.
  destruct (Prim2SF x) as [s|[]| |[] m e]; try done.
  intros _. by rewrite Z.compare_refl, Pos.compare_cont_refl.
Qed.

Lemma classes_get_params classes ty (P : VehicleParams.t → Prop) :
  P (VehicleClasses.car classes) →
  map_Forall (λ _, P) (VehicleClasses.others classes) →
  P (VehicleClasses.get classes ty).
Proof.
  intros Hcar Hothers. unfold VehicleClasses.get. case_decide; [done|].
  destruct (VehicleClasses.others classes !! ty) as [p|] eqn:Hty; [|done].
  simpl. by apply (Hothers ty).
Qed.

(** One more observation does not lower the totals of [load_ahead]. *)
Lemma load_ahead_add_totals classes (gv : GlobalView SegmentId) fcd datetime segment_id
    tolerance vehicle_id vehicle_offset_m :
  nonneg_params (VehicleClasses.car classes) →
  map_Forall (λ _, nonneg_params) (VehicleClasses.others classes) →
  let la := load_ahead classes gv datetime segment_id tolerance vehicle_id
                       vehicle_offset_m in
  let la' := load_ahead classes (add fcd gv) datetime segment_id tolerance vehicle_id
                        vehicle_offset_m in
  PrimFloat.leb 0 la.1.1 = true ∧ PrimFloat.leb la.1.1 la'.1.1 = true
  ∧ PrimFloat.leb 0 la.1.2 = true ∧ PrimFloat.leb la.1.2 la'.1.2 = true.
Proof.
  intros Hcar Hothers la la'.
  pose proof (λ ty, classes_get_params classes ty nonneg_params Hcar Hothers) as Hget.
  pose proof (load_ahead_pcu classes gv datetime segment_id tolerance vehicle_id
                vehicle_offset_m nonneg_params Hget) as Hall.
  assert (PrimFloat.leb 0 la.1.1 = true) as Hpcu.
  { apply py_sum_nonneg, Forall_fmap. eapply Forall_impl; [exact Hall|]. by intros p []. }
  assert (PrimFloat.leb 0 la.1.2 = true) as Hocc.
  { apply py_sum_nonneg, Forall_fmap. eapply Forall_impl; [exact Hall|]. by intros p []. }
  destruct (load_ahead_add_vehicles classes gv fcd datetime segment_id tolerance
              vehicle_id vehicle_offset_m) as [Hsame|Hnew].
  - assert (la' = la) as ->.
    { subst la la'. rewrite load_ahead_eta, (load_ahead_eta _ gv). cbv zeta.
      by rewrite Hsame. }
    split_and!; [done|by apply float_leb_refl|done|by apply float_leb_refl].
  - destruct (Hget (FCDRecord.vehicle_type fcd)) as [Hp Hl].
    assert (la'.1.1 = (la.1.1 + VehicleParams.pcu
                                  (VehicleClasses.get classes (FCDRecord.vehicle_type fcd)))%float
            ∧ la'.1.2 = (la.1.2 + (VehicleParams.length_m
                                     (VehicleClasses.get classes (FCDRecord.vehicle_type fcd))
                                   + VehicleParams.standstill_gap_m
                                       (VehicleClasses.get classes (FCDRecord.vehicle_type fcd))))%float)
      as [-> ->].
    { subst la la'. rewrite load_ahead_eta, (load_ahead_eta _ gv). cbv zeta.
      rewrite Hnew. cbn [fst snd].
      by rewrite dict_values_snoc, !py_sum_fmap_snoc. }
    split_and!; [done|by apply float_add_grows|done|by apply float_add_grows].
Qed.

(** The score computed from a PCU total does not rise as the total grows. *)
Lemma score_mono (sum_pcu sum_pcu' segment_length vehicle_offset_m : float)
    (segment_lanes : Z) (v v' : float) :
  PrimFloat.leb 0 sum_pcu = true → PrimFloat.leb sum_pcu sum_pcu' = true →
  (1 ≤ segment_lanes)%Z →
  (n ← n_vehicles_per_mile sum_pcu segment_length vehicle_offset_m segment_lanes;
   los ← los_lookup ranges n; Some (reverse_los los)) = Some v →
  (n ← n_vehicles_per_mile sum_pcu' segment_length vehicle_offset_m segment_lanes;
   los ← los_lookup ranges n; Some (reverse_los los)) = Some v' →
  PrimFloat.eqb v' float_inf = false →
  PrimFloat.eqb v float_inf = false ∧ PrimFloat.leb v' v = true.
Proof.
  intros Hsum Hle Hlanes.
  destruct (n_vehicles_per_mile sum_pcu _ _ _) as [n|] eqn:Hn; [|done].
  destruct (n_vehicles_per_mile sum_pcu' _ _ _) as [n'|] eqn:Hn'; [|done].
  cbn [mbind option_bind].
  destruct (los_lookup ranges n) as [raw|] eqn:Hraw; [|done].
  destruct (los_lookup ranges n') as [raw'|] eqn:Hraw'; [|done].
  cbn [mbind option_bind]. intros [= <-] [= <-] Hfin.
  destruct (density_mono _ _ _ _ _ _ _ Hsum Hle Hlanes Hn Hn') as [Hnan|[H0 Hnn']].
  { rewrite los_lookup_nan in Hraw' by done. injection Hraw' as <-.
    vm_compute in Hfin. done. }
  apply reverse_los_anti; [| | |done].
  - by apply (los_lookup_range ranges 0 n); [apply ranges_chained|..].
  - apply (los_lookup_range ranges 0 n'); [apply ranges_chained| |done].
    by apply (float_leb_trans _ n).
  - by apply (los_lookup_mono ranges 0 0 n n'); [apply ranges_rising|..].
Qed.

(** X17.  One more observation never improves the level of service.  With
    no class of a negative PCU value or occupied length and at least one
    lane: if the level of service after an [add] is not [float("inf")],
    then neither was the level before it, and the level after the [add] is
    not above the level before it, whatever segment, vehicle and time the
    added observation has. *)
Theorem level_of_service_add_no_better classes (gv : GlobalView SegmentId) fcd datetime
    segment vehicle_id vehicle_offset_m tolerance limit_vehicle_count (v v' : float) :
  nonneg_params (VehicleClasses.car classes) →
  map_Forall (λ _, nonneg_params) (VehicleClasses.others classes) →
  (1 ≤ Segment.lanes segment)%Z →
  level_of_service_in_front_of_vehicle classes gv datetime segment vehicle_id
    vehicle_offset_m tolerance limit_vehicle_count = Some v →
  level_of_service_in_front_of_vehicle classes (add fcd gv) datetime segment vehicle_id
    vehicle_offset_m tolerance limit_vehicle_count = Some v' →
  PrimFloat.eqb v' float_inf = false →
  PrimFloat.eqb v float_inf = false ∧ PrimFloat.leb v' v = true.
Proof.
  intros Hcar Hothers Hlanes. rewrite !level_of_service_unfold. cbv zeta.
  destruct (load_ahead_add_totals classes gv fcd datetime (Segment.id segment) tolerance
              vehicle_id vehicle_offset_m Hcar Hothers) as (Hpcu & Hpcu' & Hocc & Hocc').
  cbv zeta in Hpcu, Hpcu', Hocc, Hocc'.
  set (la := load_ahead classes gv _ _ _ _ _) in *.
  set (la' := load_ahead classes (add fcd gv) _ _ _ _ _) in *.
  destruct (limit_vehicle_count && PrimFloat.eqb vehicle_offset_m 0
            && PrimFloat.leb 10 (Segment.length segment)) eqn:Hmode; cbn [andb].
  - (* the mode of the jam test *)
    destruct (PrimFloat.ltb _ la'.1.2) eqn:Hjam'.
    { intros _ [= <-] Hfin. vm_compute in Hfin. done. }
    destruct (PrimFloat.ltb _ la.1.2) eqn:Hjam.
    { pose proof (float_ltb_leb_trans _ _ _ Hjam Hocc'). congruence. }
    by apply score_mono.
  - by apply score_mono.
Qed.

End one_more_observation.

(** * The properties on concrete indexes *)

Section on_examples.
Import Examples.

Lemma get_segment_speed_latest_mean_witness :
  (get_segment_speed 7%Z gv_one_vehicle).1 = Some 20%float
  ∧ (get_segment_speed 7%Z gv_one_vehicle_reversed).1 = Some 20%float.
Proof.
  split.
  - destruct (get_segment_speed_latest_mean 7%Z gv_one_vehicle)
      as (_ & _ & _ & _ & _ & _ & Hlatest).
    apply (Hlatest seen_slow seen_fast); [by left|reflexivity..].
  - destruct (get_segment_speed_latest_mean 7%Z gv_one_vehicle_reversed)
      as (_ & _ & _ & _ & _ & _ & Hlatest).
    apply (Hlatest seen_slow seen_fast); [by right|reflexivity..].
Defined.

Lemma add_contract_witness :
  let gv := add_all [car_at road7 1 0 100 10; car_at road7 2 5 100 12] init in
  let fcd := car_at road8 1 0 160 15 in
  modified_segments (add fcd gv) = modified_segments gv ∪ {[8%Z; 7%Z]}
  ∧ car_to_segment (add fcd gv) = <[1%Z := 8%Z]> (car_to_segment gv).
Proof.
  intros gv fcd.
  destruct (add_contract fcd gv) as (_ & _ & _ & Hmoved & _).
  apply (Hmoved 7%Z); [reflexivity|done].
Defined.

Lemma take_segment_speeds_contract_witness :
  (take_segment_speeds gv_moving).1 !! 7%Z = Some (get_segment_speed 7%Z gv_moving).1
  ∧ (take_segment_speeds gv_moving).1 !! 9%Z = None.
Proof.
  destruct (take_segment_speeds_contract gv_moving) as (_ & Hin & Hout & _).
  split.
  - apply Hin. vm_compute. set_solver.
  - apply Hout. vm_compute. set_solver.
Defined.

Lemma jam_short_circuit_witness :
  level_of_service_in_front_of_vehicle classes gv_short 0 short_road 99 0 None true
  = Some float_inf
  ∧ level_of_service_in_front_of_vehicle classes gv_short 0 short_road 99 0 None false
    = (n ← n_vehicles_per_mile 2 10 0 1; los ← los_lookup ranges n; Some (reverse_los los))
  ∧ level_of_service_in_front_of_vehicle classes gv_truck 0 short_road 99 0 None true
    = Some float_inf
  ∧ OrderedDict.get 1 (load_ahead classes gv_truck 0 3%Z None 99 0).2 = Some truck_params
  ∧ (load_ahead classes gv_truck 0 3%Z None 99 0).1.2 = py_sum [(12 + 3)%float].
Proof.
  split_and!.
  - apply (jam_short_circuit classes gv_short 0 short_road 99 0 None true); reflexivity.
  - apply (jam_short_circuit classes gv_short 0 short_road 99 0 None false). by left.
  - apply (jam_short_circuit classes gv_truck 0 short_road 99 0 None true); reflexivity.
  - destruct (jam_short_circuit classes gv_truck 0 short_road 99 0 None true)
      as (_ & _ & _ & _ & _ & _ & Hget & _).
    etrans; [apply Hget|reflexivity].
  - destruct (jam_short_circuit classes gv_truck 0 short_road 99 0 None true)
      as (_ & _ & _ & _ & _ & _ & _ & _ & Hsum).
    etrans; [apply Hsum|reflexivity].
Defined.

Lemma los_bands_half_open_witness :
  los_lookup ranges 15%float
  = Some (PrimFloat.add 0.2 (PrimFloat.div (PrimFloat.mul (PrimFloat.sub 15 12) 0.2)
                                           (PrimFloat.sub 20 12)))
  ∧ los_lookup ranges 67%float = Some float_inf
  ∧ reverse_los 0.5%float = 0.5%float
  ∧ level_of_service_in_front_of_vehicle classes gv_mile 0 mile_road (-1) 0 None false
    = Some 0.8%float
  ∧ level_of_service_in_front_of_vehicle classes gv_mile 0 mile_road (-1) 0 None true
    = Some 0.8%float.
Proof.
  destruct (@los_bands_half_open Z _ _)
    as (_ & _ & _ & _ & _ & Hband & Habove & _ & Hrev & _ & Hmethod).
  split_and!.
  - apply (Hband 12 20 0.2 0.4 15)%float; [|reflexivity..].
    unfold ranges. apply elem_of_cons. right. apply elem_of_cons. by left.
  - apply Habove. reflexivity.
  - apply Hrev. reflexivity.
  - destruct (Hmethod classes gv_mile 0%Z mile_road (-1)%Z 0%float None false eq_refl)
      as (_ & _ & Htwelve & _).
    apply Htwelve. reflexivity.
  - destruct (Hmethod classes gv_mile 0%Z mile_road (-1)%Z 0%float None true eq_refl)
      as (_ & _ & Htwelve & _).
    apply Htwelve. reflexivity.
Defined.

Lemma density_normalisation_witness :
  n_vehicles_per_mile 2 10 0 1
  = Some (PrimFloat.div (PrimFloat.mul 2 1609.344) 200)
  ∧ n_vehicles_per_mile 20 500 0 2
    = Some (PrimFloat.div (PrimFloat.mul 20 1609.344) (PrimFloat.mul 500 2)).
Proof.
  split.
  - apply (density_normalisation classes gv_short 0 short_road 99 0 None). reflexivity.
  - apply (density_normalisation classes gv_scenario 0 road7 (-1) 0 None); reflexivity.
Defined.

(** C7 (the code departs from the claim).  With no reference vehicle, as
    in [level_of_service_in_time_at_segment], an observation in the window
    whose offset is zero is not counted: the car standing at the start of
    segment 7 adds nothing to the totals, and the segment is scored as
    free.  The comment of [load_ahead] says that all vehicles are summed
    when no vehicle is given. *)
Theorem load_ahead_skips_offset_zero :
  let fcd := car_at road7 1 0 1000 30 in
  observations gv_at_start 7%Z = [fcd]
  ∧ in_window 1000 0 fcd
  ∧ FCDRecord.vehicle_id fcd ≠ (-1)%Z
  ∧ ¬ counts_ahead 1000 0 (-1) 0 fcd
  ∧ load_ahead classes gv_at_start 1000 7%Z None (-1) 0 = (0%float, 0%float, [])
  ∧ level_of_service_in_time_at_segment classes gv_at_start 1000 road7 = Some 1%float.
Proof.
  split_and!; try reflexivity.
  - unfold in_window. simpl. lia.
  - done.
  - intros (_ & _ & Hoff). vm_compute in Hoff. done.
Qed.

Lemma level_of_service_closed_range_witness :
  (∃ raw, 0.36355199999999999%float = (1 - raw)%float
          ∧ PrimFloat.leb 0 raw = true ∧ PrimFloat.leb raw 1 = true)
  ∧ PrimFloat.leb 0 0.36355199999999999%float = true
  ∧ PrimFloat.leb 0.36355199999999999%float 1 = true.
Proof.
  apply (level_of_service_closed_range classes gv_scenario 0 road7 (-1) 0 None false).
  - reflexivity.
  - apply map_Forall_singleton. reflexivity.
  - simpl. lia.
  - reflexivity.
  - reflexivity.
Defined.

(** C10 (counterexample to the claim as stated).  All PCU values are
    non-negative and the segment has one lane; ten cars ahead on
    240.20059701492542 m give the density 66.99999999999999, the largest
    binary64 number below 67.  It lies in the last band, where the
    interpolation rounds to the raw level 1.0, outside [[0, 1)]; the value
    returned is 0.0, which is finite and not strictly greater than 0. *)
Lemma level_of_service_zero_at_band_edge :
  PrimFloat.leb 0 (VehicleParams.pcu (VehicleClasses.car classes)) = true
  ∧ map_Forall (λ _ p, PrimFloat.leb 0 (VehicleParams.pcu p) = true)
               (VehicleClasses.others classes)
  ∧ (1 ≤ Segment.lanes edge_road)%Z
  ∧ (load_ahead classes gv_edge 0 5%Z None (-1) 0).1.1 = 10%float
  ∧ n_vehicles_per_mile 10 (Segment.length edge_road) 0 (Segment.lanes edge_road)
    = Some (PrimFloat.next_down 67)
  ∧ PrimFloat.ltb (PrimFloat.next_down 67) 67 = true
  ∧ los_lookup ranges (PrimFloat.next_down 67) = Some 1%float
  ∧ PrimFloat.ltb 1 1 = false
  ∧ level_of_service_in_front_of_vehicle classes gv_edge 0 edge_road (-1) 0 None false
    = Some 0%float
  ∧ level_of_service_in_time_at_segment classes gv_edge 0 edge_road = Some 0%float
  ∧ PrimFloat.eqb 0 float_inf = false
  ∧ PrimFloat.ltb 0 0 = false.
Proof.
  split_and!; try reflexivity.
  - by apply map_Forall_singleton.
Qed.

(** The scenario of the specification: 500 m, two lanes, twenty cars ahead
    of the start give the density 32.19 vehicles per mile, in the band
    [[30, 42)], and the score 0.3635. *)
Example scenario_score :
  (load_ahead classes gv_scenario 0 7%Z None (-1) 0).1 = (20%float, 140%float)
  ∧ n_vehicles_per_mile 20 500 0 2 = Some 32.186880000000002%float
  ∧ los_lookup ranges 32.186880000000002%float = Some 0.63644800000000001%float
  ∧ level_of_service_in_time_at_segment classes gv_scenario 0 road7
    = Some 0.36355199999999999%float.
Proof. split_and!; reflexivity. Qed.

End on_examples.

Section more_on_examples.
Import Examples.

Lemma drop_old_compose_witness :
  drop_old 200 (drop_old 150 gv_one_vehicle) = drop_old 200 gv_one_vehicle.
Proof. apply drop_old_compose. lia. Defined.

Lemma add_commute_witness :
  add (car_at road7 1 0 100 10) (add (car_at road8 2 5 100 12) init)
  = add (car_at road8 2 5 100 12) (add (car_at road7 1 0 100 10) init).
Proof. apply add_commute; simpl; lia. Defined.

Lemma reachable_filed_witness :
  Segment.id (FCDRecord.segment (car_at road8 1 0 160 15)) = 8%Z
  ∧ is_Some (car_to_segment (add (car_at road8 1 0 160 15) (add seen_slow init))
               !! FCDRecord.vehicle_id (car_at road8 1 0 160 15)).
Proof.
  apply (reachable_filed (add (car_at road8 1 0 160 15) (add seen_slow init))).
  - repeat constructor.
  - change (observations (add (car_at road8 1 0 160 15) (add seen_slow init)) 8%Z)
      with [car_at road8 1 0 160 15].
    apply elem_of_cons. by left.
Defined.

Lemma reachable_drain_clears_witness :
  modified_segments (drop_old 150 (add seen_slow init))
    ⊆ dom (fcd_by_segment (drop_old 150 (add seen_slow init)))
  ∧ (∀ v s, car_to_segment (drop_old 150 (add seen_slow init)) !! v = Some s →
            s ∈ dom (fcd_by_segment (drop_old 150 (add seen_slow init))))
  ∧ (take_segment_speeds (drop_old 150 (add seen_slow init))).2
    = with_modified_segments ∅ (drop_old 150 (add seen_slow init)).
Proof. apply reachable_drain_clears. repeat constructor. Defined.

Lemma get_segment_speed_order_free_witness :
  (get_segment_speed 7%Z gv_one_vehicle).1
  = (get_segment_speed 7%Z gv_one_vehicle_reversed).1.
Proof.
  apply get_segment_speed_order_free.
  - change (observations gv_one_vehicle 7%Z) with [seen_slow; seen_fast].
    change (observations gv_one_vehicle_reversed 7%Z) with [seen_fast; seen_slow].
    apply Permutation_swap.
  - change (observations gv_one_vehicle 7%Z) with [seen_slow; seen_fast].
    apply NoDup_cons. split; [|apply NoDup_singleton].
    intros Hin%list_elem_of_singleton. simpl in Hin. lia.
Defined.

Lemma load_ahead_monotone_witness :
  3%Z ∈ OrderedDict.keys (load_ahead classes gv_scenario 0 7%Z (Some 5%Z) (-1) 0).2.
Proof.
  apply (load_ahead_monotone classes gv_scenario 0 7%Z 0 5 (-1) 10 0 3).
  - lia.
  - reflexivity.
  - apply (bool_decide_unpack _). vm_compute. exact I.
Defined.

Lemma load_ahead_drop_old_witness :
  load_ahead classes (drop_old 0 gv_scenario) 0 (Segment.id road7) None (-1) 0
  = load_ahead classes gv_scenario 0 (Segment.id road7) None (-1) 0
  ∧ level_of_service_in_front_of_vehicle classes (drop_old 0 gv_scenario) 0 road7 (-1) 0
      None false
    = level_of_service_in_front_of_vehicle classes gv_scenario 0 road7 (-1) 0 None false.
Proof. apply load_ahead_drop_old. simpl. lia. Defined.

Lemma level_of_service_free_flow_witness :
  (PrimFloat.ltb (Segment.length road7 - 400) ending_length = true →
   level_of_service_in_front_of_vehicle classes gv_one_vehicle 150 road7 (-1) 400 None true
   = Some 1%float)
  ∧ (∀ v, level_of_service_in_front_of_vehicle classes gv_one_vehicle 150 road7 (-1) 400
            None true = Some v →
          v = 1%float
          ∨ (v = float_inf
             ∧ Prim2SF ((Segment.length road7 - 400) * float_of_Z (Segment.lanes road7))
               = S754_nan)).
Proof.
  apply (level_of_service_free_flow classes gv_one_vehicle 150 road7 (-1) 400 None true).
  reflexivity.
Defined.

Lemma level_of_service_returns_witness :
  is_Some (level_of_service_in_front_of_vehicle classes gv_scenario 0 road7 (-1) 0 None false).
Proof. apply level_of_service_returns. simpl. lia. Defined.

Lemma level_of_service_raises_iff_witness :
  level_of_service_in_front_of_vehicle classes gv_scenario 0 (Segment.mk 7%Z 500 0) (-1) 0
    None false = None
  ↔ false = false
    ∧ 0%Z = 0%Z
    ∧ PrimFloat.leb ending_length (500 - 0) = true
    ∧ PrimFloat.ltb (500 - 0) infinity = true.
Proof.
  apply (level_of_service_raises_iff classes gv_scenario 0 (Segment.mk 7%Z 500 0) (-1) 0
           None false).
  simpl. lia.
Defined.

Lemma get_segment_speed_nonneg_witness : PrimFloat.leb 0 20 = true.
Proof.
  apply (get_segment_speed_nonneg 7%Z gv_one_vehicle 20).
  - change (observations gv_one_vehicle 7%Z) with [seen_slow; seen_fast].
    intros fcd [->|[->|[]%elem_of_nil]%elem_of_cons]%elem_of_cons; reflexivity.
  - change (observations gv_one_vehicle 7%Z) with [seen_slow; seen_fast]. simpl. lia.
  - reflexivity.
Defined.

Lemma los_raw_within_band_witness :
  ∃ raw, los_lookup ranges 12 = Some raw
         ∧ PrimFloat.leb 0.2 raw = true
         ∧ PrimFloat.leb raw 0.4 = true
         ∧ reverse_los raw = (1 - raw)%float.
Proof.
  apply (los_raw_within_band 12 20 0.2 0.4 12).
  - unfold ranges. apply elem_of_cons. right. apply elem_of_cons. by left.
  - reflexivity.
  - reflexivity.
Defined.

Lemma los_lookup_monotone_witness :
  PrimFloat.leb 0.16666666666666666 0.27500000000000002 = true
  ∧ (PrimFloat.eqb (reverse_los 0.27500000000000002) float_inf = false →
     PrimFloat.eqb (reverse_los 0.16666666666666666) float_inf = false
     ∧ PrimFloat.leb (reverse_los 0.27500000000000002)
                     (reverse_los 0.16666666666666666) = true).
Proof. apply (los_lookup_monotone 10 15); reflexivity. Defined.

Lemma level_of_service_add_no_better_witness :
  PrimFloat.eqb 0.36355199999999999 float_inf = false
  ∧ PrimFloat.leb 0.30990719999999994 0.36355199999999999 = true.
Proof.
  apply (level_of_service_add_no_better classes gv_scenario
           (FCDRecord.mk road7 21 "truck" 250 0 30) 0 road7 (-1) 0 None false).
  - split; reflexivity.
  - apply map_Forall_singleton. split; reflexivity.
  - simpl. lia.
  - reflexivity.
  - reflexivity.
  - reflexivity.
Defined.

End more_on_examples.
